(** * Streaming markdown renderer: segmentation and presentation scheduling

    A shallow embedding of the streaming core of the renderer, and what
    holds of it.

    The code:
    - [JS]: the string primitives of the host language that the code calls
      ([trim], [split], [join], [indexOf], [substring], ...), over strings as
      lists of UTF-16 code units;
    - [Parser]: [MarkdownParser] of [core/parser.ts] ([splitIntoBlocks],
      [parseBlock], [parseBlocks], [escapeHtml], the code renderer);
    - [Worker]: the message handler of [workers/markdown.worker.ts];
    - [Renderer]: [IncrementalRenderer] of [core/renderer.ts], with the
      part of the DOM and of the host's timers it drives;
    - [StreamA], [StreamB]: the two [StreamProcessor] classes, the one that
      waits for sentence ends and the one that tests the last block;
    - [Stream]: either of them, seen through its blocks, buffer and renderer;
    - [WorkerParser]: the promise wrapper of the worker, of
      [core/worker-parser.ts];
    - [Component]: the loop that feeds [content] to the processor in chunks;
    - [Renderer0]: the older [IncrementalRenderer], without provisional
      blocks.

    The external collaborators (the markdown converter, the sanitizer, the
    highlighter, the clock) are parameters; a call that may throw returns
    an [outcome], or, in the worker's handler, which tells an [Error] from
    another thrown value, an [attempt].

    The statements: [Spec] and [Laws] hold their vocabulary, the
    [...Facts] and [...Laws] modules the lemmas; the claims come next, and
    further properties of the code last. *)

From stdpp Require Import gmap list strings.
From Stdlib Require Import NArith QArith Qminmax DecimalN.

Open Scope N_scope.

(** ** Host string primitives *)

Module JS.

(** A string is a sequence of UTF-16 code units. *)
Abbreviation jsstring := (list N).

(** ASCII literals for examples. *)
Definition str (s : string) : jsstring :=
  map Ascii.N_of_ascii (String.list_ascii_of_string s).

Definition NL : N := 10.

(** WhiteSpace and LineTerminator code points: what [String.prototype.trim]
    strips and what the regular-expression class [\s] matches. *)
Definition isWhiteSpace (c : N) : bool :=
  (c =? 9) || (c =? 10) || (c =? 11) || (c =? 12) || (c =? 13) || (c =? 32)
  || (c =? 160) || (c =? 5760) || ((8192 <=? c) && (c <=? 8202))
  || (c =? 8232) || (c =? 8233) || (c =? 8239) || (c =? 8287)
  || (c =? 12288) || (c =? 65279).

Fixpoint trimStart (s : jsstring) : jsstring :=
  match s with
  | c :: t => if isWhiteSpace c then trimStart t else s
  | [] => []
  end.

Definition trimEnd (s : jsstring) : jsstring := rev (trimStart (rev s)).

Definition trim (s : jsstring) : jsstring := trimEnd (trimStart s).

(** [s.startsWith(p)] *)
Fixpoint startsWith (p s : jsstring) : bool :=
  match p, s with
  | [], _ => true
  | a :: p', b :: s' => (a =? b) && startsWith p' s'
  | _ :: _, [] => false
  end.

(** [s.endsWith(p)] *)
Definition endsWith (p s : jsstring) : bool := startsWith (rev p) (rev s).

(** [s.includes(c)] for a one-character needle. *)
Definition includes (c : N) (s : jsstring) : bool := existsb (N.eqb c) s.

(** [s.indexOf(p)]: the first position where [p] occurs, [None] for -1. *)
Fixpoint indexOf (p s : jsstring) : option nat :=
  match s with
  | [] => if startsWith p [] then Some 0%nat else None
  | _ :: t => if startsWith p s then Some 0%nat else S <$> indexOf p t
  end.

(** [s.lastIndexOf(p)]: the last position where [p] occurs, -1 if none. *)
Fixpoint lastIndexOf (p s : jsstring) : Z :=
  match s with
  | [] => if startsWith p [] then 0%Z else (-1)%Z
  | _ :: t =>
      let r := lastIndexOf p t in
      if (0 <=? r)%Z then (r + 1)%Z
      else if startsWith p s then 0%Z else (-1)%Z
  end.

(** [s.slice(i)]: a negative start counts from the end. *)
Definition slice (i : Z) (s : jsstring) : jsstring :=
  if (i <? 0)%Z then drop (Z.to_nat (Z.max (Z.of_nat (length s) + i) 0)) s
  else drop (Z.to_nat i) s.

(** [s.substring(0, n)] and [s.substring(n)] for [n >= 0]. *)
Definition substring_to (n : nat) (s : jsstring) : jsstring := take n s.
Definition substring_from (n : nat) (s : jsstring) : jsstring := drop n s.

(** [s.split('\n')]: never empty, the empty string gives one empty line. *)
Fixpoint split_nl (s : jsstring) : list jsstring :=
  match s with
  | [] => [[]]
  | c :: t =>
      if c =? NL then [] :: split_nl t
      else match split_nl t with
           | l :: ls => (c :: l) :: ls
           | [] => [[c]]
           end
  end.

(** [a.join(sep)] *)
Fixpoint join (sep : jsstring) (a : list jsstring) : jsstring :=
  match a with
  | [] => []
  | [x] => x
  | x :: rest => x ++ sep ++ join sep rest
  end.

Definition join_nl : list jsstring -> jsstring := join [NL].

(** The characters of the class [[.!?。！？]]. *)
Definition isSentenceEnd (c : N) : bool :=
  (c =? 46) || (c =? 33) || (c =? 63)
  || (c =? 12290) || (c =? 65281) || (c =? 65311).

(** [s.split(/([.!?。！？])\s+/)].

    The host scans left to right; where a sentence-end character is followed
    by at least one white-space character it closes the current piece, pushes
    the captured character as a piece of its own, and skips the whole
    (greedy) white-space run; the text after the last match is the last
    piece.  [skip] is set while the scanner is inside the white-space run of
    a match; [cur] is the piece read so far, reversed. *)
Fixpoint split_sentences_from (skip : bool) (cur : jsstring) (s : jsstring)
  : list jsstring :=
  match s with
  | [] => [rev cur]
  | c :: t =>
      if skip && isWhiteSpace c then split_sentences_from true cur t
      else if isSentenceEnd c
                && match t with d :: _ => isWhiteSpace d | [] => false end
      then rev cur :: [c] :: split_sentences_from true [] t
      else split_sentences_from false (c :: cur) t
  end.

Definition split_sentences (s : jsstring) : list jsstring :=
  split_sentences_from false [] s.

(** [a.pop()]: the array without its last element, and that element. *)
Definition pop {A} (a : list A) : list A * option A :=
  (removelast a, last a).

(** [/^[-*_]{3,}$/] (no [m] flag: the whole string is three or more rule
    characters). *)
Definition isRuleChar (c : N) : bool := (c =? 45) || (c =? 42) || (c =? 95).
Definition isHorizontalRule (s : jsstring) : bool :=
  forallb isRuleChar s && (3 <=? length s)%nat.

End JS.

(** ** Failure of a host call

    A call either returns or throws (an awaited promise is fulfilled or
    rejected); [msg] is the [message] of the error. *)

Inductive outcome (A : Type) : Type :=
| Returned (a : A)
| Thrown (msg : list N).
Arguments Returned {A} a.
Arguments Thrown {A} msg.

Definition obind {A B} (m : outcome A) (k : A -> outcome B) : outcome B :=
  match m with
  | Returned a => k a
  | Thrown e => Thrown e
  end.

Notation "'do' x <- m ; k" := (obind m (fun x => k))
  (at level 10, x name, m at level 100, k at level 200).

Definition returns {A} (m : outcome A) : bool :=
  match m with Returned _ => true | Thrown _ => false end.

(** ** [core/parser.ts]: MarkdownParser *)

Module Parser.
Import JS.

Inductive BlockType : Type :=
| PARAGRAPH | HEADING | CODE | BLOCKQUOTE | LIST | TABLE | HR | HTML.

(** [MarkdownBlock] of [types]. *)
Record Block : Type := mkBlock {
  id : jsstring;
  type : BlockType;
  content : jsstring;
  html : jsstring;
  startIndex : nat;
  endIndex : nat;
  level : option nat;
  language : option jsstring
}.

Definition FENCE : jsstring := [96; 96; 96].
Definition PIPE : N := 124.
Definition HASH : N := 35.

(** *** [splitIntoBlocks] *)

(** The local variables of the loop. *)
Record SplitState : Type := mkSplit {
  blocks : list jsstring;
  currentBlock : list jsstring;
  inCodeBlock : bool;
  inTable : bool
}.

Definition nonEmpty {A} (l : list A) : bool :=
  match l with [] => false | _ => true end.

(** [if (currentBlock.length > 0) { blocks.push(currentBlock.join('\n'));
    currentBlock = [] }] *)
Definition flushCurrent (st : SplitState) : SplitState :=
  if nonEmpty (currentBlock st)
  then mkSplit (blocks st ++ [join_nl (currentBlock st)]) []
               (inCodeBlock st) (inTable st)
  else st.

Definition isTableLine (trimmed : jsstring) : bool :=
  includes PIPE trimmed
  && (startsWith [PIPE] trimmed || endsWith [PIPE] trimmed).

(** One iteration of the [for] loop on [line]. *)
Definition splitLine (st : SplitState) (line : jsstring) : SplitState :=
  let trimmed := trim line in
  if startsWith FENCE trimmed then
    if inCodeBlock st then
      mkSplit (blocks st ++ [join_nl (currentBlock st ++ [line])]) []
              false (inTable st)
    else
      let st1 := flushCurrent st in
      mkSplit (blocks st1) (currentBlock st1 ++ [line]) true (inTable st1)
  else if inCodeBlock st then
    mkSplit (blocks st) (currentBlock st ++ [line]) (inCodeBlock st)
            (inTable st)
  else if isTableLine trimmed then
    let st1 := if negb (inTable st) then flushCurrent st else st in
    mkSplit (blocks st1) (currentBlock st1 ++ [line]) (inCodeBlock st1) true
  else
    let st1 :=
      if inTable st
      then mkSplit (blocks st ++ [join_nl (currentBlock st)]) []
                   (inCodeBlock st) false
      else st in
    if negb (nonEmpty trimmed) then flushCurrent st1
    else if startsWith [HASH] trimmed || isHorizontalRule trimmed then
      let st2 := flushCurrent st1 in
      mkSplit (blocks st2 ++ [line]) (currentBlock st2) (inCodeBlock st2)
              (inTable st2)
    else
      mkSplit (blocks st1) (currentBlock st1 ++ [line]) (inCodeBlock st1)
              (inTable st1).

(** [b.trim().length > 0] *)
Definition notBlank (b : jsstring) : bool := nonEmpty (trim b).

Definition splitIntoBlocks (markdown : jsstring) : list jsstring :=
  let lines := split_nl markdown in
  let st := fold_left splitLine lines (mkSplit [] [] false false) in
  List.filter notBlank (blocks (flushCurrent st)).

(** *** Block metadata *)

Definition isLineTerminator (c : N) : bool :=
  (c =? 10) || (c =? 13) || (c =? 8232) || (c =? 8233).

Definition isDigit (c : N) : bool := (48 <=? c) && (c <=? 57).

(** [\w] *)
Definition isWordChar (c : N) : bool :=
  ((65 <=? c) && (c <=? 90)) || ((97 <=? c) && (c <=? 122))
  || isDigit c || (c =? 95).

(** [/^[-*+]\s/] *)
Definition isBullet (s : jsstring) : bool :=
  match s with
  | c :: d :: _ => ((c =? 45) || (c =? 42) || (c =? 43)) && isWhiteSpace d
  | _ => false
  end.

(** [/^\d+\.\s/] *)
Fixpoint afterDigits (s : jsstring) : jsstring :=
  match s with
  | c :: t => if isDigit c then afterDigits t else s
  | [] => []
  end.

Definition isOrdinal (s : jsstring) : bool :=
  match s with
  | c :: t =>
      isDigit c
      && match afterDigits t with
         | dot :: w :: _ => (dot =? 46) && isWhiteSpace w
         | _ => false
         end
  | [] => false
  end.

(** [/\|.*\|/]: two pipes with no line terminator between them; [seen]
    is set once a pipe was read on the current line. *)
Fixpoint twoPipes (seen : bool) (s : jsstring) : bool :=
  match s with
  | [] => false
  | c :: t =>
      if c =? PIPE then (if seen then true else twoPipes true t)
      else if isLineTerminator c then twoPipes false t
      else twoPipes seen t
  end.

Definition detectBlockType (content : jsstring) : BlockType :=
  let trimmed := trim content in
  if startsWith [HASH] trimmed then HEADING
  else if startsWith FENCE trimmed then CODE
  else if startsWith [62] trimmed then BLOCKQUOTE
  else if isBullet trimmed || isOrdinal trimmed then LIST
  else if includes PIPE trimmed && twoPipes false trimmed then TABLE
  else if isHorizontalRule trimmed then HR
  else if startsWith [60] trimmed then HTML
  else PARAGRAPH.

Fixpoint takeWord (s : jsstring) : jsstring :=
  match s with
  | c :: t => if isWordChar c then c :: takeWord t else []
  | [] => []
  end.

(** [content.match(/^```(\w+)/)] *)
Definition extractLanguage (content : jsstring) : option jsstring :=
  if startsWith FENCE content
  then match takeWord (drop 3 content) with
       | [] => None
       | w => Some w
       end
  else None.

Fixpoint countHashes (s : jsstring) : nat :=
  match s with
  | c :: t => if c =? HASH then S (countHashes t) else 0%nat
  | [] => 0%nat
  end.

(** [content.match(/^(#{1,6})\s/)] *)
Definition extractHeadingLevel (content : jsstring) : option nat :=
  let n := countHashes content in
  if (1 <=? n)%nat && (n <=? 6)%nat
     && match drop n content with d :: _ => isWhiteSpace d | [] => false end
  then Some n
  else None.

(** *** [escapeHtml] *)

Definition escapeChar (c : N) : jsstring :=
  if c =? 38 then str "&amp;"
  else if c =? 60 then str "&lt;"
  else if c =? 62 then str "&gt;"
  else if c =? 34 then str "&quot;"
  else if c =? 39 then str "&#039;"
  else [c].

Definition escapeHtml (text : jsstring) : jsstring :=
  flat_map escapeChar text.

(** Decimal rendering of a number in a template literal. *)
Fixpoint digits (u : Decimal.uint) : jsstring :=
  match u with
  | Decimal.Nil => []
  | Decimal.D0 u => 48 :: digits u
  | Decimal.D1 u => 49 :: digits u
  | Decimal.D2 u => 50 :: digits u
  | Decimal.D3 u => 51 :: digits u
  | Decimal.D4 u => 52 :: digits u
  | Decimal.D5 u => 53 :: digits u
  | Decimal.D6 u => 54 :: digits u
  | Decimal.D7 u => 55 :: digits u
  | Decimal.D8 u => 56 :: digits u
  | Decimal.D9 u => 57 :: digits u
  end.

Definition decimal (n : N) : jsstring := digits (N.to_uint n).

Section Converter.

(** The external collaborators of the parser.

    - [marked_parse]: [marked.parse(content, { async: true })], awaited;
    - [sanitize]: [DOMPurify.sanitize];
    - [getLanguage], [highlight]: [hljs.getLanguage] (as a truth value)
      and [hljs.highlight(code, { language }).value]. *)
Variable marked_parse : jsstring -> outcome jsstring.
Variable sanitize : jsstring -> jsstring.
Variable getLanguage : jsstring -> bool.
Variable highlight : jsstring -> jsstring -> outcome jsstring.

Definition QUOTE : N := 34.

Definition plainCode (code : jsstring) : jsstring :=
  str "<pre><code>" ++ escapeHtml code ++ str "</code></pre>".

(** [renderer.code]: the custom code renderer installed in [marked]. An
    error of the highlighter is caught (and logged); the code then falls
    through to the escaped rendering. *)
Definition renderer_code (code : jsstring) (language : option jsstring)
  : jsstring :=
  match language with
  | Some ((_ :: _) as lang) =>
      if getLanguage lang then
        match highlight code lang with
        | Returned highlighted =>
            str "<pre><code class=" ++ [QUOTE] ++ str "hljs language-"
              ++ lang ++ [QUOTE] ++ str ">" ++ highlighted
              ++ str "</code></pre>"
        | Thrown _ => plainCode code
        end
      else plainCode code
  | _ => plainCode code
  end.

(** [parseBlock(content, index)]; [now] is what [Date.now()] returns in
    this call. *)
Definition parseBlock (now : N) (content : jsstring) (index : nat)
  : outcome Block :=
  let id := str "block-" ++ decimal (N.of_nat index) ++ str "-"
              ++ decimal now in
  let type := detectBlockType content in
  do rawHtml <- marked_parse content;
  let html := sanitize rawHtml in
  Returned (mkBlock id type content html index index
                    (extractHeadingLevel content)
                    (extractLanguage content)).

(** The loop of [parseBlocks] from index [i] on; [clock i] is the time
    read in the iteration of index [i]. *)
Fixpoint parseBlocksFrom (clock : nat -> N) (i : nat)
    (blocks : list jsstring) : outcome (list Block) :=
  match blocks with
  | [] => Returned []
  | b :: rest =>
      do block <- parseBlock (clock i) b i;
      do results <- parseBlocksFrom clock (S i) rest;
      Returned (block :: results)
  end.

Definition parseBlocks (clock : nat -> N) (blocks : list jsstring)
  : outcome (list Block) :=
  parseBlocksFrom clock 0 blocks.

End Converter.

End Parser.

(** ** [workers/markdown.worker.ts]: the conversion service *)

Module Worker.
Import JS Parser.

Inductive WorkerMessage : Type :=
| PARSE (blocks : list Block)
| PARSE_RESULT (results : list Block)
| ERROR (message : jsstring)
| OTHER.

(** What a call of the handler throws: an [Error], with its [message],
    or a value that is not an [Error]. *)
Inductive Raised : Type :=
| ErrorObject (message : jsstring)
| OtherValue.

(** A call of the handler returns or throws. *)
Inductive attempt (A : Type) : Type :=
| Done (a : A)
| Raise (r : Raised).
Arguments Done {A} a.
Arguments Raise {A} r.

(** [error instanceof Error ? error.message : 'Unknown error'] *)
Definition errorMessage (r : Raised) : jsstring :=
  match r with
  | ErrorObject message => message
  | OtherValue => str "Unknown error"
  end.

(** A call that throws [Error]s only, as a call of the handler. *)
Definition ofOutcome {A} (m : outcome A) : attempt A :=
  match m with
  | Returned a => Done a
  | Thrown e => Raise (ErrorObject e)
  end.

Section Handler.

(** The collaborators as the handler finds them in the scope of the
    worker.

    - [marked_parse]: [marked.parse(block.content, { async: true })],
      awaited;
    - [sanitize]: the call [DOMPurify.sanitize(rawHtml)]. It throws where
      DOMPurify has no [sanitize] function to call, as in a scope without
      a [window], which is where a worker runs. *)
Variable marked_parse : jsstring -> attempt jsstring.
Variable sanitize : jsstring -> attempt jsstring.

(** [{ ...block, html }] *)
Definition withHtml (block : Block) (h : jsstring) : Block :=
  mkBlock (id block) (type block) (content block) h
          (startIndex block) (endIndex block) (level block)
          (language block).

(** The body of the [for] loop: the result pushed for [block]. *)
Definition convert (block : Block) : attempt Block :=
  match marked_parse (content block) with
  | Done rawHtml =>
      match sanitize rawHtml with
      | Done html => Done (withHtml block html)
      | Raise r => Raise r
      end
  | Raise r => Raise r
  end.

(** The [for] loop of the handler. *)
Fixpoint convertAll (blocks : list Block) : attempt (list Block) :=
  match blocks with
  | [] => Done []
  | block :: rest =>
      match convert block with
      | Done result =>
          match convertAll rest with
          | Done results => Done (result :: results)
          | Raise r => Raise r
          end
      | Raise r => Raise r
      end
  end.

(** The message listener: the reply it posts, if any. The [try] spans
    the whole loop, so whatever is thrown for any entry is answered by one
    [ERROR] message. *)
Definition onMessage (msg : WorkerMessage) : option WorkerMessage :=
  match msg with
  | PARSE blocks =>
      match convertAll blocks with
      | Done results => Some (PARSE_RESULT results)
      | Raise r => Some (ERROR (errorMessage r))
      end
  | _ => None
  end.

End Handler.

End Worker.

(** ** [core/renderer.ts]: IncrementalRenderer *)

Module Renderer.
Import JS Parser.

(** The value of a [BlockType] member. *)
Definition typeName (t : BlockType) : jsstring :=
  match t with
  | PARAGRAPH => str "paragraph"
  | HEADING => str "heading"
  | CODE => str "code"
  | BLOCKQUOTE => str "blockquote"
  | LIST => str "list"
  | TABLE => str "table"
  | HR => str "hr"
  | HTML => str "html"
  end.

(** A [div] made by [renderBlock]. [node] is the identity of the DOM
    object: the rendered-block map and [remove()] go by reference. *)
Record Element : Type := mkElement {
  node : nat;
  className : jsstring;
  blockId : jsstring;
  innerHTML : jsstring
}.

(** The two settings of [RenderConfig] the scheduler reads; [chunkSize]
    is a count of blocks. *)
Record Config : Type := mkConfig {
  chunkSize : nat;
  debounceMs : Q
}.

(** The fields of the renderer, the children of its container, and the
    part of the host it drives: the pending [setTimeout] callbacks (each
    calls [scheduleRender]; [timers] holds their delays), and the supplies
    of fresh DOM objects and animation-frame handles. A frame callback is
    pending exactly while [rafId] is set. The scroll position, and the
    frame callbacks of [scrollToBottom] that only set it, are left out. *)
Record State : Type := mkState {
  container : list Element;
  renderedBlocks : gmap (list N) nat;
  rafId : option nat;
  pendingBlocks : list Block;
  isRendering : bool;
  lastTempBlockId : option jsstring;
  timers : list Q;
  nextNode : nat;
  nextHandle : nat
}.

Definition init : State :=
  mkState [] ∅ None [] false None [] 0 0.

Definition TEMP : jsstring := str "__temp__".

(** [id.startsWith('__temp__')] *)
Definition isTemp (i : jsstring) : bool := startsWith TEMP i.

(** Truth value of a [string | null]. *)
Definition truthy (o : option jsstring) : bool :=
  match o with Some (_ :: _) => true | _ => false end.

(** [element.remove()] for the element [n], wherever it is attached. *)
Definition removeNode (n : nat) (l : list Element) : list Element :=
  List.filter (fun e => negb (Nat.eqb (node e) n)) l.

(** [scheduleRender] *)
Definition scheduleRender (s : State) : State :=
  match rafId s with
  | Some _ => s
  | None =>
      mkState (container s) (renderedBlocks s) (Some (nextHandle s))
              (pendingBlocks s) (isRendering s) (lastTempBlockId s)
              (timers s) (nextNode s) (S (nextHandle s))
  end.

(** [appendBlocks] *)
Definition appendBlocks (blocks : list Block) (s : State) : State :=
  let s1 :=
    match lastTempBlockId s, blocks with
    | Some t, first :: _ =>
        if truthy (lastTempBlockId s) then
          match renderedBlocks s !! t with
          | Some tempElement =>
              if negb (isTemp (id first)) then
                mkState (removeNode tempElement (container s))
                        (delete t (renderedBlocks s)) (rafId s)
                        (pendingBlocks s) (isRendering s) None
                        (timers s) (nextNode s) (nextHandle s)
              else s
          | None => s
          end
        else s
    | _, _ => s
    end in
  scheduleRender
    (mkState (container s1) (renderedBlocks s1) (rafId s1)
             (pendingBlocks s1 ++ blocks) (isRendering s1)
             (lastTempBlockId s1) (timers s1) (nextNode s1) (nextHandle s1)).

(** [renderBlock]: a fresh [div] for the block. *)
Definition renderBlock (n : nat) (block : Block) : Element :=
  mkElement n (str "markdown-block markdown-block-" ++ typeName (type block))
            (id block) (html block).

(** What the loop of [renderPendingBlocks] reads and writes. *)
Record Pass : Type := mkPass {
  p_container : list Element;
  p_fragment : list Element;
  p_rendered : gmap (list N) nat;
  p_lastTemp : option jsstring;
  p_next : nat
}.

(** One iteration of [for (const block of chunk)]. *)
Definition renderOne (p : Pass) (block : Block) : Pass :=
  let p1 :=
    if isTemp (id block) then
      let p0 :=
        match p_lastTemp p with
        | Some t =>
            if truthy (p_lastTemp p) then
              match p_rendered p !! t with
              | Some oldTemp =>
                  mkPass (removeNode oldTemp (p_container p))
                         (removeNode oldTemp (p_fragment p))
                         (delete t (p_rendered p)) (p_lastTemp p) (p_next p)
              | None => p
              end
            else p
        | None => p
        end in
      mkPass (p_container p0) (p_fragment p0) (p_rendered p0)
             (Some (id block)) (p_next p0)
    else p in
  let element := renderBlock (p_next p1) block in
  mkPass (p_container p1) (p_fragment p1 ++ [element])
         (<[id block := node element]> (p_rendered p1))
         (p_lastTemp p1) (S (p_next p1)).

(** [renderTime > 16 ? Math.min(debounceMs, 8) : 0] *)
Definition nextDelay (cfg : Config) (renderTime : Q) : Q :=
  if Qlt_le_dec 16 renderTime then Qmin (debounceMs cfg) 8 else 0%Q.

(** [renderPendingBlocks]; [renderTime] is the difference of the two
    [performance.now()] readings of the pass. *)
Definition renderPendingBlocks (cfg : Config) (renderTime : Q) (s : State)
  : State :=
  if isRendering s || negb (nonEmpty (pendingBlocks s)) then s
  else
    let chunk := take (chunkSize cfg) (pendingBlocks s) in
    let pending := drop (chunkSize cfg) (pendingBlocks s) in
    let p := fold_left renderOne chunk
               (mkPass (container s) [] (renderedBlocks s)
                       (lastTempBlockId s) (nextNode s)) in
    mkState (p_container p ++ p_fragment p) (p_rendered p) (rafId s)
            pending false (p_lastTemp p)
            (if nonEmpty pending
             then timers s ++ [nextDelay cfg renderTime]
             else timers s)
            (p_next p) (nextHandle s).

(** The animation-frame callback installed by [scheduleRender]. *)
Definition onFrame (cfg : Config) (renderTime : Q) (s : State) : State :=
  renderPendingBlocks cfg renderTime
    (mkState (container s) (renderedBlocks s) None (pendingBlocks s)
             (isRendering s) (lastTempBlockId s) (timers s) (nextNode s)
             (nextHandle s)).

(** The [k]-th pending timeout fires: [() => this.scheduleRender()]. *)
Definition onTimeout (k : nat) (s : State) : State :=
  match timers s !! k with
  | Some _ =>
      scheduleRender
        (mkState (container s) (renderedBlocks s) (rafId s)
                 (pendingBlocks s) (isRendering s) (lastTempBlockId s)
                 (delete k (timers s)) (nextNode s) (nextHandle s))
  | None => s
  end.

(** [updateBlock] *)
Definition updateBlock (blockId : jsstring) (newHtml : jsstring) (s : State)
  : State :=
  match renderedBlocks s !! blockId with
  | None => s
  | Some n =>
      mkState (map (fun e => if Nat.eqb (node e) n
                             then mkElement (node e) (className e)
                                            (Renderer.blockId e) newHtml
                             else e) (container s))
              (renderedBlocks s) (rafId s) (pendingBlocks s) (isRendering s)
              (lastTempBlockId s) (timers s) (nextNode s) (nextHandle s)
  end.

(** [clear]: cancels the pending frame, if any; pending timeouts stay. *)
Definition clear (s : State) : State :=
  mkState [] ∅ None [] (isRendering s) (lastTempBlockId s) (timers s)
          (nextNode s) (nextHandle s).

(** [getStats] without the DOM node count. *)
Definition renderedCount (s : State) : nat := size (renderedBlocks s).
Definition pendingCount (s : State) : nat := length (pendingBlocks s).

(** The DOM node count of [getStats],
    [container.querySelectorAll('*').length]: the [div]s attached and the
    elements inside them; [elements h] is the number of elements the
    markup [h] parses to. *)
Definition domNodeCount (elements : jsstring -> nat) (s : State) : nat :=
  sum_list (map (fun e => S (elements (innerHTML e))) (container s)).

End Renderer.

(** ** The producer's calls *)

(** A call of the producer on a stream processor. [clock i] is what
    [Date.now()] returns when the call converts its [i]-th span. *)
Inductive Call : Type :=
| Append (clock : nat -> N) (chunk : list N)
| Finish (clock : nat -> N).

(** The text appended by a sequence of calls. *)
Definition appended (calls : list Call) : list N :=
  flat_map (fun c => match c with Append _ chunk => chunk | Finish _ => [] end)
           calls.

(** What [getStats] of a stream processor returns: the two counts of the
    processor and, spread into the same object, those of its renderer. *)
Module Stats.

Record t : Type := mk {
  bufferSize : nat;
  processedBlocks : nat;
  renderedCount : nat;
  pendingCount : nat;
  domNodeCount : nat
}.

End Stats.

(** ** [StreamProcessor], first variant (sentence-boundary heuristic) *)

Module StreamA.
Import JS Parser.

Record State : Type := mkState {
  buffer : jsstring;
  processedBlocks : list Block;
  renderer : Renderer.State
}.

Definition init : State := mkState [] [] Renderer.init.

(** The test of the marker-line loop on [lines[i]]. *)
Definition isMarkerLine (l : jsstring) : bool :=
  let line := trim l in
  startsWith [HASH] line || startsWith FENCE line || includes PIPE line.

(** [for (let i = 0; i < lines.length - 1; i++)]: the first index, from
    [i] on, of a marker line that is not the last line. *)
Fixpoint findMarker (i : nat) (lines : list jsstring) : option nat :=
  match lines with
  | l :: ((_ :: _) as rest) =>
      if isMarkerLine l then Some i else findMarker (S i) rest
  | _ => None
  end.

(** The third step of [extractCompleteBlocks]: special lines. *)
Definition extractMarker (buffer : jsstring) : list jsstring * jsstring :=
  let lines := split_nl buffer in
  match findMarker 0 lines with
  | Some i => ([join_nl (take (S i) lines)], join_nl (drop (S i) lines))
  | None => ([], buffer)
  end.

(** The second step: complete sentences. *)
Definition extractSentences (buffer : jsstring) : list jsstring * jsstring :=
  let sentences := split_sentences buffer in
  if (2 <? length sentences)%nat then
    let '(sentences1, lastSentence) := pop sentences in
    let '(sentences2, lastPunctuation) := pop sentences1 in
    let buffer1 := default [] lastSentence in
    let completeContent := join [] sentences2 in
    if nonEmpty (default [] lastPunctuation)
    then ([completeContent ++ default [] lastPunctuation], buffer1)
    else extractMarker buffer1
  else extractMarker buffer.

(** [extractCompleteBlocks]: the spans returned and the buffer left. *)
Definition extractCompleteBlocks (buffer : jsstring)
  : list jsstring * jsstring :=
  match indexOf [NL; NL] buffer with
  | Some doubleNewlineIndex =>
      let completeContent := substring_to doubleNewlineIndex buffer in
      (if nonEmpty (trim completeContent) then [completeContent] else [],
       substring_from (doubleNewlineIndex + 2) buffer)
  | None => extractSentences buffer
  end.

Section Processor.

Variable marked_parse : jsstring -> outcome jsstring.
Variable sanitize : jsstring -> jsstring.

(** [append] up to its [await]: the buffer grows and is segmented. *)
Definition appendBegin (chunk : jsstring) (s : State)
  : State * list jsstring :=
  let '(newBlocks, rest) := extractCompleteBlocks (buffer s ++ chunk) in
  (mkState rest (processedBlocks s) (renderer s), newBlocks).

(** The continuation of [append] and [finish] after [await
    parseBlocks(...)]. *)
Definition deliver (parsedBlocks : list Block) (s : State) : State :=
  mkState (buffer s) (processedBlocks s ++ parsedBlocks)
          (Renderer.appendBlocks parsedBlocks (renderer s)).

(** An awaited [append(chunk)]. *)
Definition append (clock : nat -> N) (chunk : jsstring) (s : State)
  : outcome State :=
  let '(s1, newBlocks) := appendBegin chunk s in
  if nonEmpty newBlocks then
    do parsedBlocks <- parseBlocks marked_parse sanitize clock newBlocks;
    Returned (deliver parsedBlocks s1)
  else Returned s1.

(** An awaited [finish()]. *)
Definition finish (clock : nat -> N) (s : State) : outcome State :=
  if nonEmpty (trim (buffer s)) then
    let remainingBlocks := splitIntoBlocks (buffer s) in
    do s1 <-
      (if nonEmpty remainingBlocks then
         do parsedBlocks <-
           parseBlocks marked_parse sanitize clock remainingBlocks;
         Returned (deliver parsedBlocks s)
       else Returned s);
    Returned (mkState [] (processedBlocks s1) (renderer s1))
  else Returned s.

(** [clear] *)
Definition clear (s : State) : State :=
  mkState [] [] (Renderer.clear (renderer s)).

(** [append(chunk)] when other code runs on the processor while the
    conversion is awaited: [during] is what that code does to the state
    between the segmentation and the continuation. *)
Definition appendDuring (during : State -> State) (clock : nat -> N)
    (chunk : jsstring) (s : State) : outcome State :=
  let '(s1, newBlocks) := appendBegin chunk s in
  if nonEmpty newBlocks then
    do parsedBlocks <- parseBlocks marked_parse sanitize clock newBlocks;
    Returned (deliver parsedBlocks (during s1))
  else Returned s1.

Definition call (c : Call) (s : State) : outcome State :=
  match c with
  | Append clock chunk => append clock chunk s
  | Finish clock => finish clock s
  end.

(** A producer that awaits each call before it makes the next. *)
Fixpoint run (calls : list Call) (s : State) : outcome State :=
  match calls with
  | [] => Returned s
  | c :: rest => do s1 <- call c s; run rest s1
  end.

(** [finish()] when other code runs on the processor while the
    conversion is awaited. *)
Definition finishDuring (during : State -> State) (clock : nat -> N)
    (s : State) : outcome State :=
  if nonEmpty (trim (buffer s)) then
    let remainingBlocks := splitIntoBlocks (buffer s) in
    do s1 <-
      (if nonEmpty remainingBlocks then
         do parsedBlocks <-
           parseBlocks marked_parse sanitize clock remainingBlocks;
         Returned (deliver parsedBlocks (during s))
       else Returned s);
    Returned (mkState [] (processedBlocks s1) (renderer s1))
  else Returned s.

(** The processor as an awaited [append(chunk)] leaves it, with the error
    when the call rejects. The buffer is cut before the conversion is
    awaited and a rejection skips the continuation, so the spans cut are
    then in no list. This is also the processor while the conversion is
    awaited. *)
Definition appendLeaves (clock : nat -> N) (chunk : jsstring) (s : State)
  : State * option (list N) :=
  let '(s1, newBlocks) := appendBegin chunk s in
  if nonEmpty newBlocks then
    match parseBlocks marked_parse sanitize clock newBlocks with
    | Returned parsedBlocks => (deliver parsedBlocks s1, None)
    | Thrown e => (s1, Some e)
    end
  else (s1, None).

(** The processor as an awaited [finish()] leaves it: a rejection skips
    the continuation and the assignment to the buffer after it. *)
Definition finishLeaves (clock : nat -> N) (s : State)
  : State * option (list N) :=
  if nonEmpty (trim (buffer s)) then
    let remainingBlocks := splitIntoBlocks (buffer s) in
    if nonEmpty remainingBlocks then
      match parseBlocks marked_parse sanitize clock remainingBlocks with
      | Returned parsedBlocks =>
          let s1 := deliver parsedBlocks s in
          (mkState [] (processedBlocks s1) (renderer s1), None)
      | Thrown e => (s, Some e)
      end
    else (mkState [] (processedBlocks s) (renderer s), None)
  else (s, None).

Definition callLeaves (c : Call) (s : State) : State * option (list N) :=
  match c with
  | Append clock chunk => appendLeaves clock chunk s
  | Finish clock => finishLeaves clock s
  end.

(** The calls one after the other, each awaited, whether it returns or
    rejects: the processor they leave, and the errors thrown, in order. *)
Fixpoint runLeaves (calls : list Call) (s : State)
  : State * list (list N) :=
  match calls with
  | [] => (s, [])
  | c :: rest =>
      let r := callLeaves c s in
      let rs := runLeaves rest (fst r) in
      (fst rs,
       match snd r with Some e => e :: snd rs | None => snd rs end)
  end.

End Processor.

(** [getStats] *)
Definition getStats (elements : jsstring -> nat) (s : State) : Stats.t :=
  Stats.mk (length (buffer s)) (length (processedBlocks s))
           (Renderer.renderedCount (renderer s))
           (Renderer.pendingCount (renderer s))
           (Renderer.domNodeCount elements (renderer s)).

End StreamA.

(** ** [StreamProcessor], second variant (last-block completeness) *)

Module StreamB.
Import JS Parser.

Record State : Type := mkState {
  buffer : jsstring;
  lastProcessedIndex : nat;
  processedBlocks : list Block;
  renderer : Renderer.State
}.

Definition init : State := mkState [] 0 [] Renderer.init.

(** The number of matches of [/```/g]: disjoint runs of three backticks,
    found left to right; [run] counts the backticks read since the last
    match or other character. *)
Fixpoint countFences (run : nat) (s : jsstring) : nat :=
  match s with
  | [] => 0%nat
  | c :: t =>
      if c =? 96 then
        (if Nat.eqb run 2 then S (countFences 0 t)
         else countFences (S run) t)
      else countFences 0 t
  end.

(** [isBlockComplete(block, fullBuffer)] for a defined [block]. *)
Definition isBlockComplete (block fullBuffer : jsstring) : bool :=
  let trimmed := trim block in
  if startsWith FENCE trimmed then (2 <=? countFences 0 trimmed)%nat
  else if includes PIPE trimmed then
    let blockEndIndex :=
      (lastIndexOf block fullBuffer + Z.of_nat (length block))%Z in
    let remaining := trim (slice blockEndIndex fullBuffer) in
    negb (nonEmpty remaining) || startsWith [NL; NL] remaining
  else true.

(** The error of [block.trim()] on an undefined [block]. *)
Definition trimOfUndefined : jsstring :=
  str "Cannot read properties of undefined (reading 'trim')".

(** [extractCompleteBlocks]: the spans returned and the buffer left. With
    no block at all, [lastBlock] is undefined and [isBlockComplete]
    throws. *)
Definition extractCompleteBlocks (buffer : jsstring)
  : outcome (list jsstring * jsstring) :=
  let blocks := splitIntoBlocks buffer in
  match last blocks with
  | None => Thrown trimOfUndefined
  | Some lastBlock =>
      if negb (isBlockComplete lastBlock buffer) && nonEmpty blocks then
        let lastIndex := lastIndexOf lastBlock buffer in
        Returned (removelast blocks, slice lastIndex buffer)
      else Returned (blocks, [])
  end.

Section Processor.

Variable marked_parse : jsstring -> outcome jsstring.
Variable sanitize : jsstring -> jsstring.

(** [append] up to its [await]. *)
Definition appendBegin (chunk : jsstring) (s : State)
  : outcome (State * list jsstring) :=
  do r <- extractCompleteBlocks (buffer s ++ chunk);
  Returned (mkState (snd r) (lastProcessedIndex s) (processedBlocks s)
                    (renderer s), fst r).

(** The continuation after [await parseBlocks(...)]. *)
Definition deliver (parsedBlocks : list Block) (s : State) : State :=
  mkState (buffer s) (lastProcessedIndex s)
          (processedBlocks s ++ parsedBlocks)
          (Renderer.appendBlocks parsedBlocks (renderer s)).

(** An awaited [append(chunk)]. *)
Definition append (clock : nat -> N) (chunk : jsstring) (s : State)
  : outcome State :=
  do r <- appendBegin chunk s;
  if nonEmpty (snd r) then
    do parsedBlocks <- parseBlocks marked_parse sanitize clock (snd r);
    Returned (deliver parsedBlocks (fst r))
  else Returned (fst r).

(** An awaited [finish()]. *)
Definition finish (clock : nat -> N) (s : State) : outcome State :=
  if nonEmpty (trim (buffer s)) then
    let remainingBlocks := splitIntoBlocks (buffer s) in
    do s1 <-
      (if nonEmpty remainingBlocks then
         do parsedBlocks <-
           parseBlocks marked_parse sanitize clock remainingBlocks;
         Returned (deliver parsedBlocks s)
       else Returned s);
    Returned (mkState [] (lastProcessedIndex s1) (processedBlocks s1)
                      (renderer s1))
  else Returned s.

(** [clear] *)
Definition clear (s : State) : State :=
  mkState [] 0 [] (Renderer.clear (renderer s)).

(** [append(chunk)] when other code runs on the processor while the
    conversion is awaited: [during] is what that code does to the state
    between the segmentation and the continuation. *)
Definition appendDuring (during : State -> State) (clock : nat -> N)
    (chunk : jsstring) (s : State) : outcome State :=
  do r <- appendBegin chunk s;
  if nonEmpty (snd r) then
    do parsedBlocks <- parseBlocks marked_parse sanitize clock (snd r);
    Returned (deliver parsedBlocks (during (fst r)))
  else Returned (fst r).

Definition call (c : Call) (s : State) : outcome State :=
  match c with
  | Append clock chunk => append clock chunk s
  | Finish clock => finish clock s
  end.

(** A producer that awaits each call before it makes the next. *)
Fixpoint run (calls : list Call) (s : State) : outcome State :=
  match calls with
  | [] => Returned s
  | c :: rest => do s1 <- call c s; run rest s1
  end.

(** [finish()] when other code runs on the processor while the
    conversion is awaited. *)
Definition finishDuring (during : State -> State) (clock : nat -> N)
    (s : State) : outcome State :=
  if nonEmpty (trim (buffer s)) then
    let remainingBlocks := splitIntoBlocks (buffer s) in
    do s1 <-
      (if nonEmpty remainingBlocks then
         do parsedBlocks <-
           parseBlocks marked_parse sanitize clock remainingBlocks;
         Returned (deliver parsedBlocks (during s))
       else Returned s);
    Returned (mkState [] (lastProcessedIndex s1) (processedBlocks s1)
                      (renderer s1))
  else Returned s.

(** The processor as an awaited [append(chunk)] leaves it, with the error
    when the call rejects. When [extractCompleteBlocks] throws, the buffer
    holds the chunk and nothing else has changed. When the conversion
    rejects, the buffer has been cut and the continuation is skipped, so
    the spans cut are in no list. This is also the processor while the
    conversion is awaited. *)
Definition appendLeaves (clock : nat -> N) (chunk : jsstring) (s : State)
  : State * option (list N) :=
  match appendBegin chunk s with
  | Thrown e =>
      (mkState (buffer s ++ chunk) (lastProcessedIndex s)
               (processedBlocks s) (renderer s), Some e)
  | Returned r =>
      if nonEmpty (snd r) then
        match parseBlocks marked_parse sanitize clock (snd r) with
        | Returned parsedBlocks => (deliver parsedBlocks (fst r), None)
        | Thrown e => (fst r, Some e)
        end
      else (fst r, None)
  end.

(** The processor as an awaited [finish()] leaves it: a rejection skips
    the continuation and the assignment to the buffer after it. *)
Definition finishLeaves (clock : nat -> N) (s : State)
  : State * option (list N) :=
  if nonEmpty (trim (buffer s)) then
    let remainingBlocks := splitIntoBlocks (buffer s) in
    if nonEmpty remainingBlocks then
      match parseBlocks marked_parse sanitize clock remainingBlocks with
      | Returned parsedBlocks =>
          let s1 := deliver parsedBlocks s in
          (mkState [] (lastProcessedIndex s1) (processedBlocks s1)
                   (renderer s1), None)
      | Thrown e => (s, Some e)
      end
    else (mkState [] (lastProcessedIndex s) (processedBlocks s)
                  (renderer s), None)
  else (s, None).

Definition callLeaves (c : Call) (s : State) : State * option (list N) :=
  match c with
  | Append clock chunk => appendLeaves clock chunk s
  | Finish clock => finishLeaves clock s
  end.

(** The calls one after the other, each awaited, whether it returns or
    rejects: the processor they leave, and the errors thrown, in order. *)
Fixpoint runLeaves (calls : list Call) (s : State)
  : State * list (list N) :=
  match calls with
  | [] => (s, [])
  | c :: rest =>
      let r := callLeaves c s in
      let rs := runLeaves rest (fst r) in
      (fst rs,
       match snd r with Some e => e :: snd rs | None => snd rs end)
  end.

End Processor.

(** [getStats] *)
Definition getStats (elements : jsstring -> nat) (s : State) : Stats.t :=
  Stats.mk (length (buffer s)) (length (processedBlocks s))
           (Renderer.renderedCount (renderer s))
           (Renderer.pendingCount (renderer s))
           (Renderer.domNodeCount elements (renderer s)).

End StreamB.

(** ** Either variant, observed from outside *)

Module Stream.
Import JS Parser.

Inductive Variant : Type :=
| SentenceBoundary   (* the first [StreamProcessor] *)
| LastBlockComplete. (* the second [StreamProcessor] *)

(** What a processor holds: the blocks it has produced, its buffer, and
    its renderer. *)
Record Snapshot : Type := mkSnapshot {
  produced : list Block;
  buffered : jsstring;
  rendering : Renderer.State
}.

Section Observe.

Variable marked_parse : jsstring -> outcome jsstring.
Variable sanitize : jsstring -> jsstring.

(** A fresh processor of variant [v] after the awaited [calls]. *)
Definition after (v : Variant) (calls : list Call) : outcome Snapshot :=
  match v with
  | SentenceBoundary =>
      do s <- StreamA.run marked_parse sanitize calls StreamA.init;
      Returned (mkSnapshot (StreamA.processedBlocks s) (StreamA.buffer s)
                           (StreamA.renderer s))
  | LastBlockComplete =>
      do s <- StreamB.run marked_parse sanitize calls StreamB.init;
      Returned (mkSnapshot (StreamB.processedBlocks s) (StreamB.buffer s)
                           (StreamB.renderer s))
  end.

(** A fresh processor of variant [v] as the awaited [calls] leave it,
    whether they return or reject. *)
Definition leaves (v : Variant) (calls : list Call) : Snapshot :=
  match v with
  | SentenceBoundary =>
      let s := fst (StreamA.runLeaves marked_parse sanitize calls
                      StreamA.init) in
      mkSnapshot (StreamA.processedBlocks s) (StreamA.buffer s)
                 (StreamA.renderer s)
  | LastBlockComplete =>
      let s := fst (StreamB.runLeaves marked_parse sanitize calls
                      StreamB.init) in
      mkSnapshot (StreamB.processedBlocks s) (StreamB.buffer s)
                 (StreamB.renderer s)
  end.

(** The errors with which calls of [calls] reject, in order. *)
Definition rejections (v : Variant) (calls : list Call) : list (list N) :=
  match v with
  | SentenceBoundary =>
      snd (StreamA.runLeaves marked_parse sanitize calls StreamA.init)
  | LastBlockComplete =>
      snd (StreamB.runLeaves marked_parse sanitize calls StreamB.init)
  end.

End Observe.

(** [append(chunk)] for each chunk, then one [finish()]. *)
Definition session (chunks : list ((nat -> N) * jsstring)) (clock : nat -> N)
  : list Call :=
  map (fun c => Append (fst c) (snd c)) chunks ++ [Finish clock].

End Stream.

(** ** [core/worker-parser.ts]: WorkerParser *)

Module WorkerParser.
Import JS Parser.

(** A message as either end reads it: its [type] with the blocks or the
    error text of its [payload] (a [WorkerMessage]), and the [id] property
    of the payload, if the payload has one. The page posts the payload
    [{ blocks, id }]; the worker posts the array of results, or
    [{ message }]. *)
Record Envelope : Type := mkEnvelope {
  data : Worker.WorkerMessage;
  payloadId : option nat
}.

(** How the promise of a request ended. *)
Inductive Settlement : Type :=
| Resolved (value : list Block)
| Rejected (message : jsstring).

(** The fields of the wrapper, and the promises it has settled so far,
    each under the id of its request. The keys of [pendingRequests] stand
    for its entries: the value of a key is the pair of callbacks of the
    promise made for that request. *)
Record State : Type := mkState {
  pendingRequests : gset nat;
  requestId : nat;
  settled : list (nat * Settlement)
}.

Definition init : State := mkState ∅ 0 [].

(** [parseBlocks]: the new state and the message posted to the worker. *)
Definition parseBlocks (blocks : list Block) (s : State) : State * Envelope :=
  let id := requestId s in
  (mkState ({[id]} ∪ pendingRequests s) (S id) (settled s),
   mkEnvelope (Worker.PARSE blocks) (Some id)).

(** [const request = this.pendingRequests.get(id); if (request) { ...;
    this.pendingRequests.delete(id) }] for a defined [id]. *)
Definition settle (id : nat) (how : Settlement) (s : State) : State :=
  if bool_decide (id ∈ pendingRequests s)
  then mkState (pendingRequests s ∖ {[id]}) (requestId s)
               (settled s ++ [(id, how)])
  else s.

(** [handleMessage]: with no [id] in the payload the lookup is
    [get(undefined)], which finds nothing. *)
Definition handleMessage (event : Envelope) (s : State) : State :=
  match data event, payloadId event with
  | Worker.PARSE_RESULT results, Some id => settle id (Resolved results) s
  | Worker.ERROR message, Some id => settle id (Rejected message) s
  | _, _ => s
  end.

(** [terminate] *)
Definition terminate (s : State) : State :=
  mkState ∅ (requestId s) (settled s).

(** What happens to a wrapper: a call, or a message that arrives. *)
Inductive Step : Type :=
| CallParseBlocks (blocks : list Block)
| Receive (event : Envelope)
| Terminate.

Definition step (s : State) (st : Step) : State :=
  match st with
  | CallParseBlocks blocks => fst (parseBlocks blocks s)
  | Receive event => handleMessage event s
  | Terminate => terminate s
  end.

Section Exchange.

Variable marked_parse : jsstring -> Worker.attempt jsstring.
Variable sanitize : jsstring -> Worker.attempt jsstring.

(** What the worker of [workers/markdown.worker.ts] posts back: the
    payload of its reply is the array of results or [{ message }], and
    neither carries an [id]. *)
Definition answer (request : Envelope) : option Envelope :=
  match Worker.onMessage marked_parse sanitize (data request) with
  | Some reply => Some (mkEnvelope reply None)
  | None => None
  end.

(** A call of [parseBlocks], the worker's answer, and its handling. *)
Definition exchange (s : State) (blocks : list Block) : State :=
  let '(s1, request) := parseBlocks blocks s in
  match answer request with
  | Some reply => handleMessage reply s1
  | None => s1
  end.

End Exchange.

End WorkerParser.

(** ** The component: [content] fed to the processor in chunks *)

Module Component.
Import JS Parser.

(** [content.slice(i, j)] for [0 <= i <= j]. *)
Definition sliceBetween (i j : nat) (s : jsstring) : jsstring :=
  take (j - i) (drop i s).

(** [for (let i = 0; i < content.length; i += chunkSize)] from [i] on,
    collecting [content.slice(i, i + chunkSize)]; [fuel] bounds the number
    of iterations. *)
Fixpoint chunkLoop (fuel chunkSize i : nat) (content : jsstring)
  : list jsstring :=
  match fuel with
  | O => []
  | S fuel' =>
      if (i <? length content)%nat
      then sliceBetween i (i + chunkSize) content
             :: chunkLoop fuel' chunkSize (i + chunkSize) content
      else []
  end.

(** The chunks of the loop; with a positive [chunkSize] it makes at most
    [content.length] iterations. *)
Definition chunks (chunkSize : nat) (content : jsstring) : list jsstring :=
  chunkLoop (length content) chunkSize 0 content.

(** The chunks with the clock of the call that appends each. *)
Fixpoint stamped (clocks : nat -> nat -> N) (k : nat)
    (cs : list jsstring) : list ((nat -> N) * jsstring) :=
  match cs with
  | [] => []
  | c :: rest => (clocks k, c) :: stamped clocks (S k) rest
  end.

(** The calls of the watcher on [content] after its [clear()]: an awaited
    [append] per chunk of 100 characters, then [finish()]. The frames and
    timeouts that run between the calls act on the renderer only and are
    left out. *)
Definition streamCalls (clocks : nat -> nat -> N) (content : jsstring)
  : list Call :=
  let cs := chunks 100 content in
  Stream.session (stamped clocks 0 cs) (clocks (length cs)).

Section Watch.

Variable marked_parse : jsstring -> outcome jsstring.
Variable sanitize : jsstring -> jsstring.

(** The watcher of [props.content] is suspended at each [await], and
    other code runs on the same processor meanwhile: the frames and
    timeouts of the renderer and, when there is any, the second watcher
    that [onMounted] registers for a component mounted with content, a
    later run of this watcher after [content] has changed again, and the
    calls of the parent through the exposed methods. [others n] is what
    all that does to the processor at the watcher's [n]-th suspension:
    number [2 * k] while the conversion of the [k]-th call is awaited,
    number [2 * k + 1] from there until the next call begins (the end of
    [await append(chunk)] and the timeout of 10 ms). *)

(** The loop of the watcher from its [k]-th chunk on, then [finish()],
    over a processor of the first variant. *)
Fixpoint watchLoopA (others : nat -> StreamA.State -> StreamA.State)
    (clocks : nat -> nat -> N) (k : nat) (cs : list jsstring)
    (s : StreamA.State) : outcome StreamA.State :=
  match cs with
  | [] =>
      StreamA.finishDuring marked_parse sanitize (others (2 * k)%nat)
                           (clocks k) s
  | c :: rest =>
      do s1 <- StreamA.appendDuring marked_parse sanitize
                 (others (2 * k)%nat) (clocks k) c s;
      watchLoopA others clocks (S k) rest (others (2 * k + 1)%nat s1)
  end.

(** The watcher of [props.content], over a processor of the first
    variant: nothing happens for an empty [content]; otherwise [clear()],
    an awaited [append] per chunk of 100 characters, and [finish()]. *)
Definition watchA (others : nat -> StreamA.State -> StreamA.State)
    (clocks : nat -> nat -> N) (content : jsstring) (s : StreamA.State)
  : outcome StreamA.State :=
  if nonEmpty content
  then watchLoopA others clocks 0 (chunks 100 content) (StreamA.clear s)
  else Returned s.

(** The same over a processor of the second variant. *)
Fixpoint watchLoopB (others : nat -> StreamB.State -> StreamB.State)
    (clocks : nat -> nat -> N) (k : nat) (cs : list jsstring)
    (s : StreamB.State) : outcome StreamB.State :=
  match cs with
  | [] =>
      StreamB.finishDuring marked_parse sanitize (others (2 * k)%nat)
                           (clocks k) s
  | c :: rest =>
      do s1 <- StreamB.appendDuring marked_parse sanitize
                 (others (2 * k)%nat) (clocks k) c s;
      watchLoopB others clocks (S k) rest (others (2 * k + 1)%nat s1)
  end.

Definition watchB (others : nat -> StreamB.State -> StreamB.State)
    (clocks : nat -> nat -> N) (content : jsstring) (s : StreamB.State)
  : outcome StreamB.State :=
  if nonEmpty content
  then watchLoopB others clocks 0 (chunks 100 content) (StreamB.clear s)
  else Returned s.

End Watch.

End Component.

(** ** The older [IncrementalRenderer] *)

(** The renderer before provisional blocks: the class has no
    [lastTempBlockId] (the field of the state record is carried along
    untouched), [appendBlocks] and the loop of [renderPendingBlocks] do
    not look for blocks in the reserved namespace, and the delay is not
    capped. [scheduleRender], [renderBlock], [updateBlock] and [clear] are
    those of [Renderer]. *)
Module Renderer0.
Import JS Parser Renderer.

(** [appendBlocks] *)
Definition appendBlocks (blocks : list Block) (s : State) : State :=
  scheduleRender
    (mkState (container s) (renderedBlocks s) (rafId s)
             (pendingBlocks s ++ blocks) (isRendering s)
             (lastTempBlockId s) (timers s) (nextNode s) (nextHandle s)).

(** One iteration of [for (const block of chunk)]. *)
Definition renderOne (p : Pass) (block : Block) : Pass :=
  let element := renderBlock (p_next p) block in
  mkPass (p_container p) (p_fragment p ++ [element])
         (<[id block := node element]> (p_rendered p))
         (p_lastTemp p) (S (p_next p)).

(** [renderTime > 16 ? debounceMs : 0] *)
Definition nextDelay (cfg : Config) (renderTime : Q) : Q :=
  if Qlt_le_dec 16 renderTime then debounceMs cfg else 0%Q.

(** [renderPendingBlocks] *)
Definition renderPendingBlocks (cfg : Config) (renderTime : Q) (s : State)
  : State :=
  if isRendering s || negb (nonEmpty (pendingBlocks s)) then s
  else
    let chunk := take (chunkSize cfg) (pendingBlocks s) in
    let pending := drop (chunkSize cfg) (pendingBlocks s) in
    let p := fold_left renderOne chunk
               (mkPass (container s) [] (renderedBlocks s)
                       (lastTempBlockId s) (nextNode s)) in
    mkState (p_container p ++ p_fragment p) (p_rendered p) (rafId s)
            pending false (p_lastTemp p)
            (if nonEmpty pending
             then timers s ++ [nextDelay cfg renderTime]
             else timers s)
            (p_next p) (nextHandle s).

(** The animation-frame callback installed by [scheduleRender]. *)
Definition onFrame (cfg : Config) (renderTime : Q) (s : State) : State :=
  renderPendingBlocks cfg renderTime
    (mkState (container s) (renderedBlocks s) None (pendingBlocks s)
             (isRendering s) (lastTempBlockId s) (timers s) (nextNode s)
             (nextHandle s)).

End Renderer0.

(** ** Concrete collaborators for examples *)

Module Fixtures.
Import JS Parser.

(** A converter that returns the text as its markup. *)
Definition echo (content : jsstring) : outcome jsstring := Returned content.

(** A converter that rejects every text. *)
Definition failing (content : jsstring) : outcome jsstring :=
  Thrown (str "conversion failed").

(** A converter that rejects the text [bad] only. *)
Definition rejecting (bad : jsstring) (content : jsstring)
  : outcome jsstring :=
  if bool_decide (content = bad) then Thrown (str "conversion failed")
  else Returned content.

(** A highlighter that knows every language name and fails on all. *)
Definition anyLanguage (lang : jsstring) : bool := true.
Definition brokenHighlight (code lang : jsstring) : outcome jsstring :=
  Thrown (str "highlight failed").

(** A sanitizer that changes nothing. *)
Definition keep (markup : jsstring) : jsstring := markup.

(** The same collaborators as the worker's handler calls them: a
    converter of the page, a sanitizer that changes nothing, and the call
    of a sanitizer that is not there. *)
Definition inWorker (marked_parse : jsstring -> outcome jsstring)
    (content : jsstring) : Worker.attempt jsstring :=
  Worker.ofOutcome (marked_parse content).

Definition keeps (markup : jsstring) : Worker.attempt jsstring :=
  Worker.Done markup.

Definition noSanitizer (markup : jsstring) : Worker.attempt jsstring :=
  Worker.Raise (Worker.ErrorObject (str "sanitize is not a function")).

(** A clock that stands still. *)
Definition noon (i : nat) : N := 0.

(** A block to send to the conversion service. *)
Definition entry (content : jsstring) : Block :=
  mkBlock [] PARAGRAPH content [] 0 0 None None.

Definition defaults : Renderer.Config := Renderer.mkConfig 10 16.

(** Two paragraphs, [a] and [b], with a blank line between them; three
    paragraphs. *)
Definition twoParagraphs : jsstring := str "a" ++ [NL; NL] ++ str "b".
Definition threeParagraphs : jsstring :=
  str "a" ++ [NL; NL] ++ str "b" ++ [NL; NL] ++ str "c".

(** The second watcher of the component, registered by [onMounted] when
    the component is mounted with content and run on the same change of
    [content] as the first, here a change to [twoParagraphs]:
    [append(newContent)], then [finish()]. Its [append] begins while the
    first watcher awaits the conversion of its first span, and cuts the
    span "ba" from the buffer it finds; the continuation of that [append]
    and its [finish()] run after the continuation of the first watcher's
    [append]. *)
Definition secondWatcher (n : nat) (s : StreamA.State) : StreamA.State :=
  match n with
  | 0%nat => fst (StreamA.appendBegin twoParagraphs s)
  | 1%nat =>
      match parseBlocks echo keep noon [str "ba"] with
      | Returned parsedBlocks =>
          match StreamA.finish echo keep noon
                  (StreamA.deliver parsedBlocks s) with
          | Returned s' => s'
          | Thrown _ => s
          end
      | Thrown _ => s
      end
  | _ => s
  end.

(** A paragraph, a blank line, an opening fence and a line. *)
Definition openFence : jsstring :=
  str "a" ++ [NL; NL] ++ str "```" ++ [NL] ++ str "b".

(** A complete fenced code block: opening fence, one line, closing
    fence. *)
Definition fenced : jsstring :=
  join_nl [str "```js"; str "code"; str "```"].

End Fixtures.

(** ** Vocabulary of the statements *)

Module Spec.
Import JS Parser.

(** [erase_ws out inp]: [out] is [inp] with some white-space characters
    deleted, and nothing else changed. *)
Inductive erase_ws : jsstring -> jsstring -> Prop :=
| erase_nil : erase_ws [] []
| erase_keep c out inp : erase_ws out inp -> erase_ws (c :: out) (c :: inp)
| erase_drop c out inp :
    isWhiteSpace c = true -> erase_ws out inp -> erase_ws out (c :: inp).

(** The characters of [s] that are not white space, in order. *)
Definition visible (s : jsstring) : jsstring :=
  List.filter (fun c => negb (isWhiteSpace c)) s.

(** A white-space-only string: [s.trim()] is empty. *)
Definition blank (s : jsstring) : Prop := forallb isWhiteSpace s = true.

(** The text of a list of blocks: their [content], concatenated. *)
Definition textOf (bs : list Block) : jsstring := concat (map content bs).

(** [segmented bs s]: the blocks [bs] lie in [s] in order, without
    overlap, and everything of [s] outside them is white space. *)
Inductive segmented : list jsstring -> jsstring -> Prop :=
| seg_end w : blank w -> segmented [] w
| seg_block w b bs s :
    blank w -> segmented bs s -> segmented (b :: bs) (w ++ b ++ s).

(** The shape of the array a capturing split returns: each piece with the
    captured character that ended it, then the piece after the last
    match. *)
Definition interleave (pairs : list (jsstring * N)) (lastPiece : jsstring)
  : list jsstring :=
  flat_map (fun pc => [fst pc; [snd pc]]) pairs ++ [lastPiece].

(** A fence line: [line.trim().startsWith('```')]. *)
Definition isFence (line : jsstring) : Prop :=
  startsWith FENCE (trim line) = true.

(** A line holds no line break. *)
Definition oneLine (line : jsstring) : Prop := ~ In NL line.

(** The error of the first of [spans] on which the converter fails, if
    it fails on any. *)
Fixpoint firstFailure (marked_parse : jsstring -> outcome jsstring)
    (spans : list jsstring) : option (list N) :=
  match spans with
  | [] => None
  | c :: rest =>
      match marked_parse c with
      | Thrown e => Some e
      | Returned _ => firstFailure marked_parse rest
      end
  end.



(** *** Invariants used in the proofs *)

(** Loop invariant of [splitIntoBlocks] after the lines [done]: the text
    read so far is the blocks pushed, laid out in order between white
    space, followed by the lines of the block being collected. *)
Definition collecting (B cur done : list jsstring) : Prop :=
  exists s0,
    segmented B s0
    /\ join_nl done = s0 ++ join_nl cur
    /\ (cur <> [] -> done <> []).

Definition split_inv (st : SplitState) (done : list jsstring) : Prop :=
  collecting (blocks st) (currentBlock st) done.

(** What one extraction step does to the buffer: the spans it returns and
    the buffer it leaves are the old buffer with white space deleted, the
    new buffer is a suffix of the old one, and at most one span comes
    out. *)
Definition extraction_ok (b : jsstring) (r : list jsstring * jsstring)
  : Prop :=
  erase_ws (concat (fst r) ++ snd r) b
  /\ snd r `suffix_of` b
  /\ (length (fst r) <= 1)%nat.

(** Everything appended is in the blocks produced or in the buffer, up
    to deleted white space. *)
Definition accounted (s : StreamA.State) (inp : jsstring) : Prop :=
  erase_ws (textOf (StreamA.processedBlocks s) ++ StreamA.buffer s) inp.

(** The same for the second variant. *)
Definition accountedB (s : StreamB.State) (inp : jsstring) : Prop :=
  erase_ws (textOf (StreamB.processedBlocks s) ++ StreamB.buffer s) inp.

(** *** The renderer as a state machine *)

(** What can happen to a renderer: a public call, or a callback the host
    runs (the animation frame, a timeout). A frame callback runs only
    while one is pending. *)
Inductive Event : Type :=
| AppendBlocks (blocks : list Block)
| Frame (renderTime : Q)
| Timeout (k : nat)
| UpdateBlock (blockId newHtml : jsstring)
| Clear.

Definition fire (cfg : Renderer.Config) (s : Renderer.State) (ev : Event)
  : Renderer.State :=
  match ev with
  | AppendBlocks blocks => Renderer.appendBlocks blocks s
  | Frame renderTime =>
      match Renderer.rafId s with
      | Some _ => Renderer.onFrame cfg renderTime s
      | None => s
      end
  | Timeout k => Renderer.onTimeout k s
  | UpdateBlock blockId newHtml => Renderer.updateBlock blockId newHtml s
  | Clear => Renderer.clear s
  end.

(** The renderer after a history of events. *)
Definition exec (cfg : Renderer.Config) (evs : list Event)
  : Renderer.State :=
  fold_left (fire cfg) evs Renderer.init.

(** A provisional element: its block id is in the reserved namespace. *)
Definition provisional (e : Renderer.Element) : bool :=
  Renderer.isTemp (Renderer.blockId e).

Definition provisionalCount (l : list Renderer.Element) : nat :=
  length (List.filter provisional l).

(** No provisional element among [elems]. *)
Definition no_provisional (elems : list Renderer.Element) : Prop :=
  forall e, In e elems -> provisional e = false.

(** The attached elements [elems] agree with the bookkeeping: a
    provisional element is the one the renderer remembers ([lastTemp]) and
    can find ([rendered]); DOM objects are distinct and older than
    [next]. *)
Definition dom_ok (elems : list Renderer.Element) (rendered : gmap (list N) nat)
    (lastTemp : option jsstring) (next : nat) : Prop :=
  (forall e, In e elems -> provisional e = true ->
     lastTemp = Some (Renderer.blockId e)
     /\ rendered !! Renderer.blockId e = Some (Renderer.node e))
  /\ NoDup (map Renderer.node elems)
  /\ Forall (fun e => (Renderer.node e < next)%nat) elems.

Definition renderer_ok (s : Renderer.State) : Prop :=
  dom_ok (Renderer.container s) (Renderer.renderedBlocks s)
         (Renderer.lastTempBlockId s) (Renderer.nextNode s).

Definition pass_ok (p : Renderer.Pass) : Prop :=
  dom_ok (Renderer.p_container p ++ Renderer.p_fragment p)
         (Renderer.p_rendered p) (Renderer.p_lastTemp p) (Renderer.p_next p).

(** The elements of a batch, made in order from the DOM object [n] on. *)
Fixpoint renderBatch (n : nat) (chunk : list Block) : list Renderer.Element :=
  match chunk with
  | [] => []
  | block :: rest => Renderer.renderBlock n block :: renderBatch (S n) rest
  end.

(** No block of the batch is provisional. *)
Definition allFinal (chunk : list Block) : Prop :=
  forallb (fun b => negb (Renderer.isTemp (id b))) chunk = true.


(** [after] is [before] with some elements detached and new DOM objects
    (not older than [next]) attached at the end: nothing that stays is
    changed. *)
Definition replaced_wholesale (before after : list Renderer.Element)
    (next : nat) : Prop :=
  exists kept added,
    after = kept ++ added
    /\ kept `sublist_of` before
    /\ Forall (fun e => (next <= Renderer.node e)%nat) added.

End Spec.

(** ** Vocabulary of the further properties *)

Module Laws.
Import JS Parser.

(** The five cases of the loop body of [splitIntoBlocks], in the order the
    code tests them. *)
Inductive LineKind : Type :=
| FenceLine | TableLine | BlankLine | SingleLine | TextLine.

#[global] Instance LineKind_eq_dec : EqDecision LineKind.
Proof. solve_decision. Defined.

Definition lineKind (line : jsstring) : LineKind :=
  let trimmed := trim line in
  if startsWith FENCE trimmed then FenceLine
  else if isTableLine trimmed then TableLine
  else if negb (nonEmpty trimmed) then BlankLine
  else if startsWith [HASH] trimmed || isHorizontalRule trimmed
  then SingleLine
  else TextLine.

(** The case analysis of [splitLine] on [l]. *)
Ltac splitLine_cases l :=
  unfold splitLine, lineKind in *;
  destruct (startsWith FENCE (trim l)) eqn:?; try discriminate;
  destruct (isTableLine (trim l)) eqn:?; try discriminate;
  destruct (nonEmpty (trim l)) eqn:?; cbn [negb] in *; try discriminate;
  destruct (startsWith [HASH] (trim l) || isHorizontalRule (trim l)) eqn:?;
  try discriminate.

(** The lines of a block that [splitIntoBlocks] pushes: a fenced block
    (closed or not), a table, a heading or rule on its own, or a run of
    text lines. *)
Inductive blockLines : list jsstring -> Prop :=
| lines_code opening body closing :
    lineKind opening = FenceLine ->
    Forall (fun l => lineKind l <> FenceLine) body ->
    Forall (fun l => lineKind l = FenceLine) closing ->
    (length closing <= 1)%nat ->
    blockLines (opening :: body ++ closing)
| lines_table l ls :
    Forall (fun l => lineKind l = TableLine) (l :: ls) ->
    blockLines (l :: ls)
| lines_single l : lineKind l = SingleLine -> blockLines [l]
| lines_text l ls :
    Forall (fun l => lineKind l = TextLine) (l :: ls) ->
    blockLines (l :: ls).

Definition wellFormed (b : jsstring) : Prop :=
  exists lines,
    b = join_nl lines /\ Forall Spec.oneLine lines /\ blockLines lines.

(** [if (inTable) { blocks.push(currentBlock.join('\n')); currentBlock = [];
    inTable = false }]: what the loop does first on a line that is neither
    fence nor table line. *)
Definition leaveTable (st : SplitState) : SplitState :=
  if inTable st
  then mkSplit (blocks st ++ [join_nl (currentBlock st)]) []
               (inCodeBlock st) false
  else st.

(** Loop invariant of [splitIntoBlocks] for the shape of the blocks. *)
Definition shape_inv (st : SplitState) : Prop :=
  Forall (fun b => b = [] \/ wellFormed b) (blocks st)
  /\ Forall Spec.oneLine (currentBlock st)
  /\ (if inCodeBlock st
      then exists opening body,
             currentBlock st = opening :: body
             /\ lineKind opening = FenceLine
             /\ Forall (fun l => lineKind l <> FenceLine) body
      else if inTable st
      then Forall (fun l => lineKind l = TableLine) (currentBlock st)
      else Forall (fun l => lineKind l = TextLine) (currentBlock st)).

(** The fence test of [isBlockComplete] passes on [b]: it does not start
    with a fence, or it holds two fence marks. *)
Definition fence_ok (b : jsstring) : Prop :=
  startsWith FENCE (trim b) = false
  \/ (2 <= StreamB.countFences 0 (trim b))%nat.

(** Loop invariant of [splitIntoBlocks]: the blocks pushed so far pass
    the fence test. *)
Definition fence_inv (st : SplitState) : Prop :=
  Forall (fun b => b = [] \/ fence_ok b) (blocks st).

(** A text that the first variant never cuts: no line break, and no
    sentence end followed by white space. *)
Fixpoint unbroken (s : jsstring) : bool :=
  match s with
  | [] => true
  | c :: t =>
      negb (c =? NL)
      && negb (isSentenceEnd c
               && match t with d :: _ => isWhiteSpace d | [] => false end)
      && unbroken t
  end.

(** *** The renderer's registry *)

(** The rendered-block map and the attached elements agree: an entry
    points to an attached element that carries its id, and the id of an
    attached element has an entry. *)
Definition registered (elems : list Renderer.Element)
    (rendered : gmap (list N) nat) : Prop :=
  (forall k n, rendered !! k = Some n ->
     exists e, In e elems /\ Renderer.node e = n /\ Renderer.blockId e = k)
  /\ (forall e, In e elems -> is_Some (rendered !! Renderer.blockId e)).

(** [dom_ok], the registry, and: the remembered id is a provisional
    one. *)
Definition book_ok (elems : list Renderer.Element)
    (rendered : gmap (list N) nat) (lastTemp : option jsstring) (next : nat)
  : Prop :=
  Spec.dom_ok elems rendered lastTemp next
  /\ registered elems rendered
  /\ (forall t, lastTemp = Some t -> Renderer.isTemp t = true).

Definition renderer_book (s : Renderer.State) : Prop :=
  book_ok (Renderer.container s) (Renderer.renderedBlocks s)
          (Renderer.lastTempBlockId s) (Renderer.nextNode s).

Definition pass_book (p : Renderer.Pass) : Prop :=
  book_ok (Renderer.p_container p ++ Renderer.p_fragment p)
          (Renderer.p_rendered p) (Renderer.p_lastTemp p) (Renderer.p_next p).

(** *** Histories of the renderer *)

(** A render is on its way whenever blocks wait: a frame is requested
    or a timeout is pending. *)
Definition on_its_way (s : Renderer.State) : Prop :=
  Renderer.pendingBlocks s <> [] ->
  is_Some (Renderer.rafId s) \/ Renderer.timers s <> [].

(** A callback the host runs: the animation frame, or a timeout. *)
Definition callback (c : Q + nat) : Spec.Event :=
  match c with
  | inl renderTime => Spec.Frame renderTime
  | inr k => Spec.Timeout k
  end.

(** An event that neither clears the renderer nor brings a provisional
    block. *)
Definition finalEvent (ev : Spec.Event) : bool :=
  match ev with
  | Spec.AppendBlocks blocks =>
      forallb (fun b => negb (Renderer.isTemp (id b))) blocks
  | Spec.Clear => false
  | _ => true
  end.

(** The blocks given to [appendBlocks] in a history, in order. *)
Definition appendedBlocks (evs : list Spec.Event) : list Block :=
  flat_map (fun ev => match ev with
                      | Spec.AppendBlocks blocks => blocks
                      | _ => []
                      end) evs.

(** The state of a renderer that has seen no provisional block. *)
Definition plain (s : Renderer.State) : Prop :=
  Renderer.isRendering s = false
  /\ Renderer.lastTempBlockId s = None
  /\ Spec.allFinal (Renderer.pendingBlocks s).

(** The ids of the elements attached, then those of the blocks that
    wait. *)
Definition idsOf (s : Renderer.State) : list jsstring :=
  map Renderer.blockId (Renderer.container s)
  ++ map id (Renderer.pendingBlocks s).

(** *** Calls and callbacks interleaved *)

(** What happens to a processor and its renderer: a call of the producer,
    awaited, or a callback the host runs between two calls. *)
Inductive Tick : Type :=
| Do (c : Call)
| Host (cb : Q + nat).

(** The calls among the ticks. *)
Definition callsOf (ticks : list Tick) : list Call :=
  flat_map (fun t => match t with Do c => [c] | Host _ => [] end) ticks.

Section Play.

Variable marked_parse : jsstring -> outcome jsstring.
Variable sanitize : jsstring -> jsstring.
Variable cfg : Renderer.Config.

Definition tickA (t : Tick) (s : StreamA.State) : outcome StreamA.State :=
  match t with
  | Do c => StreamA.call marked_parse sanitize c s
  | Host cb =>
      Returned (StreamA.mkState (StreamA.buffer s)
                  (StreamA.processedBlocks s)
                  (Spec.fire cfg (StreamA.renderer s) (callback cb)))
  end.

Definition tickB (t : Tick) (s : StreamB.State) : outcome StreamB.State :=
  match t with
  | Do c => StreamB.call marked_parse sanitize c s
  | Host cb =>
      Returned (StreamB.mkState (StreamB.buffer s)
                  (StreamB.lastProcessedIndex s)
                  (StreamB.processedBlocks s)
                  (Spec.fire cfg (StreamB.renderer s) (callback cb)))
  end.

Fixpoint playA (ticks : list Tick) (s : StreamA.State)
  : outcome StreamA.State :=
  match ticks with
  | [] => Returned s
  | t :: rest => do s1 <- tickA t s; playA rest s1
  end.

Fixpoint playB (ticks : list Tick) (s : StreamB.State)
  : outcome StreamB.State :=
  match ticks with
  | [] => Returned s
  | t :: rest => do s1 <- tickB t s; playB rest s1
  end.

(** A fresh processor of variant [v] after the [ticks]. *)
Definition play (v : Stream.Variant) (ticks : list Tick)
  : outcome Stream.Snapshot :=
  match v with
  | Stream.SentenceBoundary =>
      do s <- playA ticks StreamA.init;
      Returned (Stream.mkSnapshot (StreamA.processedBlocks s)
                  (StreamA.buffer s) (StreamA.renderer s))
  | Stream.LastBlockComplete =>
      do s <- playB ticks StreamB.init;
      Returned (Stream.mkSnapshot (StreamB.processedBlocks s)
                  (StreamB.buffer s) (StreamB.renderer s))
  end.

End Play.

(** *** The older renderer *)

(** The older renderer as a state machine, over the same events. *)
Definition fire0 (cfg : Renderer.Config) (s : Renderer.State)
    (ev : Spec.Event) : Renderer.State :=
  match ev with
  | Spec.AppendBlocks blocks => Renderer0.appendBlocks blocks s
  | Spec.Frame renderTime =>
      match Renderer.rafId s with
      | Some _ => Renderer0.onFrame cfg renderTime s
      | None => s
      end
  | Spec.Timeout k => Renderer.onTimeout k s
  | Spec.UpdateBlock blockId newHtml => Renderer.updateBlock blockId newHtml s
  | Spec.Clear => Renderer.clear s
  end.

Definition exec0 (cfg : Renderer.Config) (evs : list Spec.Event)
  : Renderer.State :=
  fold_left (fire0 cfg) evs Renderer.init.

(** An event that brings no provisional block. *)
Definition plainEvent (ev : Spec.Event) : bool :=
  match ev with
  | Spec.AppendBlocks blocks =>
      forallb (fun b => negb (Renderer.isTemp (id b))) blocks
  | _ => true
  end.

(** Two renderer states that differ at most in the delays of their
    pending timeouts, those of the first being those of the second capped
    at 8 ms. *)
Definition same_but_delays (s s0 : Renderer.State) : Prop :=
  Renderer.container s = Renderer.container s0
  /\ Renderer.renderedBlocks s = Renderer.renderedBlocks s0
  /\ Renderer.rafId s = Renderer.rafId s0
  /\ Renderer.pendingBlocks s = Renderer.pendingBlocks s0
  /\ Renderer.isRendering s = Renderer.isRendering s0
  /\ Renderer.lastTempBlockId s = Renderer.lastTempBlockId s0
  /\ Renderer.nextNode s = Renderer.nextNode s0
  /\ Renderer.nextHandle s = Renderer.nextHandle s0
  /\ Forall2 (fun d d0 => d = Qmin d0 8) (Renderer.timers s)
             (Renderer.timers s0).

(** *** Code that runs beside the watcher *)

(** Code that leaves the text of a processor alone: it changes neither
    the buffer nor the processed blocks, as the frames and timeouts of
    the renderer do. *)
Definition rendersOnlyA (f : StreamA.State -> StreamA.State) : Prop :=
  forall s,
    StreamA.buffer (f s) = StreamA.buffer s
    /\ StreamA.processedBlocks (f s) = StreamA.processedBlocks s.

Definition rendersOnlyB (f : StreamB.State -> StreamB.State) : Prop :=
  forall s,
    StreamB.buffer (f s) = StreamB.buffer s
    /\ StreamB.processedBlocks (f s) = StreamB.processedBlocks s.

(** *** The wrapper of the worker *)

(** No promise is settled twice; a request that is settled was made and
    no longer waits; a request that waits was made. *)
Definition client_ok (s : WorkerParser.State) : Prop :=
  NoDup (map fst (WorkerParser.settled s))
  /\ (forall id, id ∈ WorkerParser.pendingRequests s ->
        (id < WorkerParser.requestId s)%nat)
  /\ (forall id, In id (map fst (WorkerParser.settled s)) ->
        (id < WorkerParser.requestId s)%nat
        /\ id ∉ WorkerParser.pendingRequests s).

(** The renderer holds the blocks produced, attached or waiting, in
    order, and no provisional element. *)
Definition in_step (produced : list Block) (r : Renderer.State) : Prop :=
  plain r
  /\ idsOf r = map id produced
  /\ Spec.no_provisional (Renderer.container r).

End Laws.

(** ** Properties of the string primitives *)

Module JSFacts.
Import JS Spec.

#[local] Hint Constructors erase_ws : core.

Lemma erase_refl s : erase_ws s s.
Proof. induction s; auto. Qed.

Lemma erase_blank_l w out inp :
  blank w -> erase_ws out inp -> erase_ws out (w ++ inp).
Proof.
  unfold blank. induction w as [|c w IH]; simpl; [auto|].
  intros H%andb_prop Hr. destruct H. auto.
Qed.

Lemma erase_app o1 i1 o2 i2 :
  erase_ws o1 i1 -> erase_ws o2 i2 -> erase_ws (o1 ++ o2) (i1 ++ i2).
Proof. induction 1; simpl; auto. Qed.

Lemma erase_blank_r w out inp :
  blank w -> erase_ws out inp -> erase_ws out (inp ++ w).
Proof.
  intros Hw H. rewrite <- (app_nil_r out).
  apply erase_app; [done|]. rewrite <- (app_nil_r w).
  apply erase_blank_l; auto.
Qed.

Lemma erase_trans a b c : erase_ws a b -> erase_ws b c -> erase_ws a c.
Proof.
  intros Hab Hbc. revert a Hab.
  induction Hbc; intros a Hab; auto.
  inversion Hab; subst; auto.
Qed.

Lemma erase_sublist out inp : erase_ws out inp -> out `sublist_of` inp.
Proof.
  induction 1; [constructor| by apply sublist_skip | by apply sublist_cons].
Qed.

Lemma erase_visible out inp : erase_ws out inp -> visible out = visible inp.
Proof.
  unfold visible. induction 1; simpl; [done| |].
  - by rewrite IHerase_ws.
  - by rewrite H.
Qed.

Lemma erase_length out inp :
  erase_ws out inp -> (length out <= length inp)%nat.
Proof. intros H%erase_sublist. by apply sublist_length. Qed.

Lemma blank_app a b : blank a -> blank b -> blank (a ++ b).
Proof. unfold blank. rewrite forallb_app. by intros -> ->. Qed.

Lemma blank_visible w : blank w -> visible w = [].
Proof.
  unfold blank, visible. induction w as [|c w IH]; simpl; [done|].
  intros [Hc Hw]%andb_prop. rewrite Hc. simpl. auto.
Qed.

(** *** [trim] *)

Lemma trimStart_blank s : trimStart s = [] -> blank s.
Proof.
  unfold blank. induction s as [|c s IH]; simpl; [done|].
  destruct (isWhiteSpace c); [auto | done].
Qed.

Lemma blank_trimStart s : blank s -> trimStart s = [].
Proof.
  unfold blank. induction s as [|c s IH]; simpl; [done|].
  intros [-> Hs]%andb_prop. auto.
Qed.

Lemma blank_rev s : blank s -> blank (rev s).
Proof.
  unfold blank. rewrite !forallb_forall. intros H x Hx. apply H.
  by apply in_rev.
Qed.

Lemma trimStart_suffix s : trimStart s `suffix_of` s.
Proof.
  induction s as [|c s IH]; simpl; [done|].
  destruct (isWhiteSpace c); [by apply suffix_cons_r | done].
Qed.

Lemma trim_blank s : trim s = [] <-> blank s.
Proof.
  unfold trim, trimEnd. split.
  - intros H. assert (Hr : trimStart (rev (trimStart s)) = []).
    { apply (f_equal (@rev N)) in H. rewrite rev_involutive in H. done. }
    apply trimStart_blank, blank_rev in Hr. rewrite rev_involutive in Hr.
    destruct (trimStart_suffix s) as [k Hk].
    assert (Hs : forallb isWhiteSpace s = true -> blank s) by done.
    clear H. revert Hr. clear. revert s.
    induction s as [|c s IH]; simpl; [done|].
    destruct (isWhiteSpace c) eqn:Hc.
    + intros Hr. unfold blank. simpl. rewrite Hc. by apply IH.
    + unfold blank. simpl. by rewrite Hc.
  - intros H. rewrite (blank_trimStart s H). done.
Qed.

Lemma nonEmpty_false {A} (l : list A) : Parser.nonEmpty l = false -> l = [].
Proof. by destruct l. Qed.

Lemma notBlank_false s : Parser.notBlank s = false <-> blank s.
Proof.
  unfold Parser.notBlank. rewrite <- trim_blank.
  destruct (trim s); simpl; split; done.
Qed.

(** *** [split('\n')] and [join('\n')] *)

Lemma split_nl_nonempty s : split_nl s <> [].
Proof.
  destruct s as [|c s]; simpl; [done|].
  destruct (c =? NL); [done|]. by destruct (split_nl s).
Qed.

Lemma join_nl_cons x l :
  l <> [] -> join_nl (x :: l) = x ++ [NL] ++ join_nl l.
Proof. by destruct l. Qed.

Lemma join_split_nl s : join_nl (split_nl s) = s.
Proof.
  induction s as [|c s IH]; simpl; [done|].
  destruct (c =? NL) eqn:Hc.
  - apply N.eqb_eq in Hc. subst c.
    rewrite join_nl_cons by apply split_nl_nonempty. by rewrite IH.
  - pose proof (split_nl_nonempty s) as Hne.
    destruct (split_nl s) as [|l ls]; [done|].
    destruct ls as [|l' ls].
    + unfold join_nl in *. simpl in *. congruence.
    + rewrite join_nl_cons by done. rewrite join_nl_cons in IH by done.
      simpl. by rewrite <- IH.
Qed.

Lemma join_nl_nil : join_nl [] = [].
Proof. reflexivity. Qed.

Lemma join_nl_one x : join_nl [x] = x.
Proof. reflexivity. Qed.

Lemma join_nl_app a b :
  a <> [] -> b <> [] -> join_nl (a ++ b) = join_nl a ++ [NL] ++ join_nl b.
Proof.
  induction a as [|x a IH]; [done|]. intros _ Hb.
  destruct a as [|y a].
  - simpl app at 1. rewrite join_nl_cons by done. reflexivity.
  - change ((x :: y :: a) ++ b) with (x :: ((y :: a) ++ b)).
    rewrite join_nl_cons by done. rewrite IH by done.
    rewrite (join_nl_cons x (y :: a)) by done. by rewrite <- !app_assoc.
Qed.

Lemma join_nl_snoc a x :
  a <> [] -> join_nl (a ++ [x]) = join_nl a ++ [NL] ++ x.
Proof. intros Ha. by rewrite join_nl_app. Qed.

Lemma join_empty_concat (a : list jsstring) : join [] a = concat a.
Proof.
  induction a as [|x a IH]; [done|].
  destruct a as [|y a]; simpl in *; [by rewrite app_nil_r|].
  by rewrite IH.
Qed.

Lemma isWhiteSpace_NL : isWhiteSpace NL = true.
Proof. reflexivity. Qed.

Lemma blank_NL : blank [NL].
Proof. reflexivity. Qed.

Lemma split_nl_oneLine l : oneLine l -> split_nl l = [l].
Proof.
  unfold oneLine. induction l as [|c l IH]; simpl; [done|]. intros H.
  destruct (c =? NL) eqn:Hc.
  - apply N.eqb_eq in Hc. destruct H. by left.
  - rewrite IH; [done|]. intros Hin. apply H. by right.
Qed.

Lemma split_nl_app_NL l rest :
  oneLine l -> split_nl (l ++ NL :: rest) = l :: split_nl rest.
Proof.
  unfold oneLine. induction l as [|c l IH]; simpl; [done|]. intros H.
  destruct (c =? NL) eqn:Hc.
  - apply N.eqb_eq in Hc. destruct H. by left.
  - rewrite IH; [done|]. intros Hin. apply H. by right.
Qed.

Lemma split_join_nl lines :
  lines <> [] -> Forall oneLine lines -> split_nl (join_nl lines) = lines.
Proof.
  induction lines as [|l lines IH]; [done|]. intros _ Hall.
  apply Forall_cons in Hall as [Hl Hall].
  destruct lines as [|l' lines].
  - rewrite join_nl_one. by apply split_nl_oneLine.
  - rewrite join_nl_cons by done. simpl app.
    rewrite split_nl_app_NL by done. by rewrite IH.
Qed.

Lemma trimStart_In c s : In c (trimStart s) -> In c s.
Proof.
  destruct (trimStart_suffix s) as [k Hk]. rewrite Hk at 2.
  intros H. apply in_or_app. by right.
Qed.

Lemma trim_In c s : In c (trim s) -> In c s.
Proof.
  unfold trim, trimEnd. intros H%in_rev%trimStart_In%in_rev.
  by apply trimStart_In.
Qed.

Lemma visible_char_notBlank c s :
  In c s -> isWhiteSpace c = false -> Parser.notBlank s = true.
Proof.
  intros Hin Hc. destruct (Parser.notBlank s) eqn:Hn; [done|].
  apply notBlank_false in Hn. unfold blank in Hn.
  rewrite forallb_forall in Hn. rewrite (Hn c Hin) in Hc. done.
Qed.

(** *** [indexOf] *)

Lemma startsWith_spec p s : startsWith p s = true <-> p `prefix_of` s.
Proof.
  revert s. induction p as [|a p IH]; intros s; simpl.
  - split; [intros _; apply prefix_nil | done].
  - destruct s as [|b s].
    + split; [done|]. intros [k Hk]. done.
    + rewrite andb_true_iff, N.eqb_eq, IH. split.
      * intros [-> H]. by apply prefix_cons.
      * intros [k Hk]. simplify_eq/=. split; [done|]. by exists k.
Qed.

Lemma indexOf_Some p s i :
  indexOf p s = Some i ->
  s = take i s ++ p ++ drop (i + length p) s.
Proof.
  revert i. induction s as [|c s IH]; intros i; simpl.
  - destruct (startsWith p []) eqn:Hp; [|done].
    intros [= <-]. apply startsWith_spec in Hp. destruct Hp as [k Hk].
    symmetry in Hk. apply app_eq_nil in Hk as [-> ->]. done.
  - destruct (startsWith p (c :: s)) eqn:Hp.
    + intros [= <-]. apply startsWith_spec in Hp. destruct Hp as [k Hk].
      rewrite Hk at 1. simpl. rewrite Hk.
      by rewrite drop_app_length.
    + destruct (indexOf p s) as [j|] eqn:Hj; [|done].
      simpl. intros [= <-]. simpl. f_equal. by apply IH.
Qed.

(** *** The sentence split *)

Lemma split_sentences_from_shape skip cur s :
  (skip = true -> cur = []) ->
  exists pairs lastPiece,
    split_sentences_from skip cur s = interleave pairs lastPiece
    /\ erase_ws (concat (interleave pairs lastPiece)) (rev cur ++ s)
    /\ lastPiece `suffix_of` (rev cur ++ s).
Proof.
  revert skip cur. induction s as [|c t IH]; intros skip cur Hskip; simpl.
  - exists [], (rev cur). rewrite !app_nil_r. simpl. rewrite app_nil_r.
    split; [done|]. split; [apply erase_refl | done].
  - destruct (skip && isWhiteSpace c) eqn:Hsk.
    + apply andb_prop in Hsk as [-> Hc]. rewrite (Hskip eq_refl).
      destruct (IH true [] (fun _ => eq_refl)) as (pairs & lp & -> & He & Hs).
      exists pairs, lp. simpl in *. split; [done|].
      split; [by apply erase_drop | by apply suffix_cons_r].
    + destruct (isSentenceEnd c
                && match t with d :: _ => isWhiteSpace d | [] => false end).
      * destruct (IH true [] (fun _ => eq_refl)) as (pairs & lp & -> & He & Hs).
        exists ((rev cur, c) :: pairs), lp. simpl in *. split; [done|]. split.
        -- apply erase_app; [apply erase_refl|]. by apply erase_keep.
        -- apply suffix_app_r. by apply suffix_cons_r.
      * destruct (IH false (c :: cur)) as (pairs & lp & -> & He & Hs);
          [done|].
        exists pairs, lp. simpl in *. rewrite <- app_assoc in He, Hs.
        done.
Qed.

Lemma split_sentences_shape s :
  exists pairs lastPiece,
    split_sentences s = interleave pairs lastPiece
    /\ erase_ws (concat (interleave pairs lastPiece)) s
    /\ lastPiece `suffix_of` s.
Proof. by apply (split_sentences_from_shape false []). Qed.

Lemma interleave_length pairs lp :
  length (interleave pairs lp) = (2 * length pairs + 1)%nat.
Proof.
  unfold interleave. rewrite length_app. simpl.
  induction pairs as [|pc pairs IH]; simpl in *; lia.
Qed.

Lemma pop_snoc {A} (l : list A) x : pop (l ++ [x]) = (l, Some x).
Proof. unfold pop. by rewrite removelast_last, last_snoc. Qed.

Lemma interleave_snoc pairs p c lp :
  interleave (pairs ++ [(p, c)]) lp
  = ((flat_map (fun pc => [fst pc; [snd pc]]) pairs ++ [p]) ++ [[c]]) ++ [lp].
Proof.
  unfold interleave. rewrite flat_map_app. simpl.
  by rewrite <- !app_assoc.
Qed.

(** *** [lastIndexOf] *)

Lemma lastIndexOf_none p s :
  (forall k, (k <= length s)%nat -> ~ p `prefix_of` drop k s) ->
  lastIndexOf p s = (-1)%Z.
Proof.
  induction s as [|x t IH]; intros H; simpl.
  - destruct (startsWith p []) eqn:Hp; [|done].
    apply startsWith_spec in Hp. by destruct (H 0%nat).
  - rewrite IH.
    + simpl. destruct (startsWith p (x :: t)) eqn:Hp; [|done].
      apply startsWith_spec in Hp. destruct (H 0%nat); [simpl; lia | done].
    + intros k Hk. apply (H (S k)). simpl. lia.
Qed.

Lemma lastIndexOf_last_occurrence pre p post :
  (forall k, (1 <= k)%nat -> ~ p `prefix_of` drop k (p ++ post)) ->
  lastIndexOf p (pre ++ p ++ post) = Z.of_nat (length pre).
Proof.
  intros H. induction pre as [|a pre IH].
  - simpl app. destruct (p ++ post) as [|x t] eqn:Ht.
    + apply app_eq_nil in Ht as [-> ->]. done.
    + simpl. rewrite lastIndexOf_none.
      * simpl. rewrite <- Ht.
        assert (Hp : startsWith p (p ++ post) = true)
          by (apply startsWith_spec; by exists post).
        by rewrite Hp.
      * intros k _. apply (H (S k)). lia.
  - simpl. rewrite IH.
    destruct (0 <=? Z.of_nat (length pre))%Z eqn:Hz; [lia|].
    apply Z.leb_gt in Hz. lia.
Qed.

Lemma last_visible lb :
  ~ blank lb ->
  exists u c v, lb = u ++ c :: v /\ isWhiteSpace c = false /\ blank v.
Proof.
  unfold blank. induction lb as [|x lb IH]; [done|]. intros Hx.
  destruct (forallb isWhiteSpace lb) eqn:Hlb.
  - exists [], x, lb. simpl in Hx. rewrite Hlb, andb_true_r in Hx.
    split; [done|]. split; [by destruct (isWhiteSpace x) | done].
  - destruct IH as (u & c & v & -> & Hc & Hv); [done|].
    by exists (x :: u), c, v.
Qed.

Lemma blank_lookup w i c : blank w -> w !! i = Some c -> isWhiteSpace c = true.
Proof.
  unfold blank. rewrite forallb_forall. intros H Hi. apply H.
  apply list_elem_of_In. by eapply list_elem_of_lookup_2.
Qed.

(** A block that is not blank and is followed by white space only does
    not occur again further right. *)
Lemma no_later_occurrence lb post :
  ~ blank lb -> blank post ->
  forall k, (1 <= k)%nat -> ~ lb `prefix_of` drop k (lb ++ post).
Proof.
  intros (u & c & v & -> & Hc & Hv)%last_visible Hpost k Hk [rest Hrest].
  assert (Hl : drop k ((u ++ c :: v) ++ post) !! length u = Some c).
  { rewrite Hrest, <- !app_assoc. simpl. by rewrite list_lookup_middle. }
  rewrite lookup_drop, <- app_assoc in Hl.
  rewrite lookup_app_r in Hl by lia.
  replace (k + length u - length u)%nat with (S (k - 1)) in Hl by lia.
  simpl in Hl.
  assert (Hw : isWhiteSpace c = true).
  { eapply blank_lookup; [|exact Hl]. by apply blank_app. }
  congruence.
Qed.

End JSFacts.

(** ** [splitIntoBlocks] keeps the text *)

Module ParserFacts.
Import JS Parser Spec JSFacts.

#[local] Hint Constructors segmented : core.

Lemma blank_nil : blank [].
Proof. reflexivity. Qed.

Lemma segmented_blank_l w bs s :
  blank w -> segmented bs s -> segmented bs (w ++ s).
Proof.
  intros Hw H. inversion H; subst.
  - constructor. by apply blank_app.
  - rewrite app_assoc. constructor; [by apply blank_app | done].
Qed.

Lemma segmented_blank_r w bs s :
  blank w -> segmented bs s -> segmented bs (s ++ w).
Proof.
  intros Hw. induction 1.
  - constructor. by apply blank_app.
  - rewrite <- !app_assoc. by constructor.
Qed.

Lemma segmented_app bs1 s1 bs2 s2 :
  segmented bs1 s1 -> segmented bs2 s2 ->
  segmented (bs1 ++ bs2) (s1 ++ s2).
Proof.
  induction 1; intros H2; simpl.
  - by apply segmented_blank_l.
  - rewrite <- !app_assoc. constructor; auto.
Qed.

Lemma segmented_one x : segmented [x] x.
Proof.
  rewrite <- (app_nil_r x) at 2.
  apply (seg_block [] x [] []); [done|]. by constructor.
Qed.

Lemma segmented_snoc bs s x :
  segmented bs s -> segmented (bs ++ [x]) (s ++ x).
Proof. intros H. apply segmented_app; [done | apply segmented_one]. Qed.

Lemma segmented_erase bs s : segmented bs s -> erase_ws (concat bs) s.
Proof.
  induction 1; simpl.
  - rewrite <- (app_nil_r w). apply erase_blank_l; [done | constructor].
  - apply erase_blank_l; [done|]. apply erase_app; [apply erase_refl|done].
Qed.

Lemma segmented_filter bs s :
  segmented bs s -> segmented (List.filter notBlank bs) s.
Proof.
  induction 1; simpl; [by constructor|].
  destruct (notBlank b) eqn:Hb; [by constructor|].
  apply notBlank_false in Hb.
  apply segmented_blank_l; [done|]. by apply segmented_blank_l.
Qed.

Lemma segmented_last bs lb s :
  segmented (bs ++ [lb]) s ->
  exists pre post, s = pre ++ lb ++ post /\ segmented bs pre /\ blank post.
Proof.
  revert s. induction bs as [|b bs IH]; intros s H; inversion H; subst.
  - match goal with H : segmented [] _ |- _ => inversion H; subst end.
    eexists w, _. split; [done|]. split; [by constructor | done].
  - match goal with H : segmented (bs ++ [lb]) _ |- _ =>
      apply IH in H as (pre & post & -> & Hpre & Hpost) end.
    exists (w ++ b ++ pre), post. rewrite <- !app_assoc.
    split; [done|]. split; [by constructor | done].
Qed.

Lemma collecting_add B cur done line :
  collecting B cur done -> collecting B (cur ++ [line]) (done ++ [line]).
Proof.
  intros (s0 & Hs & Hj & Hne).
  assert (Hd : done ++ [line] <> []) by (by destruct done).
  destruct cur as [|c cur].
  - rewrite join_nl_nil, app_nil_r in Hj. unfold collecting.
    change (join_nl ([] ++ [line])) with line.
    destruct done as [|d done].
    + exists s0. split; [done|]. rewrite join_nl_nil in Hj. subst s0.
      done.
    + exists (s0 ++ [NL]). split; [by apply segmented_blank_r|].
      rewrite join_nl_snoc by done. rewrite Hj, <- app_assoc.
      done.
  - exists s0. split; [done|].
    rewrite !join_nl_snoc by auto. rewrite Hj, <- app_assoc.
    done.
Qed.

Lemma collecting_flush B cur done :
  collecting B cur done -> collecting (B ++ [join_nl cur]) [] done.
Proof.
  intros (s0 & Hs & Hj & Hne). exists (s0 ++ join_nl cur).
  split; [by apply segmented_snoc|]. split; [|done].
  by rewrite join_nl_nil, app_nil_r.
Qed.

Lemma collecting_skip B done line :
  blank line -> collecting B [] done -> collecting B [] (done ++ [line]).
Proof.
  intros Hb (s0 & Hs & Hj & Hne).
  rewrite join_nl_nil, app_nil_r in Hj.
  exists (join_nl (done ++ [line])). split; [|split; [|done]].
  - destruct done as [|d done].
    + rewrite join_nl_nil in Hj. subst s0.
      change (join_nl ([] ++ [line])) with line.
      by apply (segmented_blank_r line B []).
    + rewrite join_nl_snoc by done.
      rewrite Hj. apply segmented_blank_r; [|done].
      by apply (blank_app [NL]).
  - by rewrite join_nl_nil, app_nil_r.
Qed.

Lemma collecting_block B done line :
  collecting B [] done -> collecting (B ++ [line]) [] (done ++ [line]).
Proof.
  intros H. apply (collecting_add _ _ _ line) in H.
  by apply collecting_flush in H.
Qed.

Lemma flushCurrent_inv st done :
  split_inv st done -> split_inv (flushCurrent st) done.
Proof.
  unfold split_inv, flushCurrent. intros H.
  destruct (nonEmpty (currentBlock st)); [|done].
  by apply collecting_flush.
Qed.

Lemma flushCurrent_empty st : currentBlock (flushCurrent st) = [].
Proof.
  unfold flushCurrent. by destruct (currentBlock st) eqn:Hc; simpl.
Qed.

Lemma splitLine_inv st done line :
  split_inv st done -> split_inv (splitLine st line) (done ++ [line]).
Proof.
  intros H. unfold splitLine.
  destruct (startsWith FENCE (trim line)).
  { destruct (inCodeBlock st).
    - apply (collecting_add _ _ _ line) in H.
      by apply collecting_flush in H.
    - apply flushCurrent_inv in H. by apply collecting_add. }
  destruct (inCodeBlock st); [by apply collecting_add|].
  destruct (isTableLine (trim line)).
  { destruct (inTable st); simpl; apply collecting_add; [done|].
    by apply flushCurrent_inv. }
  set (st1 := if inTable st then _ else st).
  assert (H1 : split_inv st1 done).
  { subst st1. destruct (inTable st); [|done]. by apply collecting_flush. }
  clearbody st1.
  destruct (nonEmpty (trim line)) eqn:Hline; cbn [negb].
  - pose proof (flushCurrent_inv _ _ H1) as H2.
    pose proof (flushCurrent_empty st1) as He.
    destruct (startsWith [HASH] (trim line) || isHorizontalRule (trim line)).
    + unfold split_inv in *. cbn [blocks currentBlock]. rewrite He in *.
      by apply collecting_block.
    + by apply collecting_add.
  - pose proof (flushCurrent_inv _ _ H1) as H2.
    pose proof (flushCurrent_empty st1) as He.
    unfold split_inv in *. rewrite He in *.
    apply collecting_skip; [|done].
    apply trim_blank. by destruct (trim line).
Qed.

Lemma fold_splitLine_inv lines st done :
  split_inv st done ->
  split_inv (fold_left splitLine lines st) (done ++ lines).
Proof.
  revert st done. induction lines as [|l lines IH]; intros st done H; simpl.
  - by rewrite app_nil_r.
  - rewrite (cons_middle l done lines), app_assoc.
    by apply IH, splitLine_inv.
Qed.

(** The blocks [splitIntoBlocks] returns lie in its input in order; what
    it leaves out is white space only: line breaks between blocks, blank
    lines, blank blocks. *)
Lemma splitIntoBlocks_segmented s : segmented (splitIntoBlocks s) s.
Proof.
  unfold splitIntoBlocks. apply segmented_filter.
  assert (H0 : split_inv (mkSplit [] [] false false) []).
  { exists []. split; [by constructor | done]. }
  apply (fold_splitLine_inv (split_nl s)) in H0. simpl in H0.
  apply flushCurrent_inv in H0. destruct H0 as (s0 & Hs & Hj & _).
  rewrite flushCurrent_empty, join_nl_nil, app_nil_r, join_split_nl in Hj.
  by subst s0.
Qed.

Lemma splitIntoBlocks_erase s : erase_ws (concat (splitIntoBlocks s)) s.
Proof. apply segmented_erase, splitIntoBlocks_segmented. Qed.

(** *** A fenced block given to [splitIntoBlocks] *)

Lemma fold_splitLine_in_code body st :
  inCodeBlock st = true ->
  Forall (fun l => ~ isFence l) body ->
  fold_left splitLine body st
  = mkSplit (blocks st) (currentBlock st ++ body) true (inTable st).
Proof.
  revert st. induction body as [|l body IH]; intros st Hin Hall; simpl.
  - rewrite app_nil_r. destruct st. simpl in *. by subst.
  - apply Forall_cons in Hall as [Hl Hall].
    assert (Hstep : splitLine st l
                    = mkSplit (blocks st) (currentBlock st ++ [l]) true
                              (inTable st)).
    { unfold splitLine. unfold isFence in Hl.
      destruct (startsWith FENCE (trim l)); [done|]. by rewrite Hin. }
    rewrite Hstep, IH by done. simpl. by rewrite <- app_assoc.
Qed.

Lemma isFence_notBlank l rest : isFence l -> notBlank (l ++ rest) = true.
Proof.
  unfold isFence. intros H.
  apply (visible_char_notBlank 96); [|done].
  apply in_or_app. left. apply trim_In.
  apply startsWith_spec in H as [k Hk]. rewrite Hk. by left.
Qed.

(** [splitIntoBlocks] keeps a complete fenced block in one block: an
    opening fence line, lines that are not fence lines, a closing fence
    line. *)
Lemma splitIntoBlocks_keeps_fence opening body closing :
  isFence opening -> isFence closing ->
  Forall (fun l => ~ isFence l) body ->
  Forall oneLine (opening :: body ++ [closing]) ->
  splitIntoBlocks (join_nl (opening :: body ++ [closing]))
  = [join_nl (opening :: body ++ [closing])].
Proof.
  intros Ho Hc Hbody Hlines. unfold splitIntoBlocks.
  rewrite split_join_nl by done. simpl fold_left.
  assert (H1 : splitLine (mkSplit [] [] false false) opening
               = mkSplit [] [opening] true false).
  { unfold splitLine. unfold isFence in Ho. by rewrite Ho. }
  rewrite H1, fold_left_app.
  rewrite (fold_splitLine_in_code body); [|reflexivity|exact Hbody].
  simpl. unfold splitLine at 1. unfold isFence in Hc. rewrite Hc. simpl.
  assert (Hnb : notBlank (join_nl (opening :: body ++ [closing])) = true).
  { rewrite join_nl_cons by (by destruct body). by apply isFence_notBlank. }
  by rewrite Hnb.
Qed.

Lemma parseBlocksFrom_content mp sz clock i spans bs :
  parseBlocksFrom mp sz clock i spans = Returned bs ->
  map content bs = spans.
Proof.
  revert i bs. induction spans as [|x spans IH]; intros i bs; simpl.
  - by intros [= <-].
  - unfold parseBlock. destruct (mp x) as [h|e]; simpl; [|done].
    destruct (parseBlocksFrom mp sz clock (S i) spans) as [r|e] eqn:Hr;
      simpl; [|done].
    intros [= <-]. simpl. f_equal. by eapply IH.
Qed.

Lemma parseBlocksFrom_final mp sz clock i spans bs :
  parseBlocksFrom mp sz clock i spans = Returned bs -> allFinal bs.
Proof.
  unfold allFinal. revert i bs.
  induction spans as [|x spans IH]; intros i bs; simpl.
  - by intros [= <-].
  - unfold parseBlock. destruct (mp x) as [h|e]; simpl; [|done].
    destruct (parseBlocksFrom mp sz clock (S i) spans) as [r|e] eqn:Hr;
      simpl; [|done].
    intros [= <-]. simpl. by rewrite (IH _ _ Hr).
Qed.

Lemma parseBlocks_text mp sz clock spans bs :
  parseBlocks mp sz clock spans = Returned bs -> textOf bs = concat spans.
Proof.
  intros H%parseBlocksFrom_content. unfold textOf. by rewrite H.
Qed.

Lemma textOf_app a b : textOf (a ++ b) = textOf a ++ textOf b.
Proof. unfold textOf. by rewrite map_app, concat_app. Qed.

Lemma parseBlocksFrom_thrown mp sz clock i spans msg :
  parseBlocksFrom mp sz clock i spans = Thrown msg ->
  exists c, In c spans /\ mp c = Thrown msg.
Proof.
  revert i. induction spans as [|x spans IH]; intros i; simpl; [done|].
  unfold parseBlock. destruct (mp x) as [h|e] eqn:Hx; simpl.
  - destruct (parseBlocksFrom mp sz clock (S i) spans) as [r|e] eqn:Hr;
      simpl; [done|].
    intros [= <-]. destruct (IH _ Hr) as (c & Hc & Hm). eauto.
  - intros [= <-]. eauto.
Qed.

Lemma parseBlocksFrom_returns mp sz clock i spans :
  (forall c, In c spans -> returns (mp c) = true) ->
  returns (parseBlocksFrom mp sz clock i spans) = true.
Proof.
  revert i. induction spans as [|x spans IH]; intros i H; simpl; [done|].
  unfold parseBlock. pose proof (H x (or_introl eq_refl)) as Hx.
  destruct (mp x) as [h|e]; simpl; [|done].
  specialize (IH (S i) (fun c Hc => H c (or_intror Hc))).
  by destruct (parseBlocksFrom mp sz clock (S i) spans).
Qed.

(** [parseBlocks] stops at the first span on which the converter fails,
    with the converter's error; it returns when there is none. *)
Lemma parseBlocksFrom_firstFailure mp sz clock i spans :
  match firstFailure mp spans with
  | Some e => parseBlocksFrom mp sz clock i spans = Thrown e
  | None => returns (parseBlocksFrom mp sz clock i spans) = true
  end.
Proof.
  revert i. induction spans as [|x spans IH]; intros i; simpl; [done|].
  unfold parseBlock. destruct (mp x) as [h|e]; simpl; [|done].
  specialize (IH (S i)). destruct (firstFailure mp spans) as [e|].
  - by rewrite IH.
  - by destruct (parseBlocksFrom mp sz clock (S i) spans).
Qed.

Lemma parseBlocksFrom_Thrown_iff mp sz clock i spans e :
  parseBlocksFrom mp sz clock i spans = Thrown e
  <-> firstFailure mp spans = Some e.
Proof.
  pose proof (parseBlocksFrom_firstFailure mp sz clock i spans) as H.
  destruct (firstFailure mp spans) as [e'|].
  - rewrite H. split; by intros [= ->].
  - split; [|done]. intros Ht. by rewrite Ht in H.
Qed.

Lemma parseBlocksFrom_returns_iff mp sz clock i spans :
  returns (parseBlocksFrom mp sz clock i spans) = true
  <-> firstFailure mp spans = None.
Proof.
  pose proof (parseBlocksFrom_firstFailure mp sz clock i spans) as H.
  destruct (firstFailure mp spans) as [e'|]; [|done].
  rewrite H. done.
Qed.

Lemma firstFailure_In mp spans c e :
  In c spans -> mp c = Thrown e -> is_Some (firstFailure mp spans).
Proof.
  induction spans as [|x spans IH]; simpl; [done|].
  intros [->|Hin] Hc.
  - rewrite Hc. eauto.
  - destruct (mp x); [by apply IH | eauto].
Qed.

Lemma firstFailure_Some mp spans e :
  firstFailure mp spans = Some e ->
  exists pre c post,
    spans = pre ++ c :: post
    /\ Forall (fun x => returns (mp x) = true) pre
    /\ mp c = Thrown e.
Proof.
  induction spans as [|x spans IH]; simpl; [done|].
  destruct (mp x) as [h|e'] eqn:Hx.
  - intros (pre & c & post & -> & Hpre & Hc)%IH.
    exists (x :: pre), c, post. split; [done|]. split; [|done].
    constructor; [by rewrite Hx | done].
  - intros [= ->]. exists [], x, spans. by repeat split.
Qed.

Lemma firstFailure_None mp spans :
  firstFailure mp spans = None <->
  Forall (fun c => returns (mp c) = true) spans.
Proof.
  induction spans as [|x spans IH]; simpl; [by split; [constructor|]|].
  destruct (mp x) as [h|e] eqn:Hx.
  - rewrite IH. split.
    + intros H. constructor; [by rewrite Hx | done].
    + by intros [_ ?]%Forall_cons.
  - split; [done|]. intros [Hr _]%Forall_cons. by rewrite Hx in Hr.
Qed.

(** A batch that converts gives, for each span in order, the block of
    that span with the sanitized markup of the converter. *)
Lemma parseBlocksFrom_converted mp sz clock i spans bs :
  parseBlocksFrom mp sz clock i spans = Returned bs ->
  Forall2 (fun c b =>
             exists rawHtml,
               mp c = Returned rawHtml
               /\ content b = c /\ html b = sz rawHtml)
          spans bs.
Proof.
  revert i bs. induction spans as [|x spans IH]; intros i bs; simpl.
  - intros [= <-]. constructor.
  - unfold parseBlock. destruct (mp x) as [h|e] eqn:Hx; simpl; [|done].
    destruct (parseBlocksFrom mp sz clock (S i) spans) as [r|e] eqn:Hr;
      simpl; [|done].
    intros [= <-]. constructor; [by exists h | by eapply IH].
Qed.

(** The escaped text holds none of the characters that open or close
    markup or an attribute value. *)
Lemma escapeHtml_safe text c :
  In c (escapeHtml text) -> c <> 60 /\ c <> 62 /\ c <> 34 /\ c <> 39.
Proof.
  unfold escapeHtml. rewrite in_flat_map. intros (x & _ & Hc).
  unfold escapeChar in Hc.
  repeat match type of Hc with
         | In _ (if ?b then _ else _) => destruct b eqn:?
         end;
    simpl in Hc;
    repeat match type of Hc with
           | _ \/ _ => destruct Hc as [<-|Hc]
           | False => destruct Hc
           end;
    try (repeat split; discriminate).
  repeat match goal with H : (_ =? _) = false |- _ =>
           apply N.eqb_neq in H end.
  done.
Qed.

End ParserFacts.

(** ** The segmentation of the first variant *)

Module StreamAFacts.
Import JS Parser Spec JSFacts ParserFacts StreamA.

Lemma findMarker_bound k lines i :
  findMarker k lines = Some i ->
  exists j, i = (k + j)%nat /\ (S j < length lines)%nat.
Proof.
  revert k. induction lines as [|l rest IH]; intros k; simpl; [done|].
  destruct rest as [|l' rest]; [done|].
  destruct (isMarkerLine l).
  - intros [= <-]. exists 0%nat. simpl. split; lia.
  - intros H. apply IH in H as (j & -> & Hj). exists (S j). simpl in *.
    split; lia.
Qed.

Lemma extractMarker_ok b : extraction_ok b (extractMarker b).
Proof.
  unfold extractMarker, extraction_ok.
  destruct (findMarker 0 (split_nl b)) as [i|] eqn:Hi; simpl.
  - apply findMarker_bound in Hi as (j & -> & Hj). simpl in Hj.
    set (lines := split_nl b) in *.
    assert (Ht : take (S j) lines <> []).
    { intros H. assert (Hl : length (take (S j) lines) = 0%nat)
        by (by rewrite H).
      rewrite length_take in Hl. lia. }
    assert (Hd : drop (S j) lines <> []).
    { intros H. assert (Hl : length (drop (S j) lines) = 0%nat)
        by (by rewrite H).
      rewrite length_drop in Hl. lia. }
    assert (Hb : b = join_nl (take (S j) lines) ++ [NL]
                       ++ join_nl (drop (S j) lines)).
    { rewrite <- join_nl_app by done. rewrite take_drop.
      symmetry. apply join_split_nl. }
    rewrite app_nil_r. simpl Nat.add. split; [|split; [|lia]].
    + rewrite Hb at 1. apply erase_app; [apply erase_refl|].
      apply erase_drop; [done | apply erase_refl].
    + exists (join_nl (take (S j) lines) ++ [NL]).
      rewrite <- app_assoc. done.
  - split; [apply erase_refl | split; [done | lia]].
Qed.

Lemma extractSentences_ok b : extraction_ok b (extractSentences b).
Proof.
  unfold extractSentences.
  destruct (split_sentences_shape b) as (pairs & lp & -> & He & Hs).
  rewrite interleave_length.
  destruct (2 <? 2 * length pairs + 1)%nat eqn:Hlen;
    [|apply extractMarker_ok].
  apply Nat.ltb_lt in Hlen.
  destruct pairs as [|pc pairs _] using rev_ind; [simpl in Hlen; lia|].
  destruct pc as [p c]. rewrite interleave_snoc in *.
  rewrite !pop_snoc. simpl.
  unfold extraction_ok. simpl. rewrite app_nil_r.
  split; [|split; [done | lia]].
  rewrite join_empty_concat.
  rewrite !concat_app in He. simpl in He. rewrite !app_nil_r in He.
  rewrite concat_app. simpl. rewrite app_nil_r.
  by rewrite <- !app_assoc in *.
Qed.

Lemma extractCompleteBlocks_ok b :
  extraction_ok b (extractCompleteBlocks b).
Proof.
  unfold extractCompleteBlocks.
  destruct (indexOf [NL; NL] b) as [i|] eqn:Hi; [|apply extractSentences_ok].
  apply indexOf_Some in Hi. simpl in Hi.
  unfold extraction_ok, substring_to, substring_from. simpl.
  split; [|split].
  - set (pre := take i b) in *. set (post := drop (i + 2) b) in *.
    clearbody pre post. subst b.
    assert (Htail : erase_ws post (NL :: NL :: post)).
    { do 2 (apply erase_drop; [done|]). apply erase_refl. }
    destruct (nonEmpty (trim pre)) eqn:Hne; simpl.
    + rewrite app_nil_r. apply erase_app; [apply erase_refl | done].
    + apply erase_blank_l; [|done]. apply trim_blank.
      by destruct (trim pre).
  - apply suffix_drop.
  - destruct (nonEmpty (trim (take i b))); simpl; lia.
Qed.

(** The first variant cuts a fenced block after its opening line: with
    no blank line and no sentence end in the buffer, the marker-line step
    returns the opening fence line alone and leaves the rest. *)
Lemma opening_fence_is_cut opening rest :
  isFence opening ->
  oneLine opening ->
  indexOf [NL; NL] (opening ++ NL :: rest) = None ->
  (length (split_sentences (opening ++ NL :: rest)) <= 2)%nat ->
  extractCompleteBlocks (opening ++ NL :: rest) = ([opening], rest).
Proof.
  intros Hf Hone Hnl Hsent. unfold extractCompleteBlocks. rewrite Hnl.
  unfold extractSentences.
  destruct (2 <? length (split_sentences (opening ++ NL :: rest)))%nat
    eqn:Hlt; [apply Nat.ltb_lt in Hlt; lia|].
  unfold extractMarker. rewrite split_nl_app_NL by done.
  pose proof (split_nl_nonempty rest) as Hne.
  destruct (split_nl rest) as [|l ls] eqn:Hrest; [done|].
  assert (Hm : isMarkerLine opening = true).
  { unfold isMarkerLine. unfold isFence in Hf. rewrite Hf.
    by rewrite orb_true_r. }
  simpl findMarker. rewrite Hm. simpl take. simpl drop.
  by rewrite join_nl_one, <- Hrest, join_split_nl.
Qed.

(** *** Runs of awaited calls *)

Section Runs.

Variable marked_parse : jsstring -> outcome jsstring.
Variable sanitize : jsstring -> jsstring.

Lemma accounted_step pb spans rest buf chunk inp :
  erase_ws (concat spans ++ rest) (buf ++ chunk) ->
  erase_ws (pb ++ buf) inp ->
  erase_ws ((pb ++ concat spans) ++ rest) (inp ++ chunk).
Proof.
  intros He Hi. rewrite <- app_assoc.
  eapply erase_trans; [apply erase_app; [apply erase_refl | exact He]|].
  rewrite app_assoc. apply erase_app; [done | apply erase_refl].
Qed.

Lemma append_accounted clock chunk s s' inp :
  append marked_parse sanitize clock chunk s = Returned s' ->
  accounted s inp -> accounted s' (inp ++ chunk).
Proof.
  unfold append, appendBegin, accounted.
  pose proof (extractCompleteBlocks_ok (buffer s ++ chunk)) as (He & _ & _).
  destruct (extractCompleteBlocks (buffer s ++ chunk)) as [spans rest].
  simpl in He. destruct (nonEmpty spans) eqn:Hne.
  - destruct (parseBlocks _ _ _ _) as [bs|e] eqn:Hp; simpl; [|done].
    intros [= <-] Hi. simpl. apply parseBlocks_text in Hp.
    rewrite textOf_app, Hp. exact (accounted_step _ _ _ _ _ _ He Hi).
  - intros [= <-] Hi. simpl. apply nonEmpty_false in Hne. subst spans.
    pose proof (accounted_step _ [] _ _ _ _ He Hi) as H.
    simpl in H. by rewrite app_nil_r in H.
Qed.

Lemma finish_accounted clock s s' inp :
  finish marked_parse sanitize clock s = Returned s' ->
  accounted s inp -> accounted s' inp /\ blank (buffer s').
Proof.
  unfold finish, accounted.
  destruct (nonEmpty (trim (buffer s))) eqn:Hb.
  - pose proof (splitIntoBlocks_erase (buffer s)) as He.
    assert (He' : erase_ws (concat (splitIntoBlocks (buffer s)) ++ [])
                           (buffer s ++ [])) by (by rewrite !app_nil_r).
    destruct (nonEmpty (splitIntoBlocks (buffer s))) eqn:Hne.
    + destruct (parseBlocks _ _ _ _) as [bs|e] eqn:Hp; simpl; [|done].
      intros [= <-] Hi. simpl. split; [|done].
      apply parseBlocks_text in Hp. rewrite textOf_app, Hp.
      pose proof (accounted_step _ _ _ _ _ _ He' Hi) as H.
      by rewrite (app_nil_r inp) in H.
    + simpl. intros [= <-] Hi. simpl. split; [|done].
      apply nonEmpty_false in Hne. rewrite Hne in He'.
      pose proof (accounted_step _ _ _ _ _ _ He' Hi) as H.
      simpl in H. by rewrite (app_nil_r inp), app_nil_r in H.
  - intros [= <-] Hi. split; [done|]. apply trim_blank.
    by destruct (trim (buffer s)).
Qed.

Lemma run_accounted calls s s' inp :
  run marked_parse sanitize calls s = Returned s' ->
  accounted s inp -> accounted s' (inp ++ appended calls).
Proof.
  revert s inp. induction calls as [|c calls IH]; intros s inp; simpl.
  - intros [= <-]. by rewrite app_nil_r.
  - destruct (call marked_parse sanitize c s) as [s1|e] eqn:Hc; simpl;
      [|done].
    intros Hr Hi. rewrite app_assoc. apply (IH s1); [done|].
    destruct c as [clock chunk|clock]; simpl in *.
    + by eapply append_accounted.
    + rewrite app_nil_r. by eapply finish_accounted.
Qed.

End Runs.

End StreamAFacts.

(** ** The segmentation of the second variant *)

Module StreamBFacts.
Import JS Parser Spec JSFacts ParserFacts StreamB.

Lemma slice_nat n s : slice (Z.of_nat n) s = drop n s.
Proof.
  unfold slice. destruct (Z.of_nat n <? 0)%Z eqn:Hn.
  - apply Z.ltb_lt in Hn. lia.
  - by rewrite Nat2Z.id.
Qed.

(** The incomplete last block is kept from where it starts: the search
    from the right finds it there and nowhere later. *)
Lemma extractCompleteBlocks_okB b r :
  extractCompleteBlocks b = Returned r ->
  erase_ws (concat (fst r) ++ snd r) b /\ snd r `suffix_of` b.
Proof.
  unfold extractCompleteBlocks.
  pose proof (splitIntoBlocks_segmented b) as Hseg.
  destruct (last (splitIntoBlocks b)) as [lb|] eqn:Hlast; [|done].
  destruct (negb (isBlockComplete lb b) && nonEmpty (splitIntoBlocks b)).
  - intros [= <-]. simpl.
    apply last_Some in Hlast as [front Hfront].
    assert (Hnb : notBlank lb = true).
    { assert (Hin : In lb (splitIntoBlocks b))
        by (rewrite Hfront; apply in_or_app; right; by left).
      unfold splitIntoBlocks in Hin. by apply filter_In in Hin as [_ ?]. }
    rewrite Hfront in Hseg |- *. rewrite removelast_last.
    apply segmented_last in Hseg as (pre & post & -> & Hpre & Hpost).
    rewrite lastIndexOf_last_occurrence.
    + rewrite slice_nat, drop_app_length. split.
      * apply erase_app; [by apply segmented_erase | apply erase_refl].
      * by exists pre.
    + apply no_later_occurrence; [|done].
      intros Hbl%notBlank_false. congruence.
  - intros [= <-]. simpl. rewrite app_nil_r. split.
    + by apply segmented_erase.
    + apply suffix_nil.
Qed.

Section Runs.

Variable marked_parse : jsstring -> outcome jsstring.
Variable sanitize : jsstring -> jsstring.

Lemma append_accountedB clock chunk s s' inp :
  append marked_parse sanitize clock chunk s = Returned s' ->
  accountedB s inp -> accountedB s' (inp ++ chunk).
Proof.
  unfold append, appendBegin, accountedB.
  destruct (extractCompleteBlocks (buffer s ++ chunk)) as [[spans rest]|e]
    eqn:Hx; simpl; [|done].
  apply extractCompleteBlocks_okB in Hx as [He _]. simpl in He.
  destruct (nonEmpty spans) eqn:Hne.
  - destruct (parseBlocks _ _ _ _) as [bs|e] eqn:Hp; simpl; [|done].
    intros [= <-] Hi. simpl. apply parseBlocks_text in Hp.
    rewrite textOf_app, Hp.
    exact (StreamAFacts.accounted_step _ _ _ _ _ _ He Hi).
  - intros [= <-] Hi. simpl. apply nonEmpty_false in Hne. subst spans.
    pose proof (StreamAFacts.accounted_step _ [] _ _ _ _ He Hi) as H.
    simpl in H. by rewrite app_nil_r in H.
Qed.

Lemma finish_accountedB clock s s' inp :
  finish marked_parse sanitize clock s = Returned s' ->
  accountedB s inp -> accountedB s' inp /\ blank (buffer s').
Proof.
  unfold finish, accountedB.
  destruct (nonEmpty (trim (buffer s))) eqn:Hb.
  - pose proof (splitIntoBlocks_erase (buffer s)) as He.
    assert (He' : erase_ws (concat (splitIntoBlocks (buffer s)) ++ [])
                           (buffer s ++ [])) by (by rewrite !app_nil_r).
    destruct (nonEmpty (splitIntoBlocks (buffer s))) eqn:Hne.
    + destruct (parseBlocks _ _ _ _) as [bs|e] eqn:Hp; simpl; [|done].
      intros [= <-] Hi. simpl. split; [|done].
      apply parseBlocks_text in Hp. rewrite textOf_app, Hp.
      pose proof (StreamAFacts.accounted_step _ _ _ _ _ _ He' Hi) as H.
      by rewrite (app_nil_r inp) in H.
    + simpl. intros [= <-] Hi. simpl. split; [|done].
      apply nonEmpty_false in Hne. rewrite Hne in He'.
      pose proof (StreamAFacts.accounted_step _ _ _ _ _ _ He' Hi) as H.
      simpl in H. by rewrite (app_nil_r inp), app_nil_r in H.
  - intros [= <-] Hi. split; [done|]. apply trim_blank.
    by destruct (trim (buffer s)).
Qed.

Lemma run_accountedB calls s s' inp :
  run marked_parse sanitize calls s = Returned s' ->
  accountedB s inp -> accountedB s' (inp ++ appended calls).
Proof.
  revert s inp. induction calls as [|c calls IH]; intros s inp; simpl.
  - intros [= <-]. by rewrite app_nil_r.
  - destruct (call marked_parse sanitize c s) as [s1|e] eqn:Hc; simpl;
      [|done].
    intros Hr Hi. rewrite app_assoc. apply (IH s1); [done|].
    destruct c as [clock chunk|clock]; simpl in *.
    + by eapply append_accountedB.
    + rewrite app_nil_r. by eapply finish_accountedB.
Qed.

End Runs.

End StreamBFacts.

(** ** What a session leaves *)

Module StreamFacts.
Import JS Parser Spec JSFacts ParserFacts Stream.

Lemma pendingBlocks_scheduleRender r :
  Renderer.pendingBlocks (Renderer.scheduleRender r)
  = Renderer.pendingBlocks r.
Proof. unfold Renderer.scheduleRender. by destruct (Renderer.rafId r). Qed.

Lemma pendingBlocks_appendBlocks bs r :
  Renderer.pendingBlocks (Renderer.appendBlocks bs r)
  = Renderer.pendingBlocks r ++ bs.
Proof.
  unfold Renderer.appendBlocks. rewrite pendingBlocks_scheduleRender. simpl.
  repeat case_match; done.
Qed.

Lemma appended_app a b : appended (a ++ b) = appended a ++ appended b.
Proof. unfold appended. by rewrite flat_map_app. Qed.

Lemma appended_session chunks clock :
  appended (session chunks clock) = concat (map snd chunks).
Proof.
  unfold session. rewrite appended_app. simpl. rewrite app_nil_r.
  induction chunks as [|c chunks IH]; simpl; [done|]. by rewrite <- IH.
Qed.

Lemma erase_trailing_blank out w inp :
  blank w -> erase_ws (out ++ w) inp -> erase_ws out inp.
Proof.
  intros Hw H. eapply erase_trans; [|exact H].
  apply erase_blank_r; [done | apply erase_refl].
Qed.


Section Sessions.

Variable marked_parse : jsstring -> outcome jsstring.
Variable sanitize : jsstring -> jsstring.

Local Abbreviation runA := (StreamA.run marked_parse sanitize).
Local Abbreviation runB := (StreamB.run marked_parse sanitize).

Lemma runA_app l1 l2 s :
  runA (l1 ++ l2) s = (do s1 <- runA l1 s; runA l2 s1).
Proof.
  revert s. induction l1 as [|c l1 IH]; intros s; simpl; [done|].
  destruct (StreamA.call marked_parse sanitize c s); simpl; [apply IH|done].
Qed.

Lemma runB_app l1 l2 s :
  runB (l1 ++ l2) s = (do s1 <- runB l1 s; runB l2 s1).
Proof.
  revert s. induction l1 as [|c l1 IH]; intros s; simpl; [done|].
  destruct (StreamB.call marked_parse sanitize c s); simpl; [apply IH|done].
Qed.







End Sessions.

End StreamFacts.

(** ** The renderer's bookkeeping *)

Module RendererFacts.
Import JS Parser Spec JSFacts Renderer.

Lemma removeNode_sublist n l : removeNode n l `sublist_of` l.
Proof.
  unfold removeNode. induction l as [|e l IH]; simpl; [done|].
  destruct (negb (node e =? n)%nat); [by apply sublist_skip|].
  by apply sublist_cons.
Qed.

Lemma removeNode_In n l e :
  In e (removeNode n l) <-> In e l /\ node e <> n.
Proof.
  unfold removeNode. rewrite filter_In, negb_true_iff, Nat.eqb_neq. done.
Qed.

Lemma removeNode_app n a b :
  removeNode n (a ++ b) = removeNode n a ++ removeNode n b.
Proof. apply List.filter_app. Qed.

Lemma sublist_map {A B} (f : A -> B) (l k : list A) :
  l `sublist_of` k -> map f l `sublist_of` map f k.
Proof.
  induction 1; simpl; [done | by apply sublist_skip | by apply sublist_cons].
Qed.

Lemma NoDup_nodes_sublist (l k : list Element) :
  l `sublist_of` k -> NoDup (map node k) -> NoDup (map node l).
Proof.
  intros Hs Hk. exact (sublist_NoDup _ _ Hk (sublist_map node _ _ Hs)).
Qed.

Lemma Forall_sublist {A} (P : A -> Prop) (l k : list A) :
  l `sublist_of` k -> Forall P k -> Forall P l.
Proof.
  rewrite !Forall_forall. intros Hs Hk x Hx. apply Hk.
  eapply elem_of_submseteq; [done | by apply sublist_submseteq].
Qed.

(** With the bookkeeping in order there is at most one provisional
    element. *)
Lemma dom_ok_at_most_one elems rendered lastTemp next :
  dom_ok elems rendered lastTemp next -> (provisionalCount elems <= 1)%nat.
Proof.
  unfold provisionalCount. intros (Hp & Hnd & _).
  induction elems as [|e elems IH]; simpl; [lia|].
  simpl in Hnd. apply NoDup_cons in Hnd as [Hfresh Hnd].
  assert (IH' : (length (List.filter provisional elems) <= 1)%nat).
  { apply IH; [|done]. intros e' He'. apply Hp. by right. }
  destruct (provisional e) eqn:He; [|done]. simpl.
  destruct (List.filter provisional elems) as [|e' rest] eqn:Hf; [simpl; lia|].
  exfalso.
  assert (Hin : In e' (List.filter provisional elems)) by (rewrite Hf; by left).
  apply filter_In in Hin as [Hin He'].
  destruct (Hp e (or_introl eq_refl) He) as [Hl Hr].
  destruct (Hp e' (or_intror Hin) He') as [Hl' Hr'].
  assert (Hid : blockId e = blockId e') by congruence.
  rewrite Hid in Hr. assert (Hn : node e = node e') by congruence.
  apply Hfresh. rewrite Hn. apply list_elem_of_In, in_map, Hin.
Qed.

Lemma no_provisional_ok elems rendered lastTemp next :
  no_provisional elems ->
  NoDup (map node elems) ->
  Forall (fun e => (node e < next)%nat) elems ->
  dom_ok elems rendered lastTemp next.
Proof.
  intros Hn Hd Hf. split; [|done].
  intros e He Hp. rewrite (Hn e He) in Hp. done.
Qed.

(** Detaching the remembered provisional element leaves none. *)
Lemma retire_found elems rendered t next n :
  dom_ok elems rendered (Some t) next ->
  rendered !! t = Some n ->
  no_provisional (removeNode n elems).
Proof.
  intros (Hp & _ & _) Hn e [He Hne]%removeNode_In.
  destruct (provisional e) eqn:Hprov; [|done].
  destruct (Hp e He Hprov) as [[= ->] Hr]. congruence.
Qed.

(** If nothing is remembered, or the remembered id is not rendered, no
    provisional element is attached. *)
Lemma retire_absent elems rendered lastTemp next :
  dom_ok elems rendered lastTemp next ->
  match lastTemp with
  | Some t => truthy lastTemp = false \/ rendered !! t = None
  | None => True
  end ->
  no_provisional elems.
Proof.
  intros (Hp & _ & _) Hl e He.
  destruct (provisional e) eqn:Hprov; [|done].
  destruct (Hp e He Hprov) as [-> Hr]. destruct Hl as [Hl|Hl].
  - unfold provisional, isTemp in Hprov. simpl in Hl.
    destruct (blockId e); [done | done].
  - congruence.
Qed.

(** Attaching a fresh element for a block. *)
Lemma attach_ok elems rendered lastTemp next e :
  dom_ok elems rendered lastTemp next ->
  node e = next ->
  (if provisional e
   then no_provisional elems /\ lastTemp = Some (blockId e)
   else True) ->
  dom_ok (elems ++ [e]) (<[blockId e := next]> rendered) lastTemp (S next).
Proof.
  intros (Hp & Hd & Hf) Hnode Hnew. split; [|split].
  - intros e' [He'|[<-|[]]]%in_app_or Hprov.
    + destruct (provisional e) eqn:Hpe.
      * destruct Hnew as [Hnone _]. by rewrite (Hnone e' He') in Hprov.
      * destruct (Hp e' He' Hprov) as [Hl Hr]. split; [done|].
        rewrite lookup_insert_ne; [done|].
        intros Heq. unfold provisional in *. congruence.
    + rewrite Hprov in Hnew. destruct Hnew as [_ ->].
      split; [done|]. by rewrite lookup_insert_eq, Hnode.
  - rewrite map_app. simpl. apply NoDup_app. split; [done|]. split.
    + intros x Hx [->|[]%elem_of_nil]%elem_of_cons.
      apply list_elem_of_In, in_map_iff in Hx as (e' & Hn & He').
      rewrite Forall_forall in Hf. apply list_elem_of_In, Hf in He'. lia.
    + apply NoDup_singleton.
  - apply Forall_app. split.
    + eapply Forall_impl; [exact Hf|]. simpl. lia.
    + constructor; [lia | constructor].
Qed.

Lemma dom_ok_sublist elems elems' rendered lastTemp next :
  no_provisional elems' ->
  elems' `sublist_of` elems ->
  dom_ok elems rendered lastTemp next ->
  forall rendered' lastTemp', dom_ok elems' rendered' lastTemp' next.
Proof.
  intros Hn Hs (_ & Hd & Hf) rendered' lastTemp'.
  apply no_provisional_ok; [done | by eapply NoDup_nodes_sublist|].
  by eapply Forall_sublist.
Qed.

Lemma renderOne_ok p block : pass_ok p -> pass_ok (renderOne p block).
Proof.
  unfold pass_ok, renderOne. intros H.
  destruct (isTemp (id block)) eqn:Htemp.
  - set (p0 := match p_lastTemp p with Some _ => _ | None => p end).
    assert (H0 : no_provisional (p_container p0 ++ p_fragment p0)
                 /\ (p_container p0 ++ p_fragment p0)
                      `sublist_of` (p_container p ++ p_fragment p)
                 /\ p_next p0 = p_next p).
    { subst p0. destruct (p_lastTemp p) as [t|] eqn:Hl.
      - destruct (truthy (Some t)) eqn:Ht.
        + destruct (p_rendered p !! t) as [n|] eqn:Hr; simpl.
          * rewrite <- removeNode_app. split; [by eapply retire_found|].
            split; [apply removeNode_sublist | done].
          * split; [|done]. eapply retire_absent; [exact H|]. by right.
        + split; [|done]. eapply retire_absent; [exact H|]. by left.
      - split; [|done]. by eapply retire_absent; [exact H|]. }
    clearbody p0. destruct H0 as (Hnone & Hsub & Hnext). simpl.
    rewrite app_assoc.
    apply (attach_ok _ _ _ _ (renderBlock (p_next p0) block)); [|done|].
    + rewrite Hnext. by eapply dom_ok_sublist.
    + unfold provisional. simpl. by rewrite Htemp.
  - simpl. rewrite app_assoc.
    apply (attach_ok _ _ _ _ (renderBlock (p_next p) block)); [done|done|].
    unfold provisional. simpl. by rewrite Htemp.
Qed.

Lemma fold_renderOne_ok chunk p :
  pass_ok p -> pass_ok (fold_left renderOne chunk p).
Proof.
  revert p. induction chunk as [|b chunk IH]; intros p H; simpl; [done|].
  by apply IH, renderOne_ok.
Qed.

Lemma renderPendingBlocks_ok cfg renderTime s :
  renderer_ok s -> renderer_ok (renderPendingBlocks cfg renderTime s).
Proof.
  unfold renderPendingBlocks. intros H.
  destruct (isRendering s || negb (nonEmpty (pendingBlocks s))); [done|].
  unfold renderer_ok. simpl.
  apply (fold_renderOne_ok (take (chunkSize cfg) (pendingBlocks s))
           (mkPass (container s) [] (renderedBlocks s) (lastTempBlockId s)
                   (nextNode s))).
  unfold pass_ok. simpl. by rewrite app_nil_r.
Qed.

Lemma scheduleRender_ok s : renderer_ok s -> renderer_ok (scheduleRender s).
Proof. unfold scheduleRender. by destruct (rafId s). Qed.

Lemma appendBlocks_ok blocks s :
  renderer_ok s -> renderer_ok (appendBlocks blocks s).
Proof.
  unfold appendBlocks. intros H. apply scheduleRender_ok.
  unfold renderer_ok in *. simpl.
  destruct (lastTempBlockId s) as [t|] eqn:Hl; [|by rewrite Hl].
  destruct blocks as [|first rest]; [by rewrite Hl|].
  destruct (truthy (Some t)); [|by rewrite Hl].
  destruct (renderedBlocks s !! t) as [n|] eqn:Hr; [|by rewrite Hl].
  destruct (negb (isTemp (id first))); [|by rewrite Hl]. simpl.
  eapply dom_ok_sublist; [|apply removeNode_sublist|exact H].
  by eapply retire_found.
Qed.

Lemma updateBlock_ok i newHtml s :
  renderer_ok s -> renderer_ok (updateBlock i newHtml s).
Proof.
  unfold updateBlock, renderer_ok. intros (Hp & Hd & Hf).
  destruct (renderedBlocks s !! i) as [n|]; [|done]. simpl.
  set (f := fun e : Element => if (node e =? n)%nat then _ else e).
  assert (Hnode : forall e, node (f e) = node e)
    by (intros e; unfold f; by destruct (node e =? n)%nat).
  assert (Hid : forall e, blockId (f e) = blockId e)
    by (intros e; unfold f; by destruct (node e =? n)%nat).
  split; [|split].
  - intros e' (e & <- & He)%in_map_iff Hprov.
    unfold provisional in *. rewrite Hid, Hnode in *. by apply Hp.
  - rewrite map_map. by rewrite (map_ext _ node Hnode).
  - apply Forall_forall. intros e' (e & <- & He)%list_elem_of_In%in_map_iff.
    rewrite Hnode. rewrite Forall_forall in Hf. by apply Hf, list_elem_of_In.
Qed.

Lemma clear_ok s : renderer_ok (clear s).
Proof.
  unfold clear, renderer_ok. simpl.
  split; [by intros e []|]. split; constructor.
Qed.

Lemma init_ok : renderer_ok init.
Proof. split; [by intros e []|]. split; constructor. Qed.

Lemma fire_ok cfg s ev : renderer_ok s -> renderer_ok (fire cfg s ev).
Proof.
  intros H. destruct ev as [blocks|t|k|i h|]; simpl.
  - by apply appendBlocks_ok.
  - destruct (rafId s); [|done]. unfold onFrame.
    by apply renderPendingBlocks_ok.
  - unfold onTimeout. destruct (timers s !! k); [|done].
    by apply scheduleRender_ok.
  - by apply updateBlock_ok.
  - apply clear_ok.
Qed.

Lemma fold_fire_ok cfg evs s :
  renderer_ok s -> renderer_ok (fold_left (fire cfg) evs s).
Proof.
  revert s. induction evs as [|ev evs IH]; intros s H; simpl; [done|].
  by apply IH, fire_ok.
Qed.

Lemma exec_ok cfg evs : renderer_ok (exec cfg evs).
Proof. apply fold_fire_ok, init_ok. Qed.

(** *** Elements are replaced, not edited *)

Lemma replaced_refl l n : replaced_wholesale l l n.
Proof. exists l, []. rewrite app_nil_r. by split. Qed.

Lemma renderOne_wholesale n0 p block :
  (n0 <= p_next p)%nat ->
  Forall (fun e => (n0 <= node e)%nat) (p_fragment p) ->
  p_container (renderOne p block) `sublist_of` p_container p
  /\ Forall (fun e => (n0 <= node e)%nat) (p_fragment (renderOne p block))
  /\ (n0 <= p_next (renderOne p block))%nat.
Proof.
  intros Hn Hf. unfold renderOne.
  set (p1 := if isTemp (id block) then _ else p).
  assert (H1 : p_container p1 `sublist_of` p_container p
               /\ p_fragment p1 `sublist_of` p_fragment p
               /\ p_next p1 = p_next p).
  { subst p1. destruct (isTemp (id block)); [|done]. simpl.
    destruct (p_lastTemp p) as [t|]; [|done].
    destruct (truthy (Some t)); [|done].
    destruct (p_rendered p !! t); [|done]. simpl.
    split; [apply removeNode_sublist|].
    split; [apply removeNode_sublist|done]. }
  clearbody p1. destruct H1 as (Hc & Hfr & Hnext). simpl.
  split; [done|]. split; [|lia].
  apply Forall_app. split; [by eapply Forall_sublist|].
  constructor; [simpl; lia | constructor].
Qed.

Lemma fold_renderOne_wholesale n0 chunk p :
  (n0 <= p_next p)%nat ->
  Forall (fun e => (n0 <= node e)%nat) (p_fragment p) ->
  p_container (fold_left renderOne chunk p) `sublist_of` p_container p
  /\ Forall (fun e => (n0 <= node e)%nat)
            (p_fragment (fold_left renderOne chunk p)).
Proof.
  revert p. induction chunk as [|b chunk IH]; intros p Hn Hf; simpl; [done|].
  destruct (renderOne_wholesale n0 p b Hn Hf) as (Hc & Hf' & Hn').
  destruct (IH _ Hn' Hf') as [Hc' Hf''].
  split; [by etrans | done].
Qed.

Lemma renderPendingBlocks_wholesale cfg renderTime s :
  replaced_wholesale (container s)
    (container (renderPendingBlocks cfg renderTime s)) (nextNode s).
Proof.
  unfold renderPendingBlocks.
  destruct (isRendering s || negb (nonEmpty (pendingBlocks s)));
    [apply replaced_refl|]. simpl.
  set (p := mkPass (container s) [] (renderedBlocks s) (lastTempBlockId s)
                   (nextNode s)).
  destruct (fold_renderOne_wholesale (nextNode s)
              (take (chunkSize cfg) (pendingBlocks s)) p) as [Hc Hf];
    [done | constructor|].
  by eexists _, _.
Qed.

Lemma container_scheduleRender s : container (scheduleRender s) = container s.
Proof. unfold scheduleRender. by destruct (rafId s). Qed.

Lemma appendBlocks_wholesale blocks s :
  replaced_wholesale (container s) (container (appendBlocks blocks s))
                     (nextNode s).
Proof.
  unfold appendBlocks. rewrite container_scheduleRender. simpl.
  exists (container
            match lastTempBlockId s with
            | Some t =>
                match blocks with
                | [] => s
                | first :: _ =>
                    if truthy (lastTempBlockId s)
                    then match renderedBlocks s !! t with
                         | Some tempElement =>
                             if negb (isTemp (id first))
                             then mkState
                                    (removeNode tempElement (container s))
                                    (delete t (renderedBlocks s)) (rafId s)
                                    (pendingBlocks s) (isRendering s) None
                                    (timers s) (nextNode s) (nextHandle s)
                             else s
                         | None => s
                         end
                    else s
                end
            | None => s
            end), [].
  rewrite app_nil_r. split; [done|]. split; [|constructor].
  repeat case_match; simpl; try done. apply removeNode_sublist.
Qed.

Lemma fire_wholesale cfg s ev :
  match ev with
  | UpdateBlock _ _ => True
  | _ => replaced_wholesale (container s) (container (fire cfg s ev))
                            (nextNode s)
  end.
Proof.
  destruct ev as [blocks|t|k|i h|]; simpl; [| | | done |].
  - apply appendBlocks_wholesale.
  - destruct (rafId s); [|apply replaced_refl]. unfold onFrame.
    apply (renderPendingBlocks_wholesale cfg t
             (mkState (container s) (renderedBlocks s) None (pendingBlocks s)
                      (isRendering s) (lastTempBlockId s) (timers s)
                      (nextNode s) (nextHandle s))).
  - unfold onTimeout. destruct (timers s !! k); [|apply replaced_refl].
    rewrite container_scheduleRender. apply replaced_refl.
  - exists [], []. split; [done|]. split; [apply sublist_nil_l | constructor].
Qed.

(** *** A batch without provisional blocks *)

Lemma fold_renderOne_final chunk p :
  allFinal chunk ->
  p_container (fold_left renderOne chunk p) = p_container p
  /\ p_fragment (fold_left renderOne chunk p)
     = p_fragment p ++ renderBatch (p_next p) chunk
  /\ p_next (fold_left renderOne chunk p) = (p_next p + length chunk)%nat.
Proof.
  unfold allFinal. revert p.
  induction chunk as [|b chunk IH]; intros p; simpl.
  - intros _. rewrite app_nil_r. repeat split; lia.
  - intros [Hb Hrest]%andb_prop. apply negb_true_iff in Hb.
    destruct (IH (renderOne p b) Hrest) as (-> & -> & ->).
    unfold renderOne. rewrite Hb. simpl. rewrite <- app_assoc.
    repeat split; lia.
Qed.

Lemma renderPendingBlocks_active cfg renderTime s :
  isRendering s = false ->
  pendingBlocks s <> [] ->
  renderPendingBlocks cfg renderTime s
  = let chunk := take (chunkSize cfg) (pendingBlocks s) in
    let pending := drop (chunkSize cfg) (pendingBlocks s) in
    let p := fold_left renderOne chunk
               (mkPass (container s) [] (renderedBlocks s)
                       (lastTempBlockId s) (nextNode s)) in
    mkState (p_container p ++ p_fragment p) (p_rendered p) (rafId s)
            pending false (p_lastTemp p)
            (if nonEmpty pending
             then timers s ++ [nextDelay cfg renderTime]
             else timers s)
            (p_next p) (nextHandle s).
Proof.
  intros Hidle Hpend. unfold renderPendingBlocks. rewrite Hidle.
  by destruct (pendingBlocks s).
Qed.

(** *** Draining the whole queue *)


Lemma renderBatch_ids n bs : map blockId (renderBatch n bs) = map id bs.
Proof.
  revert n. induction bs as [|b bs IH]; intros n; simpl; [done|].
  by rewrite IH.
Qed.


Lemma allFinal_take_drop k bs :
  allFinal bs -> allFinal (take k bs) /\ allFinal (drop k bs).
Proof.
  unfold allFinal. rewrite <- (take_drop k bs) at 1.
  rewrite forallb_app. by intros [? ?]%andb_prop.
Qed.

(** A pass on an idle renderer whose queue holds no provisional block. *)
Lemma renderPendingBlocks_final cfg renderTime s :
  isRendering s = false ->
  allFinal (pendingBlocks s) ->
  let s' := renderPendingBlocks cfg renderTime s in
  pendingBlocks s' = drop (chunkSize cfg) (pendingBlocks s)
  /\ container s'
     = container s
         ++ renderBatch (nextNode s) (take (chunkSize cfg) (pendingBlocks s))
  /\ nextNode s'
     = (nextNode s + length (take (chunkSize cfg) (pendingBlocks s)))%nat
  /\ isRendering s' = false.
Proof.
  intros Hidle Hfinal s'.
  destruct (pendingBlocks s) as [|b0 rest] eqn:Hp.
  - subst s'. unfold renderPendingBlocks. rewrite Hidle, Hp. simpl.
    rewrite Hp, take_nil, drop_nil. simpl. rewrite app_nil_r.
    split; [done|]. split; [done|]. split; [lia | done].
  - assert (Hne : pendingBlocks s <> []) by (by rewrite Hp).
    pose proof (renderPendingBlocks_active cfg renderTime s Hidle Hne) as Hs.
    fold s' in Hs. cbv zeta in Hs. rewrite Hp in Hs.
    destruct (allFinal_take_drop (chunkSize cfg) _ Hfinal) as [Ht _].
    destruct (fold_renderOne_final _
                (mkPass (container s) [] (renderedBlocks s)
                        (lastTempBlockId s) (nextNode s)) Ht)
      as (H1 & H2 & H3).
    rewrite Hs. simpl. simpl in H1, H2, H3. by rewrite H1, H2, H3.
Qed.


End RendererFacts.

(** ** The conversion service *)

Module WorkerFacts.
Import JS Parser Spec Worker.

Lemma convert_Done mp sz block result :
  convert mp sz block = Done result <->
  exists rawHtml html,
    mp (content block) = Done rawHtml
    /\ sz rawHtml = Done html
    /\ result = withHtml block html.
Proof.
  unfold convert. destruct (mp (content block)) as [raw|r].
  - destruct (sz raw) as [h|r] eqn:Hs.
    + split.
      * intros [= <-]. by exists raw, h.
      * intros (raw' & h' & [= <-] & Hh & ->). rewrite Hs in Hh.
        by injection Hh as ->.
    + split; [done|]. intros (raw' & h' & [= <-] & Hh & _).
      by rewrite Hs in Hh.
  - split; [done|]. by intros (raw' & h' & ? & _).
Qed.

Lemma convert_Raise mp sz block r :
  convert mp sz block = Raise r <->
  mp (content block) = Raise r
  \/ exists rawHtml, mp (content block) = Done rawHtml /\ sz rawHtml = Raise r.
Proof.
  unfold convert. destruct (mp (content block)) as [raw|r'].
  - destruct (sz raw) as [h|r'] eqn:Hs.
    + split; [done|]. intros [?|(raw' & [= <-] & Hh)]; [done|].
      by rewrite Hs in Hh.
    + split.
      * intros [= <-]. right. by exists raw.
      * intros [?|(raw' & [= <-] & Hh)]; [done|]. rewrite Hs in Hh.
        by injection Hh as ->.
  - split; [intros [= <-]; by left|].
    intros [[= <-]|(raw' & ? & _)]; done.
Qed.

Lemma convertAll_Done mp sz blocks results :
  convertAll mp sz blocks = Done results <->
  Forall2 (fun block r => convert mp sz block = Done r) blocks results.
Proof.
  revert results. induction blocks as [|b blocks IH]; intros results; simpl.
  - split; [intros [= <-]; constructor|]. by intros ->%Forall2_nil_inv_l.
  - destruct (convert mp sz b) as [res|r] eqn:Hb.
    + destruct (convertAll mp sz blocks) as [rs|r] eqn:Hrest.
      * split.
        -- intros [= <-]. constructor; [done|]. by apply IH.
        -- intros (res' & rs' & Hq & Hall & ->)%Forall2_cons_inv_l.
           rewrite Hb in Hq. injection Hq as <-.
           apply IH in Hall. by injection Hall as ->.
      * split; [done|].
        intros (res' & rs' & _ & Hall & ->)%Forall2_cons_inv_l.
        by apply IH in Hall.
    + split; [done|].
      intros (res' & rs' & Hq & _)%Forall2_cons_inv_l.
      by rewrite Hb in Hq.
Qed.

(** The loop stops at the first entry that fails, with what was thrown
    there. *)
Lemma convertAll_first_failure mp sz pre block post r :
  Forall (fun b => exists result, convert mp sz b = Done result) pre ->
  convert mp sz block = Raise r ->
  convertAll mp sz (pre ++ block :: post) = Raise r.
Proof.
  intros Hpre Hb. induction Hpre as [|b pre [res Hres] _ IH]; simpl.
  - by rewrite Hb.
  - by rewrite Hres, IH.
Qed.

Lemma convertAll_Raise mp sz blocks r :
  convertAll mp sz blocks = Raise r ->
  exists pre block post,
    blocks = pre ++ block :: post
    /\ Forall (fun b => exists result, convert mp sz b = Done result) pre
    /\ convert mp sz block = Raise r.
Proof.
  induction blocks as [|b blocks IH]; simpl; [done|].
  destruct (convert mp sz b) as [res|r'] eqn:Hb.
  - destruct (convertAll mp sz blocks) as [rs|r'']; [done|].
    intros [= <-]. destruct IH as (pre & block & post & -> & Hpre & Hf);
      [done|].
    exists (b :: pre), block, post. split; [done|]. split; [|done].
    constructor; eauto.
  - intros [= <-]. exists [], b, blocks. by repeat split.
Qed.

(** An entry that fails anywhere in the batch fails the batch. *)
Lemma convertAll_any_failure mp sz blocks block r :
  In block blocks ->
  convert mp sz block = Raise r ->
  exists r', convertAll mp sz blocks = Raise r'.
Proof.
  induction blocks as [|b blocks IH]; simpl; [done|].
  intros [->|Hin] Hb.
  - rewrite Hb. eauto.
  - destruct (convert mp sz b); [|eauto].
    destruct (IH Hin Hb) as [r' ->]. eauto.
Qed.

End WorkerFacts.

(** ** The model on small inputs *)

Module Examples.
Import JS Parser Spec Fixtures.

Example split_two_sentences :
  split_sentences (str "a. b.  c")
  = [str "a"; str "."; str "b"; str "."; str "c"].
Proof. reflexivity. Qed.

Example split_trailing_sentence :
  split_sentences (str "a. b. ") = [str "a"; str "."; str "b"; str "."; []].
Proof. reflexivity. Qed.

Example split_no_sentence :
  split_sentences [] = [[]] /\ split_sentences (str "v1.2") = [str "v1.2"].
Proof. by split. Qed.

Example split_lines :
  split_nl (str "a" ++ [NL] ++ [NL] ++ str "b") = [str "a"; []; str "b"]
  /\ split_nl [] = [[]].
Proof. by split. Qed.

Example trim_strips_both_ends :
  trim ([32; 9; 160] ++ str "a b" ++ [10; 13; 12288]) = str "a b".
Proof. reflexivity. Qed.

Example blocks_of_a_document :
  splitIntoBlocks
    (join_nl [str "intro"; str "more"; []; str "# Title"; str "| a | b |";
              str "|---|---|"; str "after"; str "---"; str "```";
              str ""; str "x"; str "```"; []])
  = [join_nl [str "intro"; str "more"]; str "# Title";
     join_nl [str "| a | b |"; str "|---|---|"]; str "after"; str "---";
     join_nl [str "```"; str ""; str "x"; str "```"]].
Proof. reflexivity. Qed.

Example block_types :
  map detectBlockType
      [str "# T"; str "```js"; str "> q"; str "- item"; str "12. item";
       str "a | b | c"; str "***"; str "<div>"; str "plain"]
  = [HEADING; CODE; BLOCKQUOTE; LIST; LIST; TABLE; HR; HTML; PARAGRAPH].
Proof. reflexivity. Qed.

Example heading_levels :
  map extractHeadingLevel [str "## T"; str "####### T"; str "#T"]
  = [Some 2%nat; None; None]
  /\ extractLanguage (str "```js") = Some (str "js").
Proof. by split. Qed.

Example escaped : escapeHtml (str "a<b>&'") = str "a&lt;b&gt;&amp;&#039;".
Proof. reflexivity. Qed.

(** [append("# Title\n")]: one block, a heading, and an empty buffer. *)
Example heading_line :
  match StreamA.append echo keep noon (str "# Title" ++ [NL]) StreamA.init with
  | Returned s =>
      map content (StreamA.processedBlocks s) = [str "# Title"]
      /\ map type (StreamA.processedBlocks s) = [HEADING]
      /\ map id (StreamA.processedBlocks s) = [str "block-0-0"]
      /\ StreamA.buffer s = []
  | Thrown _ => False
  end.
Proof. vm_compute. by repeat split. Qed.

(** [append("Hello "); append("world.\n\nNext para")]: one block, and the
    next paragraph stays in the buffer. *)
Example paragraph_then_tail :
  match StreamA.run echo keep
          [Append noon (str "Hello ");
           Append noon (str "world." ++ [NL; NL] ++ str "Next para")]
          StreamA.init with
  | Returned s =>
      map content (StreamA.processedBlocks s) = [str "Hello world."]
      /\ StreamA.buffer s = str "Next para"
  | Thrown _ => False
  end.
Proof. vm_compute. by split. Qed.

(** Sentences are joined without the white space that followed them. *)
Example sentences_joined :
  StreamA.extractCompleteBlocks (str "One. Two! Three")
  = ([str "One.Two!"], str "Three").
Proof. reflexivity. Qed.

(** The second variant keeps an open fence in the buffer. *)
Example open_fence_kept :
  StreamB.extractCompleteBlocks openFence
  = Returned ([str "a"], str "```" ++ [NL] ++ str "b").
Proof. reflexivity. Qed.

(** A provisional block is replaced by the next provisional block. *)
Example provisional_replaced :
  let temp1 := mkBlock (str "__temp__1") PARAGRAPH (str "t") (str "<p>t</p>")
                       0 0 None None in
  let temp2 := mkBlock (str "__temp__2") PARAGRAPH (str "tu")
                       (str "<p>tu</p>") 0 0 None None in
  map Renderer.blockId
      (Renderer.container
         (exec defaults [AppendBlocks [entry (str "a"); temp1]; Frame 1;
                         AppendBlocks [temp2]; Frame 1]))
  = [[]; str "__temp__2"].
Proof. vm_compute. reflexivity. Qed.

End Examples.

(** ** Lemmas for the further properties *)

Module ParserLaws.
Import JS Parser Spec Laws JSFacts ParserFacts.

Lemma segmented_nil_blank s : segmented [] s -> blank s.
Proof. by inversion 1. Qed.

Lemma blank_sublist a b : a `sublist_of` b -> blank b -> blank a.
Proof.
  unfold blank. induction 1; simpl; intros Hb; [done| |].
  - apply andb_prop in Hb as [-> Hb]. by rewrite IHsublist.
  - apply andb_prop in Hb as [_ Hb]. by apply IHsublist.
Qed.

Lemma blank_app_inv a b : blank (a ++ b) -> blank a /\ blank b.
Proof. unfold blank. rewrite forallb_app. by intros [? ?]%andb_prop. Qed.

Lemma blank_concat_In bs b : blank (concat bs) -> In b bs -> blank b.
Proof.
  induction bs as [|x bs IH]; simpl; [done|].
  intros [Hx Hbs]%blank_app_inv [->|Hin]; [done|]. by apply IH.
Qed.

Lemma splitIntoBlocks_notBlank s b :
  In b (splitIntoBlocks s) -> notBlank b = true.
Proof. unfold splitIntoBlocks. by intros [_ H]%filter_In. Qed.

Lemma splitIntoBlocks_blank s : blank s -> splitIntoBlocks s = [].
Proof.
  intros Hs. destruct (splitIntoBlocks s) as [|b bs] eqn:Hb; [done|].
  exfalso.
  assert (Hin : In b (splitIntoBlocks s)) by (rewrite Hb; by left).
  pose proof (splitIntoBlocks_notBlank _ _ Hin) as Hnb.
  pose proof (splitIntoBlocks_erase s) as He.
  apply erase_sublist in He. apply blank_sublist in He; [|done].
  apply (blank_concat_In _ b) in He; [|done].
  apply notBlank_false in He. congruence.
Qed.


(** *** The shape of the blocks *)

Lemma split_nl_lines s : Forall oneLine (split_nl s).
Proof.
  induction s as [|c s IH]; simpl.
  - constructor; [|constructor]. by intros [].
  - destruct (c =? NL) eqn:Hc.
    + constructor; [by intros []|done].
    + destruct (split_nl s) as [|l ls] eqn:Hs;
        [by apply split_nl_nonempty in Hs|].
      apply Forall_cons in IH as [Hl Hls]. constructor; [|done].
      intros [Heq|Hin]; [|by apply Hl].
      subst c. by rewrite N.eqb_refl in Hc.
Qed.

Lemma lineKind_fence l : lineKind l = FenceLine <-> isFence l.
Proof.
  unfold lineKind, isFence.
  destruct (startsWith FENCE (trim l)); [done|].
  split; [|done].
  by repeat match goal with |- context [if ?b then _ else _] => destruct b end.
Qed.

Lemma lineKind_not_fence l : lineKind l <> FenceLine <-> ~ isFence l.
Proof. by rewrite lineKind_fence. Qed.

Lemma splitLine_in_code_fence B cur it l :
  lineKind l = FenceLine ->
  splitLine (mkSplit B cur true it) l
  = mkSplit (B ++ [join_nl (cur ++ [l])]) [] false it.
Proof. intros H. by splitLine_cases l. Qed.

Lemma splitLine_in_code_other B cur it l :
  lineKind l <> FenceLine ->
  splitLine (mkSplit B cur true it) l = mkSplit B (cur ++ [l]) true it.
Proof.
  intros H. unfold splitLine, lineKind in *.
  by destruct (startsWith FENCE (trim l)).
Qed.

Lemma splitLine_open_fence B cur it l :
  lineKind l = FenceLine ->
  splitLine (mkSplit B cur false it) l
  = let st1 := flushCurrent (mkSplit B cur false it) in
    mkSplit (blocks st1) (currentBlock st1 ++ [l]) true (inTable st1).
Proof. intros H. by splitLine_cases l. Qed.

Lemma splitLine_table B cur it l :
  lineKind l = TableLine ->
  splitLine (mkSplit B cur false it) l
  = let st1 := if negb it then flushCurrent (mkSplit B cur false it)
               else mkSplit B cur false it in
    mkSplit (blocks st1) (currentBlock st1 ++ [l]) (inCodeBlock st1) true.
Proof. intros H. by splitLine_cases l. Qed.

Lemma splitLine_blank B cur it l :
  lineKind l = BlankLine ->
  splitLine (mkSplit B cur false it) l
  = flushCurrent (leaveTable (mkSplit B cur false it)).
Proof. intros H. by splitLine_cases l. Qed.

Lemma splitLine_single B cur it l :
  lineKind l = SingleLine ->
  splitLine (mkSplit B cur false it) l
  = let st2 := flushCurrent (leaveTable (mkSplit B cur false it)) in
    mkSplit (blocks st2 ++ [l]) (currentBlock st2) (inCodeBlock st2)
            (inTable st2).
Proof. intros H. by splitLine_cases l. Qed.

Lemma splitLine_text B cur it l :
  lineKind l = TextLine ->
  splitLine (mkSplit B cur false it) l
  = let st1 := leaveTable (mkSplit B cur false it) in
    mkSplit (blocks st1) (currentBlock st1 ++ [l]) (inCodeBlock st1)
            (inTable st1).
Proof. intros H. by splitLine_cases l. Qed.

Lemma lines_wellFormed it cur :
  cur <> [] ->
  Forall oneLine cur ->
  (if it : bool then Forall (fun l => lineKind l = TableLine) cur
   else Forall (fun l => lineKind l = TextLine) cur) ->
  wellFormed (join_nl cur).
Proof.
  intros Hne Hone Hk. exists cur. split; [done|]. split; [done|].
  destruct cur as [|l ls]; [done|].
  destruct it; [by apply lines_table | by apply lines_text].
Qed.

Lemma flushCurrent_shape B cur it :
  shape_inv (mkSplit B cur false it) ->
  shape_inv (flushCurrent (mkSplit B cur false it)).
Proof.
  unfold shape_inv, flushCurrent. cbn. intros (HB & Hone & Hk).
  destruct cur as [|l ls];
    cbn [nonEmpty blocks currentBlock inCodeBlock inTable];
    [done|].
  split; [|split; [constructor|by destruct it; constructor]].
  apply Forall_app. split; [done|]. constructor; [|constructor].
  right. by apply (lines_wellFormed it).
Qed.

Lemma flushCurrent_flags st :
  inCodeBlock (flushCurrent st) = inCodeBlock st
  /\ inTable (flushCurrent st) = inTable st.
Proof. unfold flushCurrent. by destruct (nonEmpty (currentBlock st)). Qed.

Lemma leaveTable_shape B cur it :
  shape_inv (mkSplit B cur false it) ->
  exists B' cur',
    leaveTable (mkSplit B cur false it) = mkSplit B' cur' false false
    /\ shape_inv (mkSplit B' cur' false false).
Proof.
  unfold leaveTable. cbn [inTable blocks currentBlock inCodeBlock].
  destruct it; [|by exists B, cur].
  intros (HB & Hone & Hk). cbn [inTable blocks currentBlock inCodeBlock] in *.
  exists (B ++ [join_nl cur]), []. split; [done|].
  split; [|split; constructor].
  cbn [blocks]. apply Forall_app. split; [done|]. constructor; [|constructor].
  destruct cur as [|l ls]; [by left|]. right.
  by apply (lines_wellFormed true).
Qed.

Lemma splitLine_shape st l :
  oneLine l -> shape_inv st -> shape_inv (splitLine st l).
Proof.
  intros Hl H. destruct st as [B cur ic it]. destruct ic.
  - (* inside a fenced block *)
    destruct H as (HB & Hone & (opening & body & Hcur & Ho & Hbody)).
    cbn in HB, Hone, Hcur. subst cur.
    assert (Hone' : Forall oneLine ((opening :: body) ++ [l])).
    { apply Forall_app. split; [done|]. by constructor. }
    destruct (decide (lineKind l = FenceLine)) as [Hk|Hk].
    + rewrite splitLine_in_code_fence by done.
      split; [|split; [constructor|by destruct it; constructor]].
      cbn [blocks].
      apply Forall_app. split; [done|]. constructor; [|constructor].
      right. exists (opening :: body ++ [l]). split; [done|].
      split; [done|].
      apply lines_code; [done|done| |simpl; lia].
      by constructor.
    + rewrite splitLine_in_code_other by done.
      split; [done|]. split; [done|].
      cbn [inCodeBlock currentBlock].
      exists opening, (body ++ [l]). split; [done|]. split; [done|].
      apply Forall_app. split; [done|]. by constructor.
  - destruct (lineKind l) eqn:Hk.
    + (* an opening fence *)
      rewrite splitLine_open_fence by done. cbn zeta.
      pose proof (flushCurrent_shape _ _ _ H) as (HB' & _ & _).
      rewrite flushCurrent_empty. cbn.
      split; [done|]. split; cbn; [by constructor|].
      exists l, []. by repeat split.
    + (* a table line *)
      rewrite splitLine_table by done. cbn zeta.
      destruct it; cbn [negb].
      * destruct H as (HB & Hone & Ht). cbn in *.
        split; [done|]. split; cbn.
        -- apply Forall_app. split; [done|]. by constructor.
        -- apply Forall_app. split; [done|]. by constructor.
      * pose proof (flushCurrent_shape _ _ _ H) as (HB' & _ & _).
        rewrite flushCurrent_empty.
        destruct (flushCurrent_flags (mkSplit B cur false false)) as [-> _].
        cbn. split; [done|]. split; cbn; by constructor.
    + (* a blank line *)
      rewrite splitLine_blank by done.
      destruct (leaveTable_shape _ _ _ H) as (B' & cur' & -> & H1).
      by apply flushCurrent_shape.
    + (* a heading or a rule *)
      rewrite splitLine_single by done. cbn zeta.
      destruct (leaveTable_shape _ _ _ H) as (B' & cur' & -> & H1).
      pose proof (flushCurrent_shape _ _ _ H1) as (HB' & _ & _).
      rewrite flushCurrent_empty.
      match goal with |- context [flushCurrent ?s] =>
        destruct (flushCurrent_flags s) as [-> ->] end.
      cbn. split; [|split; constructor].
      apply Forall_app. split; [done|]. constructor; [|constructor].
      right. exists [l]. split; [done|]. split; [by constructor|].
      by apply lines_single.
    + (* a text line *)
      rewrite splitLine_text by done. cbn zeta.
      destruct (leaveTable_shape _ _ _ H) as (B' & cur' & -> & H1).
      destruct H1 as (HB' & Hone' & Ht'). cbn in *.
      split; [done|]. split; cbn.
      * apply Forall_app. split; [done|]. by constructor.
      * apply Forall_app. split; [done|]. by constructor.
Qed.

Lemma fold_splitLine_shape lines st :
  Forall oneLine lines -> shape_inv st ->
  shape_inv (fold_left splitLine lines st).
Proof.
  revert st. induction lines as [|l lines IH]; intros st Hl H; simpl; [done|].
  apply Forall_cons in Hl as [Hl Hls]. by apply IH, splitLine_shape.
Qed.

Lemma flushCurrent_blocks_shape st :
  shape_inv st ->
  Forall (fun b => b = [] \/ wellFormed b) (blocks (flushCurrent st)).
Proof.
  destruct st as [B cur ic it]. destruct ic.
  - intros (HB & Hone & (opening & body & Hcur & Ho & Hbody)).
    cbn in HB, Hone, Hcur. subst cur. unfold flushCurrent. cbn.
    apply Forall_app. split; [done|]. constructor; [|constructor].
    right. exists (opening :: body). split; [done|]. split; [done|].
    rewrite <- (app_nil_r body).
    apply lines_code; [done|done|constructor|simpl; lia].
  - intros H. by destruct (flushCurrent_shape _ _ _ H) as (HB' & _ & _).
Qed.

Lemma splitIntoBlocks_wellFormed s :
  Forall wellFormed (splitIntoBlocks s).
Proof.
  unfold splitIntoBlocks.
  assert (H0 : shape_inv (mkSplit [] [] false false)).
  { split; [constructor|]. split; constructor. }
  apply (fold_splitLine_shape (split_nl s)) in H0; [|apply split_nl_lines].
  apply flushCurrent_blocks_shape in H0.
  induction H0 as [|b bs Hb _ IH]; simpl; [constructor|].
  destruct (notBlank b) eqn:Hnb; [|done].
  constructor; [|done]. destruct Hb as [->|Hb]; [done|done].
Qed.

(** *** Splitting a block again *)

Lemma fold_splitLine_open opening body :
  isFence opening ->
  Forall (fun l => ~ isFence l) body ->
  fold_left splitLine (opening :: body) (mkSplit [] [] false false)
  = mkSplit [] (opening :: body) true false.
Proof.
  intros Ho Hbody. simpl fold_left.
  rewrite splitLine_open_fence by (by apply lineKind_fence).
  cbn zeta. unfold flushCurrent. cbn [currentBlock nonEmpty blocks inTable].
  by rewrite (fold_splitLine_in_code body).
Qed.

Lemma splitIntoBlocks_open_fence opening body :
  isFence opening ->
  Forall (fun l => ~ isFence l) body ->
  Forall oneLine (opening :: body) ->
  splitIntoBlocks (join_nl (opening :: body)) = [join_nl (opening :: body)].
Proof.
  intros Ho Hbody Hlines. unfold splitIntoBlocks.
  rewrite split_join_nl by done.
  rewrite fold_splitLine_open by done.
  unfold flushCurrent. cbn [currentBlock nonEmpty blocks app List.filter].
  assert (Hnb : notBlank (join_nl (opening :: body)) = true).
  { destruct body as [|x body]; [rewrite join_nl_one, <- (app_nil_r opening)|
                                 rewrite join_nl_cons by done];
      by apply isFence_notBlank. }
  by rewrite Hnb.
Qed.

Lemma fold_splitLine_table ls B cur :
  Forall (fun l => lineKind l = TableLine) ls ->
  fold_left splitLine ls (mkSplit B cur false true)
  = mkSplit B (cur ++ ls) false true.
Proof.
  revert cur. induction ls as [|l ls IH]; intros cur Hls; simpl.
  - by rewrite app_nil_r.
  - apply Forall_cons in Hls as [Hl Hls].
    rewrite splitLine_table by done. cbn.
    rewrite IH by done. by rewrite <- app_assoc.
Qed.

Lemma fold_splitLine_text ls B cur :
  Forall (fun l => lineKind l = TextLine) ls ->
  fold_left splitLine ls (mkSplit B cur false false)
  = mkSplit B (cur ++ ls) false false.
Proof.
  revert cur. induction ls as [|l ls IH]; intros cur Hls; simpl.
  - by rewrite app_nil_r.
  - apply Forall_cons in Hls as [Hl Hls].
    rewrite splitLine_text by done. cbn.
    rewrite IH by done. by rewrite <- app_assoc.
Qed.

Lemma nonEmpty_trim_notBlank l rest :
  nonEmpty (trim l) = true -> notBlank (l ++ rest) = true.
Proof.
  intros H.
  destruct (notBlank (l ++ rest)) eqn:Hnb; [done|].
  apply notBlank_false, blank_app_inv in Hnb as [Hl _].
  apply trim_blank in Hl. by rewrite Hl in H.
Qed.

Lemma lineKind_nonblank l :
  lineKind l <> BlankLine -> nonEmpty (trim l) = true.
Proof.
  unfold lineKind, isTableLine, includes.
  destruct (trim l) as [|c t] eqn:Ht; [|done].
  by cbn.
Qed.

Lemma first_line_notBlank l ls :
  lineKind l <> BlankLine -> notBlank (join_nl (l :: ls)) = true.
Proof.
  intros H%lineKind_nonblank.
  destruct ls as [|x ls]; [rewrite join_nl_one, <- (app_nil_r l)|
                              rewrite join_nl_cons by done];
    by apply nonEmpty_trim_notBlank.
Qed.

Lemma wellFormed_stable b : wellFormed b -> splitIntoBlocks b = [b].
Proof.
  intros (lines & -> & Hone & Hshape).
  destruct Hshape as [opening body closing Ho Hbody Hclosing Hlen
                     |l ls Hls|l Hl|l ls Hls].
  - apply lineKind_fence in Ho.
    assert (Hbody' : Forall (fun l => ~ isFence l) body).
    { eapply Forall_impl; [exact Hbody|]. intros x. apply lineKind_not_fence. }
    destruct closing as [|c [|? ?]]; [| |simpl in Hlen; lia].
    + rewrite app_nil_r in *. by apply splitIntoBlocks_open_fence.
    + apply splitIntoBlocks_keeps_fence; [done| |done|done].
      apply Forall_cons in Hclosing as [Hc _]. by apply lineKind_fence.
  - unfold splitIntoBlocks. rewrite split_join_nl by done.
    pose proof Hls as Hls'. apply Forall_cons in Hls' as [Hl Hrest].
    simpl fold_left. rewrite splitLine_table by done. cbn.
    rewrite fold_splitLine_table by done.
    unfold flushCurrent. cbn [currentBlock app nonEmpty blocks List.filter].
    rewrite first_line_notBlank; [done|congruence].
  - unfold splitIntoBlocks. rewrite split_join_nl by done.
    simpl fold_left. rewrite splitLine_single by done. cbn.
    rewrite <- (join_nl_one l) at 1.
    rewrite first_line_notBlank; [done|congruence].
  - unfold splitIntoBlocks. rewrite split_join_nl by done.
    pose proof Hls as Hls'. apply Forall_cons in Hls' as [Hl Hrest].
    simpl fold_left. rewrite splitLine_text by done. cbn.
    rewrite fold_splitLine_text by done.
    unfold flushCurrent. cbn [currentBlock app nonEmpty blocks List.filter].
    rewrite first_line_notBlank; [done|congruence].
Qed.

(** *** Block metadata *)

Lemma trimStart_snoc a c :
  isWhiteSpace c = false -> trimStart (a ++ [c]) = trimStart a ++ [c].
Proof.
  intros Hc. induction a as [|x a IH]; simpl; [by rewrite Hc|].
  by destruct (isWhiteSpace x).
Qed.

Lemma trimEnd_cons c t :
  isWhiteSpace c = false -> trimEnd (c :: t) = c :: trimEnd t.
Proof.
  intros Hc. unfold trimEnd. simpl rev.
  by rewrite trimStart_snoc, rev_app_distr.
Qed.







(** *** Block identifiers *)

Lemma digits_inj u u' : digits u = digits u' -> u = u'.
Proof.
  revert u'. induction u; intros u'; destruct u'; simpl; try done;
    intros [= H]; f_equal; by apply IHu.
Qed.

Lemma decimal_inj n m : decimal n = decimal m -> n = m.
Proof.
  unfold decimal. intros H%digits_inj.
  by apply DecimalN.Unsigned.to_uint_inj.
Qed.

Lemma digits_isDigit u : Forall (fun c => isDigit c = true) (digits u).
Proof. induction u; simpl; constructor; done. Qed.

Lemma decimal_isDigit n : Forall (fun c => isDigit c = true) (decimal n).
Proof. apply digits_isDigit. Qed.

(** A run of digits ends at the first character that is not a digit. *)
Lemma digits_then_dash a b x y :
  Forall (fun c => isDigit c = true) a ->
  Forall (fun c => isDigit c = true) b ->
  a ++ 45 :: x = b ++ 45 :: y -> a = b /\ x = y.
Proof.
  intros Ha. revert b. induction Ha as [|c a Hc Ha IH]; intros b Hb; simpl.
  - destruct Hb as [|d b Hd Hb]; simpl; [by intros [= ->]|].
    intros [= <- _]. done.
  - destruct Hb as [|d b Hd Hb]; simpl.
    + intros [= -> _]. done.
    + intros [= <- H]. destruct (IH b Hb H) as [-> ->]. done.
Qed.

Lemma block_id_inj i t j u :
  str "block-" ++ decimal i ++ str "-" ++ decimal t
  = str "block-" ++ decimal j ++ str "-" ++ decimal u ->
  i = j /\ t = u.
Proof.
  intros H. apply app_inv_head in H.
  change (str "-") with [45] in H. simpl in H.
  apply digits_then_dash in H as [Hi Ht]; [|apply decimal_isDigit..].
  split; by apply decimal_inj.
Qed.

Lemma parseBlocksFrom_lookup mp sz clock i spans bs k b :
  parseBlocksFrom mp sz clock i spans = Returned bs ->
  bs !! k = Some b ->
  id b = str "block-" ++ decimal (N.of_nat (i + k)) ++ str "-"
           ++ decimal (clock (i + k)%nat)
  /\ startIndex b = (i + k)%nat
  /\ endIndex b = (i + k)%nat
  /\ spans !! k = Some (content b)
  /\ type b = detectBlockType (content b)
  /\ level b = extractHeadingLevel (content b)
  /\ language b = extractLanguage (content b)
  /\ exists rawHtml,
       mp (content b) = Returned rawHtml /\ html b = sz rawHtml.
Proof.
  revert i bs k. induction spans as [|x spans IH]; intros i bs k; simpl.
  - by intros [= <-].
  - unfold parseBlock. destruct (mp x) as [h|e] eqn:Hx; simpl; [|done].
    destruct (parseBlocksFrom mp sz clock (S i) spans) as [r|e] eqn:Hr;
      simpl; [|done].
    intros [= <-]. destruct k as [|k]; simpl.
    + intros [= <-]. simpl. rewrite Nat.add_0_r. eauto 10.
    + intros Hb. destruct (IH _ _ _ Hr Hb) as (? & ? & ? & ? & ?).
      replace (i + S k)%nat with (S i + k)%nat by lia. eauto 10.
Qed.

Lemma parseBlocksFrom_length mp sz clock i spans bs :
  parseBlocksFrom mp sz clock i spans = Returned bs ->
  length bs = length spans.
Proof.
  intros H%parseBlocksFrom_content. by rewrite <- H, length_map.
Qed.

Lemma parseBlocksFrom_NoDup mp sz clock i spans bs :
  parseBlocksFrom mp sz clock i spans = Returned bs ->
  NoDup (map id bs).
Proof.
  intros H. apply NoDup_ListNoDup, NoDup_nth with (d := []).
  intros a b Ha Hb Heq. rewrite length_map in Ha, Hb.
  destruct (lookup_lt_is_Some_2 bs a Ha) as [x Hx].
  destruct (lookup_lt_is_Some_2 bs b Hb) as [y Hy].
  assert (Hnx : nth a (map id bs) [] = id x).
  { apply nth_lookup_Some. change (map id bs) with (id <$> bs).
    by rewrite list_lookup_fmap, Hx. }
  assert (Hny : nth b (map id bs) [] = id y).
  { apply nth_lookup_Some. change (map id bs) with (id <$> bs).
    by rewrite list_lookup_fmap, Hy. }
  rewrite Hnx, Hny in Heq.
  destruct (parseBlocksFrom_lookup _ _ _ _ _ _ _ _ H Hx) as (Hix & _).
  destruct (parseBlocksFrom_lookup _ _ _ _ _ _ _ _ H Hy) as (Hiy & _).
  rewrite Hix, Hiy in Heq. apply block_id_inj in Heq as [Heq _]. lia.
Qed.

End ParserLaws.

Module RendererLaws.
Import JS Parser Spec Laws JSFacts Renderer RendererFacts.

(** *** The registry *)

Lemma same_node_same_element (elems : list Element) e e' :
  NoDup (map node elems) -> In e elems -> In e' elems ->
  node e = node e' -> e = e'.
Proof.
  induction elems as [|x elems IH]; simpl; [done|].
  intros [Hx Hnd]%NoDup_cons [<-|He] [<-|He'] Hn; [done| | |by apply IH].
  - exfalso. apply Hx. rewrite Hn. by apply list_elem_of_In, in_map.
  - exfalso. apply Hx. rewrite <- Hn. by apply list_elem_of_In, in_map.
Qed.

Lemma book_retire elems rendered t next n lastTemp' :
  book_ok elems rendered (Some t) next ->
  rendered !! t = Some n ->
  (forall t', lastTemp' = Some t' -> isTemp t' = true) ->
  book_ok (removeNode n elems) (delete t rendered) lastTemp' next.
Proof.
  intros (Hd & (Hreg & Hall) & Htemp) Hn Hl'. split; [|split; [split|done]].
  - eapply dom_ok_sublist; [|apply removeNode_sublist|exact Hd].
    by eapply retire_found.
  - intros k m Hk. apply lookup_delete_Some in Hk as [Hkt Hk].
    destruct (Hreg k m Hk) as (e & He & Hm & Hid).
    exists e. split; [|done]. apply removeNode_In. split; [done|].
    intros Heq. destruct (Hreg t n Hn) as (et & Het & Hnt & Hidt).
    destruct Hd as (_ & Hnd & _).
    assert (e = et) by (apply (same_node_same_element elems); congruence).
    congruence.
  - intros e [He Hne]%removeNode_In.
    rewrite lookup_delete_ne; [by apply Hall|].
    intros Heq. destruct Hd as (Hp & _ & _).
    assert (Hprov : provisional e = true).
    { unfold provisional. rewrite <- Heq. by apply Htemp. }
    destruct (Hp e He Hprov) as [_ Hr]. congruence.
Qed.

Lemma book_forget elems rendered lastTemp next lastTemp' :
  book_ok elems rendered lastTemp next ->
  no_provisional elems ->
  (forall t', lastTemp' = Some t' -> isTemp t' = true) ->
  book_ok elems rendered lastTemp' next.
Proof.
  intros (Hd & Hreg & _) Hnone Hl'. split; [|done].
  by eapply dom_ok_sublist.
Qed.

Lemma book_attach elems rendered lastTemp next e :
  book_ok elems rendered lastTemp next ->
  node e = next ->
  (if provisional e
   then no_provisional elems /\ lastTemp = Some (blockId e)
   else True) ->
  book_ok (elems ++ [e]) (<[blockId e := next]> rendered) lastTemp (S next).
Proof.
  intros (Hd & (Hreg & Hall) & Htemp) Hnode Hnew.
  split; [by apply attach_ok|]. split; [split|done].
  - intros k n Hk. apply lookup_insert_Some in Hk as [[<- <-]|[Hne Hk]].
    + exists e. split; [|done]. apply in_or_app. right. by left.
    + destruct (Hreg k n Hk) as (e' & He' & Hn & Hid).
      exists e'. split; [|done]. apply in_or_app. by left.
  - intros e' [He'|[<-|[]]]%in_app_or.
    + apply lookup_insert_is_Some'. right. by apply Hall.
    + apply lookup_insert_is_Some'. by left.
Qed.

Lemma renderOne_book p block : pass_book p -> pass_book (renderOne p block).
Proof.
  unfold pass_book, renderOne. intros H.
  destruct (isTemp (id block)) eqn:Htemp.
  - set (p0 := match p_lastTemp p with Some _ => _ | None => p end).
    assert (Hl' : forall t', Some (id block) = Some t' -> isTemp t' = true)
      by (by intros t' [= <-]).
    assert (H0 : no_provisional (p_container p0 ++ p_fragment p0)
                 /\ book_ok (p_container p0 ++ p_fragment p0) (p_rendered p0)
                            (Some (id block)) (p_next p0)).
    { pose proof H as (Hd & _). subst p0.
      destruct (p_lastTemp p) as [t|] eqn:Hl.
      - destruct (truthy (Some t)) eqn:Ht.
        + destruct (p_rendered p !! t) as [n|] eqn:Hr; simpl.
          * rewrite <- removeNode_app.
            split; [by eapply retire_found|by eapply book_retire].
          * assert (no_provisional (p_container p ++ p_fragment p))
              by (eapply retire_absent; [exact Hd|]; by right).
            split; [done|by eapply book_forget].
        + assert (no_provisional (p_container p ++ p_fragment p))
            by (eapply retire_absent; [exact Hd|]; by left).
          split; [done|by eapply book_forget].
      - assert (no_provisional (p_container p ++ p_fragment p))
          by (by eapply retire_absent; [exact Hd|]).
        split; [done|by eapply book_forget]. }
    clearbody p0. destruct H0 as (Hnone & H0). simpl.
    rewrite app_assoc.
    apply (book_attach _ _ _ _ (renderBlock (p_next p0) block)); [done|done|].
    unfold provisional. simpl. by rewrite Htemp.
  - simpl. rewrite app_assoc.
    apply (book_attach _ _ _ _ (renderBlock (p_next p) block)); [done|done|].
    unfold provisional. simpl. by rewrite Htemp.
Qed.

Lemma fold_renderOne_book chunk p :
  pass_book p -> pass_book (fold_left renderOne chunk p).
Proof.
  revert p. induction chunk as [|b chunk IH]; intros p H; simpl; [done|].
  by apply IH, renderOne_book.
Qed.

Lemma renderPendingBlocks_book cfg renderTime s :
  renderer_book s -> renderer_book (renderPendingBlocks cfg renderTime s).
Proof.
  unfold renderPendingBlocks. intros H.
  destruct (isRendering s || negb (nonEmpty (pendingBlocks s))); [done|].
  unfold renderer_book. simpl.
  apply (fold_renderOne_book (take (chunkSize cfg) (pendingBlocks s))
           (mkPass (container s) [] (renderedBlocks s) (lastTempBlockId s)
                   (nextNode s))).
  unfold pass_book. simpl. by rewrite app_nil_r.
Qed.

Lemma scheduleRender_book s :
  renderer_book s -> renderer_book (scheduleRender s).
Proof. unfold scheduleRender. by destruct (rafId s). Qed.

Lemma appendBlocks_book blocks s :
  renderer_book s -> renderer_book (appendBlocks blocks s).
Proof.
  unfold appendBlocks. intros H. apply scheduleRender_book.
  unfold renderer_book in *. simpl.
  destruct (lastTempBlockId s) as [t|] eqn:Hl; [|by rewrite Hl].
  destruct blocks as [|first rest]; [by rewrite Hl|].
  destruct (truthy (Some t)); [|by rewrite Hl].
  destruct (renderedBlocks s !! t) as [n|] eqn:Hr; [|by rewrite Hl].
  destruct (negb (isTemp (id first))); [|by rewrite Hl]. simpl.
  by eapply book_retire.
Qed.

Lemma updateBlock_book i newHtml s :
  renderer_book s -> renderer_book (updateBlock i newHtml s).
Proof.
  intros H. pose proof H as (Hd & (Hreg & Hall) & Htemp).
  split; [by apply updateBlock_ok|]. revert Hd Hreg Hall Htemp.
  unfold updateBlock.
  destruct (renderedBlocks s !! i) as [n|]; [|done]. simpl.
  set (f := fun e : Element => if (node e =? n)%nat then _ else e).
  assert (Hnode : forall e, node (f e) = node e)
    by (intros e; unfold f; by destruct (node e =? n)%nat).
  assert (Hid : forall e, blockId (f e) = blockId e)
    by (intros e; unfold f; by destruct (node e =? n)%nat).
  intros Hd Hreg Hall Htemp. split; [split|done].
  - intros k m Hk. destruct (Hreg k m Hk) as (e & He & Hm & Hk').
    exists (f e). rewrite Hnode, Hid. split; [|done]. by apply in_map.
  - intros e' (e & <- & He)%in_map_iff. rewrite Hid. by apply Hall.
Qed.

Lemma clear_book s :
  (forall t, lastTempBlockId s = Some t -> isTemp t = true) ->
  renderer_book (clear s).
Proof.
  intros Ht. split; [apply clear_ok|]. split; [|done].
  split; [by intros k n ?|by intros e []].
Qed.

Lemma init_book : renderer_book init.
Proof.
  split; [apply init_ok|]. split; [|done].
  split; [by intros k n ?|by intros e []].
Qed.

Lemma fire_book cfg s ev : renderer_book s -> renderer_book (fire cfg s ev).
Proof.
  intros H. destruct ev as [blocks|t|k|i h|]; simpl.
  - by apply appendBlocks_book.
  - destruct (rafId s); [|done]. unfold onFrame.
    by apply renderPendingBlocks_book.
  - unfold onTimeout. destruct (timers s !! k); [|done].
    by apply scheduleRender_book.
  - by apply updateBlock_book.
  - apply clear_book. by destruct H as (_ & _ & ?).
Qed.

Lemma fold_fire_book cfg evs s :
  renderer_book s -> renderer_book (fold_left (fire cfg) evs s).
Proof.
  revert s. induction evs as [|ev evs IH]; intros s H; simpl; [done|].
  by apply IH, fire_book.
Qed.

Lemma exec_book cfg evs : renderer_book (exec cfg evs).
Proof. apply fold_fire_book, init_book. Qed.


(** *** What the registry implies *)

Lemma registered_keys elems rendered k :
  registered elems rendered ->
  is_Some (rendered !! k) <-> In k (map blockId elems).
Proof.
  intros [Hreg Hall]. split.
  - intros [n Hn]. destruct (Hreg k n Hn) as (e & He & _ & <-).
    by apply in_map.
  - intros (e & <- & He)%in_map_iff. by apply Hall.
Qed.

Lemma registered_size elems rendered :
  registered elems rendered ->
  (size rendered <= length elems)%nat
  /\ (NoDup (map blockId elems) -> size rendered = length elems).
Proof.
  intros Hreg.
  assert (Hle : (map_to_list rendered).*1 ⊆+ map blockId elems).
  { apply NoDup_submseteq; [apply NoDup_fst_map_to_list|].
    intros k Hk. apply list_elem_of_fmap in Hk as ([k' n] & -> & Hkn).
    apply elem_of_map_to_list in Hkn. simpl.
    apply list_elem_of_In, (registered_keys _ _ _ Hreg). by exists n. }
  apply submseteq_length in Hle.
  rewrite length_fmap, length_map_to_list, length_map in Hle.
  split; [done|]. intros Hnd.
  assert (Hge : map blockId elems ⊆+ (map_to_list rendered).*1).
  { apply NoDup_submseteq; [done|].
    intros k Hk%list_elem_of_In.
    apply (registered_keys _ _ _ Hreg) in Hk as [n Hn].
    apply list_elem_of_fmap. exists (k, n). split; [done|].
    by apply elem_of_map_to_list. }
  apply submseteq_length in Hge.
  rewrite length_map, length_fmap, length_map_to_list in Hge. lia.
Qed.

(** *** [updateBlock] *)

Lemma updateBlock_container i newHtml s :
  container (updateBlock i newHtml s)
  = match renderedBlocks s !! i with
    | Some n =>
        map (fun e => if Nat.eqb (node e) n
                      then mkElement (node e) (className e) (blockId e)
                                     newHtml
                      else e) (container s)
    | None => container s
    end.
Proof. unfold updateBlock. by destruct (renderedBlocks s !! i). Qed.

Lemma updateBlock_rest i newHtml s :
  renderedBlocks (updateBlock i newHtml s) = renderedBlocks s
  /\ pendingBlocks (updateBlock i newHtml s) = pendingBlocks s
  /\ rafId (updateBlock i newHtml s) = rafId s
  /\ timers (updateBlock i newHtml s) = timers s
  /\ isRendering (updateBlock i newHtml s) = isRendering s
  /\ lastTempBlockId (updateBlock i newHtml s) = lastTempBlockId s.
Proof. unfold updateBlock. by destruct (renderedBlocks s !! i). Qed.

(** *** The scheduler *)

Lemma isRendering_scheduleRender s :
  isRendering (scheduleRender s) = isRendering s.
Proof. unfold scheduleRender. by destruct (rafId s). Qed.

Lemma isRendering_fire cfg s ev :
  isRendering s = false -> isRendering (fire cfg s ev) = false.
Proof.
  intros H. destruct ev as [blocks|t|k|i h|]; simpl.
  - unfold appendBlocks. rewrite isRendering_scheduleRender. simpl.
    by repeat case_match.
  - destruct (rafId s); [|done]. unfold onFrame, renderPendingBlocks. simpl.
    by destruct (isRendering s || negb (nonEmpty (pendingBlocks s))).
  - unfold onTimeout. destruct (timers s !! k); [|done].
    by rewrite isRendering_scheduleRender.
  - by destruct (updateBlock_rest i h s) as (_ & _ & _ & _ & -> & _).
  - done.
Qed.

Lemma isRendering_fold_fire cfg evs s :
  isRendering s = false -> isRendering (fold_left (fire cfg) evs s) = false.
Proof.
  revert s. induction evs as [|ev evs IH]; intros s H; simpl; [done|].
  by apply IH, isRendering_fire.
Qed.

Lemma scheduleRender_requested s : is_Some (rafId (scheduleRender s)).
Proof. unfold scheduleRender. by destruct (rafId s) eqn:H; simpl; eauto. Qed.

Lemma on_its_way_fire cfg s ev :
  isRendering s = false -> on_its_way s -> on_its_way (fire cfg s ev).
Proof.
  intros Hr H. destruct ev as [blocks|t|k|i h|]; simpl.
  - intros _. left. apply scheduleRender_requested.
  - destruct (rafId s) eqn:Hraf; [|done]. unfold onFrame.
    unfold renderPendingBlocks. cbn [isRendering pendingBlocks]. rewrite Hr.
    destruct (nonEmpty (pendingBlocks s)) eqn:Hp; cbn [orb negb].
    + intros Hne. cbn in Hne |- *. right.
      destruct (drop (chunkSize cfg) (pendingBlocks s)); [done|].
      cbn. by destruct (timers s).
    + intros Hne. cbn in Hne. by destruct (pendingBlocks s).
  - unfold onTimeout. destruct (timers s !! k); [|done].
    intros _. left. apply scheduleRender_requested.
  - unfold on_its_way.
    by destruct (updateBlock_rest i h s) as (_ & -> & -> & -> & _).
  - by intros [].
Qed.

Lemma timers_fire cfg (P : Q -> Prop) s ev :
  P 0%Q -> P (Qmin (debounceMs cfg) 8) ->
  Forall P (timers s) -> Forall P (timers (fire cfg s ev)).
Proof.
  intros H0 H8 H. destruct ev as [blocks|t|k|i h|]; simpl.
  - unfold appendBlocks, scheduleRender. by repeat case_match.
  - destruct (rafId s); [|done]. unfold onFrame, renderPendingBlocks. simpl.
    destruct (isRendering s || negb (nonEmpty (pendingBlocks s))); [done|].
    simpl. destruct (nonEmpty (drop (chunkSize cfg) (pendingBlocks s)));
      [|done].
    apply Forall_app. split; [done|]. constructor; [|constructor].
    unfold nextDelay. by destruct (Qlt_le_dec 16 t).
  - unfold onTimeout. destruct (timers s !! k); [|done].
    unfold scheduleRender. simpl.
    by destruct (rafId s); simpl; apply Forall_delete.
  - by destruct (updateBlock_rest i h s) as (_ & _ & _ & -> & _).
  - done.
Qed.

(** *** A batch that starts with a final block *)

Lemma appendBlocks_retires first rest s :
  renderer_book s ->
  isTemp (id first) = false ->
  no_provisional (container (appendBlocks (first :: rest) s))
  /\ (forall e, In e (container s) -> provisional e = false ->
        In e (container (appendBlocks (first :: rest) s)))
  /\ container (appendBlocks (first :: rest) s) `sublist_of` container s.
Proof.
  intros (Hd & (Hreg & _) & Htemp) Hfirst.
  unfold appendBlocks. rewrite container_scheduleRender. simpl.
  destruct (lastTempBlockId s) as [t|] eqn:Hl.
  - destruct (truthy (Some t)) eqn:Ht.
    + destruct (renderedBlocks s !! t) as [n|] eqn:Hn.
      * rewrite Hfirst. simpl. split; [by eapply retire_found|].
        split; [|apply removeNode_sublist].
        intros e He Hp. apply removeNode_In. split; [done|].
        intros Heq. destruct (Hreg t n Hn) as (x & Hx & Hxn & Hxi).
        destruct Hd as (_ & Hnd & _).
        assert (e = x)
          by (apply (same_node_same_element (container s)); congruence).
        subst x. unfold provisional in Hp. rewrite Hxi in Hp.
        rewrite (Htemp t eq_refl) in Hp. done.
      * split; [|done]. eapply retire_absent; [exact Hd|]. by right.
    + split; [|done]. eapply retire_absent; [exact Hd|]. by left.
  - split; [|done]. by eapply retire_absent; [exact Hd|].
Qed.

End RendererLaws.

Module RendererOrder.
Import JS Parser Spec Laws JSFacts Renderer RendererFacts RendererLaws.

(** *** Histories without provisional blocks *)

Lemma fold_renderOne_lastTemp chunk p :
  allFinal chunk ->
  p_lastTemp (fold_left renderOne chunk p) = p_lastTemp p.
Proof.
  unfold allFinal. revert p.
  induction chunk as [|b chunk IH]; intros p H; simpl; [done|].
  simpl in H. apply andb_prop in H as [Hb H].
  rewrite IH by done. unfold renderOne.
  apply negb_true_iff in Hb. by rewrite Hb.
Qed.

Lemma allFinal_app a b : allFinal a -> allFinal b -> allFinal (a ++ b).
Proof. unfold allFinal. rewrite forallb_app. by intros -> ->. Qed.

Lemma fire_plain cfg s ev :
  finalEvent ev = true -> plain s ->
  plain (fire cfg s ev)
  /\ idsOf (fire cfg s ev) = idsOf s ++ map id (appendedBlocks [ev]).
Proof.
  intros Hev (Hr & Hl & Hp). unfold idsOf.
  destruct ev as [blocks|t|k|i h|]; simpl; rewrite ?app_nil_r.
  - unfold appendBlocks. rewrite Hl.
    unfold plain. rewrite isRendering_scheduleRender.
    unfold scheduleRender. simpl. rewrite Hl.
    split.
    + split; [done|]. split; [by destruct (rafId s)|].
      destruct (rafId s); simpl; by apply allFinal_app.
    + destruct (rafId s); simpl; by rewrite map_app, app_assoc.
  - destruct (rafId s) eqn:Hraf; [|done]. unfold onFrame.
    set (s0 := mkState _ _ None _ _ _ _ _ _).
    destruct (renderPendingBlocks_final cfg t s0 Hr Hp)
      as (Hpend & Hcont & _ & Hr').
    split.
    + split; [done|]. split.
      * unfold renderPendingBlocks. cbn [isRendering pendingBlocks s0].
        destruct (isRendering s || negb (nonEmpty (pendingBlocks s)));
          [done|].
        cbn [lastTempBlockId].
        rewrite fold_renderOne_lastTemp; [done|].
        by apply allFinal_take_drop.
      * rewrite Hpend. by apply allFinal_take_drop.
    + rewrite Hpend, Hcont. cbn [container pendingBlocks nextNode s0].
      rewrite map_app, renderBatch_ids, <- app_assoc, <- map_app.
      by rewrite take_drop.
  - unfold onTimeout. destruct (timers s !! k); [|done].
    unfold plain, scheduleRender. by destruct (rafId s).
  - destruct (updateBlock_rest i h s) as (_ & Hpe & _ & _ & Hre & Hla).
    unfold plain. rewrite Hpe, Hre, Hla. split; [done|].
    rewrite updateBlock_container.
    destruct (renderedBlocks s !! i) as [n|]; [|done].
    rewrite map_map. f_equal. apply map_ext. intros e.
    by destruct (node e =? n)%nat.
  - done.
Qed.

Lemma fold_fire_plain cfg evs s :
  forallb finalEvent evs = true -> plain s ->
  plain (fold_left (fire cfg) evs s)
  /\ idsOf (fold_left (fire cfg) evs s)
     = idsOf s ++ map id (appendedBlocks evs).
Proof.
  revert s. induction evs as [|ev evs IH]; intros s Hevs Hs; simpl.
  - by rewrite app_nil_r.
  - simpl in Hevs. apply andb_prop in Hevs as [Hev Hevs].
    destruct (fire_plain cfg s ev Hev Hs) as [Hs' Hids].
    destruct (IH _ Hevs Hs') as [Hs'' Hids'].
    split; [done|]. rewrite Hids', Hids. simpl. rewrite app_nil_r.
    by rewrite map_app, app_assoc.
Qed.

Lemma renderBatch_final n chunk :
  allFinal chunk -> no_provisional (renderBatch n chunk).
Proof.
  unfold allFinal. revert n.
  induction chunk as [|b chunk IH]; intros n H e; simpl; [done|].
  simpl in H. apply andb_prop in H as [Hb%negb_true_iff H].
  intros [<-|He]; [done|]. by apply (IH (S n)).
Qed.

Lemma fire_plain_final cfg s ev :
  finalEvent ev = true -> plain s ->
  no_provisional (container s) ->
  no_provisional (container (fire cfg s ev)).
Proof.
  intros Hev (Hr & Hl & Hp) Hnone.
  destruct ev as [blocks|t|k|i h|]; simpl; [| | | |done].
  - unfold appendBlocks. rewrite container_scheduleRender. simpl.
    by rewrite Hl.
  - destruct (rafId s) eqn:Hraf; [|done]. unfold onFrame.
    set (s0 := mkState _ _ None _ _ _ _ _ _).
    destruct (renderPendingBlocks_final cfg t s0 Hr Hp) as (_ & -> & _).
    intros e [He|He]%in_app_or; [by apply Hnone|].
    revert He. apply renderBatch_final. by apply allFinal_take_drop.
  - unfold onTimeout. destruct (timers s !! k); [|done].
    by rewrite container_scheduleRender.
  - rewrite updateBlock_container.
    destruct (renderedBlocks s !! i) as [n|]; [|done].
    intros e' (e & <- & He)%in_map_iff.
    pose proof (Hnone e He) as Hp'. unfold provisional in *.
    by destruct (node e =? n)%nat.
Qed.

Lemma fold_fire_plain_final cfg evs s :
  forallb finalEvent evs = true -> plain s ->
  no_provisional (container s) ->
  no_provisional (container (fold_left (fire cfg) evs s)).
Proof.
  revert s. induction evs as [|ev evs IH]; intros s Hevs Hs Hnone; simpl;
    [done|].
  simpl in Hevs. apply andb_prop in Hevs as [Hev Hevs].
  apply IH; [done| |by apply fire_plain_final].
  by destruct (fire_plain cfg s ev Hev Hs).
Qed.

(** *** After [clear] *)



End RendererOrder.

Module TypeLaws.
Import JS Parser Spec Laws JSFacts ParserFacts ParserLaws.

(** *** The type of a block and the shape of its lines *)

Lemma trimStart_head s c t : trimStart s = c :: t -> isWhiteSpace c = false.
Proof.
  induction s as [|x s IH]; simpl; [done|].
  destruct (isWhiteSpace x) eqn:Hx; [done|]. by intros [= <- _].
Qed.

Lemma trimStart_app_visible s c t tail :
  trimStart s = c :: t -> trimStart (s ++ tail) = c :: t ++ tail.
Proof.
  induction s as [|x s IH]; simpl; [done|].
  destruct (isWhiteSpace x) eqn:Hx; [done|]. by intros [= <- <-].
Qed.

Lemma trimEnd_prefix s : trimEnd s `prefix_of` s.
Proof.
  unfold trimEnd. destruct (trimStart_suffix (rev s)) as [k Hk].
  exists (rev k). apply (f_equal (@rev N)) in Hk.
  by rewrite rev_involutive, rev_app_distr in Hk.
Qed.

Lemma fence_line_opens opening tail :
  isFence opening ->
  exists rest, trim (opening ++ tail) = FENCE ++ rest.
Proof.
  unfold isFence. intros [k Hk]%startsWith_spec.
  destruct (trimEnd_prefix (trimStart opening)) as [w Hw].
  fold (trim opening) in Hw. rewrite Hk in Hw.
  unfold trim. unfold FENCE in Hw. simpl in Hw.
  rewrite (trimStart_app_visible _ _ _ tail Hw).
  change ((96 :: 96 :: k ++ w) ++ tail) with (96 :: 96 :: (k ++ w) ++ tail).
  rewrite 3!trimEnd_cons by done. by eexists.
Qed.

Lemma fenced_block_type opening rest :
  isFence opening -> detectBlockType (join_nl (opening :: rest)) = CODE.
Proof.
  intros Ho.
  assert (H : exists k, trim (join_nl (opening :: rest)) = FENCE ++ k).
  { destruct rest as [|x rest].
    - rewrite join_nl_one, <- (app_nil_r opening).
      by apply fence_line_opens.
    - rewrite join_nl_cons by done. by apply fence_line_opens. }
  destruct H as [k Hk]. unfold detectBlockType. by rewrite Hk.
Qed.

Lemma rule_no_pipe s : forallb isRuleChar s = true -> includes PIPE s = false.
Proof.
  unfold includes. induction s as [|c s IH]; simpl; [done|].
  intros [Hc Hs]%andb_prop. rewrite (IH Hs), orb_false_r.
  unfold isRuleChar in Hc.
  apply orb_prop in Hc as [[Hc|Hc]%orb_prop|Hc];
    apply N.eqb_eq in Hc; by subst c.
Qed.

Lemma single_line_type l :
  lineKind l = SingleLine ->
  detectBlockType l = HEADING \/ detectBlockType l = HR.
Proof.
  unfold lineKind, detectBlockType.
  destruct (startsWith FENCE (trim l)) eqn:Hf; [done|].
  destruct (isTableLine (trim l)); [done|].
  destruct (negb (nonEmpty (trim l))); [done|].
  destruct (startsWith [HASH] (trim l)); [by left|].
  simpl orb. destruct (isHorizontalRule (trim l)) eqn:Hr; [|done].
  intros _. right.
  unfold isHorizontalRule in Hr. apply andb_prop in Hr as [Hall Hlen].
  rewrite (rule_no_pipe _ Hall). cbn [andb].
  destruct (trim l) as [|c [|d t]]; [done|done|].
  simpl in Hall. apply andb_prop in Hall as [Hc [Hd _]%andb_prop].
  unfold isRuleChar in Hc, Hd.
  apply orb_prop in Hc as [[Hc|Hc]%orb_prop|Hc];
    apply N.eqb_eq in Hc; subst c;
    (apply orb_prop in Hd as [[Hd|Hd]%orb_prop|Hd];
     apply N.eqb_eq in Hd; subst d; reflexivity).
Qed.

End TypeLaws.

Module StreamLaws.
Import JS Parser Spec Laws JSFacts ParserFacts ParserLaws.

(** *** The second variant: what waits in the buffer *)

Lemma last_None_nil {A} (l : list A) : last l = None -> l = [].
Proof. by intros H%last_None. Qed.

Lemma extractCompleteBlocksB_thrown b e :
  StreamB.extractCompleteBlocks b = Thrown e <->
  blank b /\ e = StreamB.trimOfUndefined.
Proof.
  unfold StreamB.extractCompleteBlocks. split.
  - destruct (last (splitIntoBlocks b)) as [lb|] eqn:Hlast.
    + by destruct (negb _ && _).
    + intros [= <-]. split; [|done].
      apply last_None_nil in Hlast.
      pose proof (splitIntoBlocks_segmented b) as Hseg.
      rewrite Hlast in Hseg. by apply segmented_nil_blank.
  - intros [Hb ->]. by rewrite splitIntoBlocks_blank.
Qed.

Lemma extractCompleteBlocksB_cases b r :
  StreamB.extractCompleteBlocks b = Returned r ->
  (fst r = splitIntoBlocks b /\ snd r = [])
  \/ exists lb post,
       last (splitIntoBlocks b) = Some lb
       /\ fst r = removelast (splitIntoBlocks b)
       /\ snd r = lb ++ post
       /\ blank post
       /\ StreamB.isBlockComplete lb b = false.
Proof.
  unfold StreamB.extractCompleteBlocks.
  pose proof (splitIntoBlocks_segmented b) as Hseg.
  destruct (last (splitIntoBlocks b)) as [lb|] eqn:Hlast; [|done].
  destruct (StreamB.isBlockComplete lb b) eqn:Hc; cbn [negb andb].
  { intros [= <-]. by left. }
  destruct (nonEmpty (splitIntoBlocks b)) eqn:Hne;
    [|intros [= <-]; by left].
  intros [= <-]. right. cbn [fst snd].
  pose proof Hlast as Hlast'.
  apply last_Some in Hlast as [front Hfront].
  assert (Hnb : notBlank lb = true).
  { apply (splitIntoBlocks_notBlank b). rewrite Hfront.
    apply in_or_app. right. by left. }
  rewrite Hfront in Hseg.
  apply segmented_last in Hseg as (pre & post & Hb & Hpre & Hpost).
  subst b.
  exists lb, post. split; [done|]. split; [done|]. split; [|done].
  rewrite lastIndexOf_last_occurrence.
  - by rewrite StreamBFacts.slice_nat, drop_app_length.
  - apply no_later_occurrence; [|done].
    intros Hbl%notBlank_false. congruence.
Qed.

(** The table test of [isBlockComplete] always passes on the last block
    of the buffer: what follows that block is white space, and trimmed it
    is empty. So only a fence that is not closed is held back. *)
Lemma held_back_is_open_fence b lb :
  last (splitIntoBlocks b) = Some lb ->
  StreamB.isBlockComplete lb b = false ->
  startsWith FENCE (trim lb) = true
  /\ (StreamB.countFences 0 (trim lb) < 2)%nat.
Proof.
  intros Hlast. unfold StreamB.isBlockComplete.
  destruct (startsWith FENCE (trim lb)).
  { intros H%Nat.leb_gt. done. }
  destruct (includes PIPE (trim lb)); [|done].
  pose proof (splitIntoBlocks_segmented b) as Hseg.
  apply last_Some in Hlast as [front Hfront].
  assert (Hnb : notBlank lb = true).
  { apply (splitIntoBlocks_notBlank b). rewrite Hfront.
    apply in_or_app. right. by left. }
  rewrite Hfront in Hseg.
  apply segmented_last in Hseg as (pre & post & -> & _ & Hpost).
  rewrite lastIndexOf_last_occurrence.
  - rewrite <- Nat2Z.inj_add, StreamBFacts.slice_nat.
    rewrite <- length_app, (app_assoc pre lb post), drop_app_length.
    apply trim_blank in Hpost. by rewrite Hpost.
  - apply no_later_occurrence; [|done].
    intros Hbl%notBlank_false. congruence.
Qed.

(** *** An opening fence without its closing line *)

Lemma countFences_none r s : ~ In 96 s -> StreamB.countFences r s = 0%nat.
Proof.
  revert r. induction s as [|c s IH]; intros r Hs; simpl; [done|].
  destruct (c =? 96) eqn:Hc.
  - apply N.eqb_eq in Hc. subst c. destruct Hs. by left.
  - apply IH. intros Hin. apply Hs. by right.
Qed.

Lemma trimStart_blank_app w s : blank w -> trimStart (w ++ s) = trimStart s.
Proof.
  unfold blank. induction w as [|c w IH]; simpl; [done|].
  intros [-> Hw]%andb_prop. by apply IH.
Qed.

Lemma trimEnd_sublist s : trimEnd s `sublist_of` s.
Proof.
  unfold trimEnd.
  pose proof (trimStart_suffix (rev s)) as [k Hk].
  apply (f_equal (@rev N)) in Hk. rewrite rev_involutive, rev_app_distr in Hk.
  rewrite Hk at 2. apply sublist_inserts_r. done.
Qed.

Lemma sublist_In {A} (l k : list A) x : l `sublist_of` k -> In x l -> In x k.
Proof.
  intros Hs Hx. apply list_elem_of_In.
  eapply elem_of_submseteq; [by apply list_elem_of_In|].
  by apply sublist_submseteq.
Qed.

Lemma trim_fence indent rest :
  blank indent -> trim (indent ++ FENCE ++ rest) = FENCE ++ trimEnd rest.
Proof.
  intros Hi. unfold trim. rewrite trimStart_blank_app by done.
  unfold FENCE. simpl. by rewrite !trimEnd_cons.
Qed.

Lemma In_join_nl c ls :
  In c (join_nl ls) -> c = NL \/ exists l, In l ls /\ In c l.
Proof.
  induction ls as [|x ls IH]; [done|].
  destruct ls as [|y ls].
  - rewrite join_nl_one. intros Hc. right. exists x. split; [by left|done].
  - rewrite join_nl_cons by done.
    intros [Hc|[[Hc|[]]|Hc]%in_app_or]%in_app_or.
    + right. exists x. split; [by left|done].
    + by left.
    + destruct (IH Hc) as [->|(l & Hl & Hcl)]; [by left|].
      right. exists l. split; [by right|done].
Qed.

Lemma countFences_fence rest :
  StreamB.countFences 0 (FENCE ++ rest) = S (StreamB.countFences 0 rest).
Proof. reflexivity. Qed.

Lemma lastIndexOf_self s : ~ blank s -> lastIndexOf s s = 0%Z.
Proof.
  intros Hs.
  pose proof (lastIndexOf_last_occurrence [] s []) as H.
  simpl in H. rewrite app_nil_r in H. apply H.
  intros k Hk. pose proof (no_later_occurrence s [] Hs eq_refl k Hk) as Hn.
  by rewrite app_nil_r in Hn.
Qed.

Lemma open_fence_is_held indent info body :
  blank indent ->
  ~ In 96 info -> Forall (fun l => ~ In 96 l) body ->
  Forall oneLine ((indent ++ FENCE ++ info) :: body) ->
  let text := join_nl ((indent ++ FENCE ++ info) :: body) in
  splitIntoBlocks text = [text]
  /\ StreamB.isBlockComplete text text = false
  /\ StreamB.extractCompleteBlocks text = Returned ([], text).
Proof.
  intros Hi Hinfo Hbody Hone text.
  assert (Ho : isFence (indent ++ FENCE ++ info)).
  { unfold isFence. by rewrite trim_fence. }
  assert (Hb : Forall (fun l => ~ isFence l) body).
  { eapply Forall_impl; [exact Hbody|]. intros l Hl Hf. apply Hl.
    unfold isFence in Hf. apply startsWith_spec in Hf as [k Hk].
    apply trim_In. rewrite Hk. by left. }
  assert (Hsplit : splitIntoBlocks text = [text])
    by (by apply splitIntoBlocks_open_fence).
  assert (Htext : exists rest,
             text = indent ++ FENCE ++ rest /\ ~ In 96 rest).
  { subst text. destruct body as [|x body].
    - rewrite join_nl_one. by exists info.
    - rewrite join_nl_cons by done.
      exists (info ++ [NL] ++ join_nl (x :: body)).
      split; [by rewrite <- !app_assoc|].
      intros [Hin|[Hin|Hin]%in_app_or]%in_app_or; [done| |].
      + by destruct Hin as [Hin|[]].
      + apply In_join_nl in Hin as [Hin|(l & Hl & Hin)]; [done|].
        rewrite Forall_forall in Hbody.
        by apply (Hbody l); [apply list_elem_of_In|]. }
  destruct Htext as (rest & Htext & Hrest).
  assert (Hc : StreamB.isBlockComplete text text = false).
  { assert (Htrim : trim text = FENCE ++ trimEnd rest)
      by (rewrite Htext; by apply trim_fence).
    unfold StreamB.isBlockComplete. cbn zeta. rewrite Htrim.
    assert (Hsw : startsWith FENCE (FENCE ++ trimEnd rest) = true)
      by reflexivity.
    rewrite Hsw, countFences_fence, countFences_none; [done|].
    intros Hin. apply Hrest. eapply sublist_In; [apply trimEnd_sublist|done]. }
  split; [done|]. split; [done|].
  unfold StreamB.extractCompleteBlocks. rewrite Hsplit. cbn [last].
  rewrite Hc. cbn [negb andb nonEmpty removelast].
  rewrite lastIndexOf_self; [done|].
  intros Hbl. apply splitIntoBlocks_blank in Hbl. by rewrite Hbl in Hsplit.
Qed.


(** *** [finish] *)

Section Finish.

Variable marked_parse : jsstring -> outcome jsstring.
Variable sanitize : jsstring -> jsstring.

Lemma finishA_blank clock s :
  blank (StreamA.buffer s) ->
  StreamA.finish marked_parse sanitize clock s = Returned s.
Proof.
  intros Hb%trim_blank. unfold StreamA.finish. by rewrite Hb.
Qed.

Lemma finishB_blank clock s :
  blank (StreamB.buffer s) ->
  StreamB.finish marked_parse sanitize clock s = Returned s.
Proof.
  intros Hb%trim_blank. unfold StreamB.finish. by rewrite Hb.
Qed.

Lemma finishA_blocks clock s s' :
  StreamA.finish marked_parse sanitize clock s = Returned s' ->
  blank (StreamA.buffer s')
  /\ exists new,
       parseBlocks marked_parse sanitize clock
         (splitIntoBlocks (StreamA.buffer s)) = Returned new
       /\ StreamA.processedBlocks s' = StreamA.processedBlocks s ++ new.
Proof.
  unfold StreamA.finish.
  destruct (nonEmpty (trim (StreamA.buffer s))) eqn:Hb.
  - destruct (splitIntoBlocks (StreamA.buffer s)) as [|x l] eqn:Hs;
      cbn [nonEmpty].
    + simpl. intros [= <-]. simpl. split; [done|].
      exists []. by rewrite app_nil_r.
    + destruct (parseBlocks _ _ _ _) as [bs|e] eqn:Hp; simpl; [|done].
      intros [= <-]. simpl. split; [done|]. by exists bs.
  - intros [= <-].
    assert (Hbl : blank (StreamA.buffer s)).
    { apply trim_blank. by destruct (trim (StreamA.buffer s)). }
    split; [done|]. exists []. rewrite app_nil_r.
    by rewrite splitIntoBlocks_blank.
Qed.

Lemma finishB_blocks clock s s' :
  StreamB.finish marked_parse sanitize clock s = Returned s' ->
  blank (StreamB.buffer s')
  /\ exists new,
       parseBlocks marked_parse sanitize clock
         (splitIntoBlocks (StreamB.buffer s)) = Returned new
       /\ StreamB.processedBlocks s' = StreamB.processedBlocks s ++ new.
Proof.
  unfold StreamB.finish.
  destruct (nonEmpty (trim (StreamB.buffer s))) eqn:Hb.
  - destruct (splitIntoBlocks (StreamB.buffer s)) as [|x l] eqn:Hs;
      cbn [nonEmpty].
    + simpl. intros [= <-]. simpl. split; [done|].
      exists []. by rewrite app_nil_r.
    + destruct (parseBlocks _ _ _ _) as [bs|e] eqn:Hp; simpl; [|done].
      intros [= <-]. simpl. split; [done|]. by exists bs.
  - intros [= <-].
    assert (Hbl : blank (StreamB.buffer s)).
    { apply trim_blank. by destruct (trim (StreamB.buffer s)). }
    split; [done|]. exists []. rewrite app_nil_r.
    by rewrite splitIntoBlocks_blank.
Qed.

(** *** The second variant: when [append] returns *)

Lemma appendB_blank clock chunk s :
  blank (StreamB.buffer s ++ chunk) ->
  StreamB.append marked_parse sanitize clock chunk s
  = Thrown StreamB.trimOfUndefined.
Proof.
  intros Hb. unfold StreamB.append, StreamB.appendBegin.
  assert (Hx : StreamB.extractCompleteBlocks (StreamB.buffer s ++ chunk)
               = Thrown StreamB.trimOfUndefined)
    by (by apply extractCompleteBlocksB_thrown).
  by rewrite Hx.
Qed.

Lemma appendB_thrown clock chunk s e :
  StreamB.append marked_parse sanitize clock chunk s = Thrown e ->
  (blank (StreamB.buffer s ++ chunk) /\ e = StreamB.trimOfUndefined)
  \/ exists c, marked_parse c = Thrown e.
Proof.
  unfold StreamB.append, StreamB.appendBegin.
  destruct (StreamB.extractCompleteBlocks _) as [[spans rest]|e'] eqn:Hx;
    simpl.
  - destruct (nonEmpty spans); [|done].
    destruct (parseBlocks _ _ _ _) as [bs|e'] eqn:Hp; simpl; [done|].
    intros [= <-]. right.
    apply parseBlocksFrom_thrown in Hp as (c & _ & Hc). by exists c.
  - intros [= <-]. left. by apply extractCompleteBlocksB_thrown.
Qed.

(** *** The first variant: a line without sentence ends *)

Lemma unbroken_app a b : unbroken (a ++ b) = true -> unbroken a = true.
Proof.
  induction a as [|c a IH]; simpl; [done|].
  intros [[Hc Hs]%andb_prop Ha]%andb_prop.
  rewrite Hc, (IH Ha), andb_true_r. simpl.
  destruct a as [|d a]; [by rewrite andb_false_r|done].
Qed.

Lemma unbroken_oneLine s : unbroken s = true -> oneLine s.
Proof.
  induction s as [|c s IH]; simpl; [by intros _ []|].
  intros [[Hc _]%andb_prop Hs]%andb_prop [Heq|Hin]; [|by apply IH].
  subst c. done.
Qed.

Lemma unbroken_sentences cur s :
  unbroken s = true -> split_sentences_from false cur s = [rev cur ++ s].
Proof.
  revert cur. induction s as [|c s IH]; intros cur; simpl.
  - by rewrite app_nil_r.
  - intros [[_ Hs]%andb_prop Hu]%andb_prop.
    apply negb_true_iff in Hs. rewrite Hs, IH by done.
    simpl. by rewrite <- app_assoc.
Qed.

Lemma indexOf_oneLine s : oneLine s -> indexOf [NL; NL] s = None.
Proof.
  induction s as [|c s IH]; [done|].
  intros Hs. cbn [indexOf startsWith].
  assert (Hc : (NL =? c) = false).
  { apply N.eqb_neq. intros <-. apply Hs. by left. }
  rewrite Hc. cbn [andb]. rewrite IH; [done|].
  intros Hin. apply Hs. by right.
Qed.

Lemma unbroken_not_cut s :
  unbroken s = true -> StreamA.extractCompleteBlocks s = ([], s).
Proof.
  intros Hu. pose proof (unbroken_oneLine s Hu) as Hl.
  unfold StreamA.extractCompleteBlocks. rewrite indexOf_oneLine by done.
  unfold StreamA.extractSentences, split_sentences.
  rewrite unbroken_sentences by done. simpl.
  unfold StreamA.extractMarker. by rewrite split_nl_oneLine.
Qed.

Lemma unbroken_append clock chunk s :
  unbroken (StreamA.buffer s ++ chunk) = true ->
  StreamA.append marked_parse sanitize clock chunk s
  = Returned (StreamA.mkState (StreamA.buffer s ++ chunk)
                (StreamA.processedBlocks s) (StreamA.renderer s)).
Proof.
  intros Hu. unfold StreamA.append, StreamA.appendBegin.
  by rewrite unbroken_not_cut.
Qed.

Lemma unbroken_run chunks s :
  unbroken (StreamA.buffer s ++ concat (map snd chunks)) = true ->
  StreamA.run marked_parse sanitize
    (map (fun c => Append (fst c) (snd c)) chunks) s
  = Returned (StreamA.mkState (StreamA.buffer s ++ concat (map snd chunks))
                (StreamA.processedBlocks s) (StreamA.renderer s)).
Proof.
  revert s. induction chunks as [|[clock chunk] chunks IH]; intros s; simpl.
  - rewrite app_nil_r. by destruct s.
  - rewrite app_assoc. intros Hu.
    rewrite unbroken_append by (by apply unbroken_app in Hu).
    simpl. by rewrite IH.
Qed.

Lemma one_line_is_one_block s :
  oneLine s -> ~ blank s -> splitIntoBlocks s = [s].
Proof.
  intros Hl Hb. apply wellFormed_stable. exists [s].
  split; [done|]. split; [by constructor|].
  destruct (lineKind s) eqn:Hk.
  - rewrite <- (app_nil_l [s]).
    change ([] ++ [s]) with (s :: [] ++ []).
    apply lines_code; [done|constructor|constructor|simpl; lia].
  - apply lines_table. by constructor.
  - exfalso. apply Hb, trim_blank. unfold lineKind in Hk.
    destruct (trim s) as [|c t]; [done|]. exfalso.
    cbn [nonEmpty negb] in Hk.
    by repeat match type of Hk with
              | (if ?b then _ else _) = _ => destruct b
              end.
  - by apply lines_single.
  - apply lines_text. by constructor.
Qed.

End Finish.

End StreamLaws.

Module HeldBackLaws.
Import JS Parser Spec Laws JSFacts ParserFacts ParserLaws TypeLaws StreamLaws.

(** *** What the second variant holds back *)

Lemma trimStart_visible u c v :
  isWhiteSpace c = false -> trimStart (u ++ c :: v) = trimStart u ++ c :: v.
Proof.
  intros Hc. induction u as [|x u IH]; simpl; [by rewrite Hc|].
  by destruct (isWhiteSpace x).
Qed.

Lemma trimEnd_visible x c y :
  isWhiteSpace c = false -> trimEnd (x ++ c :: y) = x ++ c :: trimEnd y.
Proof.
  intros Hc. unfold trimEnd.
  rewrite rev_app_distr. simpl. rewrite <- app_assoc. simpl.
  rewrite (trimStart_visible (rev y) c (rev x)) by done.
  rewrite rev_app_distr. simpl. rewrite rev_involutive, <- app_assoc. done.
Qed.

Lemma trimStart_split l : exists w, l = w ++ trimStart l /\ blank w.
Proof.
  induction l as [|c l (w & Hl & Hw)]; simpl; [by exists []|].
  destruct (isWhiteSpace c) eqn:Hc; [|by exists []].
  exists (c :: w). split; [by rewrite Hl at 1|].
  unfold blank in *. simpl. by rewrite Hc, Hw.
Qed.

Lemma fence_line_split l :
  isFence l ->
  exists indent rest, l = indent ++ FENCE ++ rest /\ blank indent.
Proof.
  unfold isFence. intros [k Hk]%startsWith_spec.
  destruct (trimStart_split l) as (w & Hl & Hw).
  destruct (trimEnd_prefix (trimStart l)) as [w2 Hw2].
  fold (trim l) in Hw2. rewrite Hk in Hw2.
  exists w, (k ++ w2). split; [|done].
  rewrite Hl at 1. by rewrite Hw2, <- app_assoc.
Qed.

Lemma countFences_contains r a b :
  (r <= 2)%nat -> (1 <= StreamB.countFences r (a ++ FENCE ++ b))%nat.
Proof.
  revert r. induction a as [|c a IH]; intros r Hr.
  - destruct r as [|[|[|r]]]; simpl; lia.
  - simpl. destruct (c =? 96).
    + destruct (Nat.eqb r 2) eqn:Hr2; [lia|].
      apply Nat.eqb_neq in Hr2. apply IH. lia.
    + apply IH. lia.
Qed.

Lemma join_nl_ends o body c :
  exists mid, join_nl (o :: body ++ [c]) = o ++ mid ++ c.
Proof.
  rewrite join_nl_cons by (by destruct body).
  destruct body as [|x body].
  - exists [NL]. done.
  - rewrite (join_nl_snoc (x :: body)) by done.
    exists ([NL] ++ join_nl (x :: body) ++ [NL]).
    by rewrite <- !app_assoc.
Qed.

(** A closed fenced block holds two fence marks. *)
Lemma closed_fence_count opening body closing :
  isFence opening -> isFence closing ->
  (2 <= StreamB.countFences 0
          (trim (join_nl (opening :: body ++ [closing]))))%nat.
Proof.
  intros (i1 & k1 & -> & Hi1)%fence_line_split
         (i2 & k2 & -> & Hi2)%fence_line_split.
  destruct (join_nl_ends (i1 ++ FENCE ++ k1) body (i2 ++ FENCE ++ k2))
    as [mid ->].
  rewrite <- !app_assoc. rewrite trim_fence by done.
  set (Y := k1 ++ mid ++ i2).
  replace (k1 ++ mid ++ i2 ++ FENCE ++ k2) with (Y ++ 96 :: 96 :: 96 :: k2)
    by (subst Y; by rewrite <- !app_assoc).
  rewrite trimEnd_visible by done. rewrite !trimEnd_cons by done.
  rewrite countFences_fence.
  pose proof (countFences_contains 0 Y (trimEnd k2)) as H.
  unfold FENCE in H. simpl in H. specialize (H ltac:(lia)). simpl. lia.
Qed.

(** A block whose first line is no fence line and not blank does not
    start with a fence. *)
Lemma not_fence_start l rest :
  lineKind l <> FenceLine -> lineKind l <> BlankLine ->
  startsWith FENCE (trim (join_nl (l :: rest))) = false.
Proof.
  intros Hf Hb.
  assert (Hl : startsWith FENCE (trim l) = false).
  { destruct (startsWith FENCE (trim l)) eqn:H; [|done].
    destruct Hf. by apply lineKind_fence. }
  destruct rest as [|x rest]; [by rewrite join_nl_one|].
  rewrite join_nl_cons by done.
  destruct (startsWith FENCE (trim (l ++ [NL] ++ join_nl (x :: rest))))
    eqn:H; [|done].
  exfalso. apply lineKind_nonblank in Hb.
  destruct (trimStart l) as [|c t] eqn:Ht.
  { unfold trim in Hb. by rewrite Ht in Hb. }
  apply startsWith_spec in H as [z Hz]. unfold trim in Hz.
  rewrite (trimStart_app_visible _ _ _ _ Ht) in Hz.
  destruct (trimEnd_prefix (c :: t ++ [NL] ++ join_nl (x :: rest)))
    as [w Hw].
  rewrite Hz in Hw. unfold FENCE in Hw. simpl in Hw.
  injection Hw as -> Hw.
  destruct t as [|d [|e t]]; simpl in Hw; try (by injection Hw).
  injection Hw as -> -> Hw.
  assert (Htrim : trim l = FENCE ++ trimEnd t).
  { unfold trim. rewrite Ht. unfold FENCE. simpl.
    by rewrite !trimEnd_cons. }
  by rewrite Htrim in Hl.
Qed.

Lemma lines_fence_ok it cur :
  (if it : bool then Forall (fun l => lineKind l = TableLine) cur
   else Forall (fun l => lineKind l = TextLine) cur) ->
  join_nl cur = [] \/ fence_ok (join_nl cur).
Proof.
  intros Hk. destruct cur as [|l ls]; [by left|]. right. left.
  assert (Hl : lineKind l = TableLine \/ lineKind l = TextLine).
  { destruct it; apply Forall_cons in Hk as [Hl _]; [by left|by right]. }
  apply not_fence_start; destruct Hl as [-> | ->]; done.
Qed.

Lemma flushCurrent_fence_ok B cur it :
  shape_inv (mkSplit B cur false it) ->
  fence_inv (mkSplit B cur false it) ->
  fence_inv (flushCurrent (mkSplit B cur false it)).
Proof.
  unfold fence_inv, flushCurrent.
  cbn [blocks currentBlock inCodeBlock inTable].
  intros (_ & _ & Hk) HB. cbn [inCodeBlock inTable currentBlock] in Hk.
  destruct (nonEmpty cur) eqn:Hc; cbn [blocks]; [|done].
  apply Forall_app. split; [done|]. constructor; [|constructor].
  by apply (lines_fence_ok it).
Qed.

Lemma leaveTable_fence_ok B cur it :
  shape_inv (mkSplit B cur false it) ->
  fence_inv (mkSplit B cur false it) ->
  fence_inv (leaveTable (mkSplit B cur false it)).
Proof.
  unfold fence_inv, leaveTable.
  cbn [blocks currentBlock inCodeBlock inTable].
  intros (_ & _ & Hk) HB. cbn [inCodeBlock inTable currentBlock] in Hk.
  destruct it; cbn [blocks]; [|done].
  apply Forall_app. split; [done|]. constructor; [|constructor].
  by apply (lines_fence_ok true).
Qed.

Lemma splitLine_fence_ok st l :
  shape_inv st -> fence_inv st -> fence_inv (splitLine st l).
Proof.
  intros H Hs. destruct st as [B cur ic it]. destruct ic.
  - destruct H as (_ & _ & (opening & body & Hcur & Ho & Hbody)).
    cbn in Hcur. subst cur.
    destruct (decide (lineKind l = FenceLine)) as [Hk|Hk].
    + rewrite splitLine_in_code_fence by done.
      unfold fence_inv in *. cbn [blocks] in *.
      apply Forall_app. split; [done|]. constructor; [|constructor].
      right. right. apply closed_fence_count; by apply lineKind_fence.
    + by rewrite splitLine_in_code_other.
  - destruct (lineKind l) eqn:Hk.
    + rewrite splitLine_open_fence by done. cbn zeta.
      by apply flushCurrent_fence_ok.
    + rewrite splitLine_table by done. cbn zeta.
      destruct it; cbn [negb]; [done|]. by apply flushCurrent_fence_ok.
    + rewrite splitLine_blank by done.
      pose proof (leaveTable_fence_ok _ _ _ H Hs) as Hs1.
      destruct (leaveTable_shape _ _ _ H) as (B' & cur' & Heq & H1).
      rewrite Heq in Hs1 |- *. by apply flushCurrent_fence_ok.
    + rewrite splitLine_single by done. cbn zeta.
      pose proof (leaveTable_fence_ok _ _ _ H Hs) as Hs1.
      destruct (leaveTable_shape _ _ _ H) as (B' & cur' & Heq & H1).
      rewrite Heq in Hs1 |- *.
      pose proof (flushCurrent_fence_ok _ _ _ H1 Hs1) as Hs2.
      unfold fence_inv in *. cbn [blocks].
      apply Forall_app. split; [done|]. constructor; [|constructor].
      right. left. rewrite <- (join_nl_one l).
      apply not_fence_start; by rewrite Hk.
    + rewrite splitLine_text by done. cbn zeta.
      by apply leaveTable_fence_ok.
Qed.

Lemma fold_splitLine_fence_ok lines st :
  Forall oneLine lines -> shape_inv st -> fence_inv st ->
  fence_inv (fold_left splitLine lines st).
Proof.
  revert st. induction lines as [|l lines IH]; intros st Hl H Hs; simpl;
    [done|].
  apply Forall_cons in Hl as [Hl Hls].
  apply IH; [done|by apply splitLine_shape|by apply splitLine_fence_ok].
Qed.

Lemma filter_notBlank_snoc B x :
  notBlank x = true ->
  List.filter notBlank (B ++ [x]) = List.filter notBlank B ++ [x].
Proof. intros H. rewrite List.filter_app. simpl. by rewrite H. Qed.

(** The last block passes the fence test, or it is a fenced block that
    runs to the end of the text. *)
Lemma last_block_passes_or_tail b lb :
  last (splitIntoBlocks b) = Some lb -> fence_ok lb \/ lb `suffix_of` b.
Proof.
  unfold splitIntoBlocks.
  set (st := fold_left splitLine (split_nl b) (mkSplit [] [] false false)).
  assert (Hshape : shape_inv st).
  { apply fold_splitLine_shape; [apply split_nl_lines|].
    split; [constructor|]. split; constructor. }
  assert (Hset : fence_inv st).
  { apply fold_splitLine_fence_ok; [apply split_nl_lines| |constructor].
    split; [constructor|]. split; constructor. }
  assert (Hinv : split_inv st (split_nl b)).
  { apply (fold_splitLine_inv (split_nl b) _ []).
    exists []. split; [by constructor|done]. }
  clearbody st. destruct st as [B cur ic it]. destruct ic.
  - destruct Hshape as (_ & _ & (opening & body & Hcur & Ho & Hbody)).
    cbn in Hcur. subst cur. unfold flushCurrent. cbn.
    change (match body with
            | [] => opening
            | _ :: _ => opening ++ NL :: join_nl body
            end) with (join_nl (opening :: body)).
    rewrite filter_notBlank_snoc
      by (apply first_line_notBlank; by rewrite Ho).
    rewrite last_snoc. intros [= <-]. right.
    destruct Hinv as (s0 & _ & Hj & _). cbn in Hj.
    rewrite join_split_nl in Hj. by exists s0.
  - pose proof (flushCurrent_fence_ok _ _ _ Hshape Hset) as Hfin.
    intros Hlast. left.
    apply last_Some in Hlast as [front Hfront].
    assert (Hin : In lb (List.filter notBlank
                           (blocks (flushCurrent (mkSplit B cur false it)))))
      by (rewrite Hfront; apply in_or_app; right; by left).
    apply filter_In in Hin as [Hin Hnb].
    unfold fence_inv in Hfin. rewrite Forall_forall in Hfin.
    destruct (Hfin lb) as [->|?]; [by apply list_elem_of_In|done|done].
Qed.

(** The block held back is a fenced block that is not closed and runs to
    the end of the buffer; it is kept as it is. *)
Lemma held_back_is_the_tail b r :
  StreamB.extractCompleteBlocks b = Returned r ->
  (fst r = splitIntoBlocks b /\ snd r = [])
  \/ exists lb,
       last (splitIntoBlocks b) = Some lb
       /\ fst r = removelast (splitIntoBlocks b)
       /\ snd r = lb
       /\ lb `suffix_of` b
       /\ startsWith FENCE (trim lb) = true
       /\ (StreamB.countFences 0 (trim lb) < 2)%nat.
Proof.
  intros Hx.
  destruct (extractCompleteBlocksB_cases b r Hx)
    as [H|(lb & post & Hlast & Hfst & Hsnd & Hpost & Hc)]; [by left|].
  right. exists lb.
  destruct (held_back_is_open_fence b lb Hlast Hc) as [Hf Hn].
  destruct (last_block_passes_or_tail b lb Hlast) as [[Hs|Hs]|Hsuf].
  { congruence. }
  { lia. }
  repeat (split; [done|]). split; [|done].
  (* the buffer left is found by the same search, now with nothing after *)
  revert Hx. unfold StreamB.extractCompleteBlocks. rewrite Hlast, Hc.
  assert (Hne : nonEmpty (splitIntoBlocks b) = true).
  { apply last_Some in Hlast as [front ->]. by destruct front. }
  rewrite Hne. cbn [negb andb]. intros [= <-]. cbn [snd].
  destruct Hsuf as [pre ->].
  assert (Hnb : ~ blank lb).
  { intros Hb%trim_blank. by rewrite Hb in Hf. }
  pose proof (lastIndexOf_last_occurrence pre lb []) as Hl.
  rewrite app_nil_r in Hl. rewrite Hl.
  - by rewrite StreamBFacts.slice_nat, drop_app_length.
  - intros k Hk. pose proof (no_later_occurrence lb [] Hnb eq_refl k Hk) as Hn'.
    by rewrite app_nil_r in Hn'.
Qed.

(** The block held back is one block for the splitter as well. *)
Lemma held_back_is_one_block b r :
  StreamB.extractCompleteBlocks b = Returned r ->
  (fst r = splitIntoBlocks b /\ snd r = [])
  \/ exists lb,
       last (splitIntoBlocks b) = Some lb
       /\ fst r = removelast (splitIntoBlocks b)
       /\ snd r = lb
       /\ lb `suffix_of` b
       /\ startsWith FENCE (trim lb) = true
       /\ (StreamB.countFences 0 (trim lb) < 2)%nat
       /\ splitIntoBlocks lb = [lb].
Proof.
  intros H. apply held_back_is_the_tail in H
    as [H|(lb & Hlast & ? & ? & ? & ? & ?)]; [by left|].
  right. exists lb. repeat (split; [done|]).
  apply ParserLaws.wellFormed_stable.
  pose proof (ParserLaws.splitIntoBlocks_wellFormed b) as Hw.
  rewrite Forall_forall in Hw. apply Hw.
  apply last_Some in Hlast as [front ->].
  apply list_elem_of_In, in_or_app. right. by left.
Qed.

End HeldBackLaws.

Module WorkerParserLaws.
Import JS Parser WorkerParser Laws.

Section Exchange.

Variable marked_parse : jsstring -> Worker.attempt jsstring.
Variable sanitize : jsstring -> Worker.attempt jsstring.

Lemma answer_has_no_id request reply :
  answer marked_parse sanitize request = Some reply ->
  payloadId reply = None.
Proof.
  unfold answer. destruct (Worker.onMessage _ _ _); [|done].
  by intros [= <-].
Qed.

Lemma handleMessage_no_id event s :
  payloadId event = None -> handleMessage event s = s.
Proof.
  unfold handleMessage. intros ->. by destruct (data event).
Qed.

Lemma exchange_pending s blocks :
  exchange marked_parse sanitize s blocks
  = mkState ({[requestId s]} ∪ pendingRequests s) (S (requestId s))
            (settled s).
Proof.
  unfold exchange, parseBlocks.
  destruct (answer _ _ _) as [reply|] eqn:Ha; [|done].
  apply answer_has_no_id in Ha. by apply handleMessage_no_id.
Qed.

Lemma exchanges_pending batches s :
  let s' := fold_left (exchange marked_parse sanitize) batches s in
  settled s' = settled s
  /\ requestId s' = (requestId s + length batches)%nat
  /\ forall id,
       id ∈ pendingRequests s' <->
       id ∈ pendingRequests s
       \/ (requestId s <= id < requestId s + length batches)%nat.
Proof.
  revert s. induction batches as [|b batches IH]; intros s; simpl.
  - split; [done|]. split; [lia|]. intros id. split; [by left|].
    intros [?|?]; [done|lia].
  - rewrite exchange_pending.
    destruct (IH (mkState ({[requestId s]} ∪ pendingRequests s)
                          (S (requestId s)) (settled s)))
      as (Hs & Hr & Hp).
    simpl in Hs, Hr, Hp. split; [done|]. split; [lia|].
    intros id. rewrite Hp. rewrite elem_of_union, elem_of_singleton.
    destruct (decide (id = requestId s)) as [->|Hne].
    + split; [intros _; right; lia|intros _; left; by left].
    + split.
      * intros [[?|?]|?]; [done|by left|right; lia].
      * intros [?|?]; [left; by right|right; lia].
Qed.

End Exchange.

(** *** Each promise is settled at most once *)

Lemma settle_ok id how s : client_ok s -> client_ok (settle id how s).
Proof.
  intros (Hnd & Hp & Hs). unfold settle.
  destruct (bool_decide (id ∈ pendingRequests s)) eqn:Hid; [|done].
  apply bool_decide_eq_true in Hid.
  split; [|split]; simpl.
  - rewrite map_app. simpl. apply NoDup_app. split; [done|]. split.
    + intros x Hx [->|[]%elem_of_nil]%elem_of_cons.
      apply list_elem_of_In, Hs in Hx as [_ Hx]. done.
    + apply NoDup_singleton.
  - intros i [Hi _]%elem_of_difference. by apply Hp.
  - rewrite map_app. simpl. intros i [Hi|[<-|[]]]%in_app_or.
    + destruct (Hs i Hi) as [? ?]. split; [done|].
      by intros [? _]%elem_of_difference.
    + split; [by apply Hp|].
      intros [_ Hn]%elem_of_difference. apply Hn. by apply elem_of_singleton.
Qed.

Lemma step_ok s st : client_ok s -> client_ok (step s st).
Proof.
  intros H. destruct st as [blocks|event|]; simpl.
  - destruct H as (Hnd & Hp & Hs). split; [done|]. split; simpl.
    + intros id [->%elem_of_singleton|Hid]%elem_of_union; [lia|].
      apply Hp in Hid. lia.
    + intros id Hid. destruct (Hs id Hid) as [Hlt Hnot].
      split; [lia|]. rewrite elem_of_union, elem_of_singleton.
      intros [->|?]; [lia|done].
  - unfold handleMessage.
    destruct (data event), (payloadId event); try done; by apply settle_ok.
  - destruct H as (Hnd & Hp & Hs). split; [done|]. split; simpl.
    + intros id Hid. by apply elem_of_empty in Hid.
    + intros id Hid. destruct (Hs id Hid) as [Hlt Hnot].
      split; [done|]. apply not_elem_of_empty.
Qed.

Lemma steps_ok sts s : client_ok s -> client_ok (fold_left step sts s).
Proof.
  revert s. induction sts as [|st sts IH]; intros s H; simpl; [done|].
  by apply IH, step_ok.
Qed.

Lemma init_client_ok : client_ok init.
Proof.
  split; [constructor|]. split; [|by intros id []].
  intros id Hid. by apply elem_of_empty in Hid.
Qed.

End WorkerParserLaws.

Module ComponentLaws.
Import JS Parser Spec Laws Component JSFacts ParserFacts.

Lemma chunkLoop_concat fuel n i content :
  (1 <= n)%nat -> (length content - i <= fuel)%nat ->
  concat (chunkLoop fuel n i content) = drop i content.
Proof.
  intros Hn. revert i. induction fuel as [|fuel IH]; intros i Hf; simpl.
  - by rewrite drop_ge by lia.
  - destruct (i <? length content)%nat eqn:Hi.
    + apply Nat.ltb_lt in Hi. simpl. rewrite IH by lia.
      unfold sliceBetween. replace (i + n - i)%nat with n by lia.
      rewrite <- drop_drop. apply take_drop.
    + apply Nat.ltb_ge in Hi. by rewrite drop_ge by lia.
Qed.

Lemma chunkLoop_sizes fuel n i content :
  (1 <= n)%nat ->
  Forall (fun c => (1 <= length c <= n)%nat) (chunkLoop fuel n i content).
Proof.
  intros Hn. revert i. induction fuel as [|fuel IH]; intros i; simpl;
    [constructor|].
  destruct (i <? length content)%nat eqn:Hi; [|constructor].
  apply Nat.ltb_lt in Hi. constructor; [|apply IH].
  unfold sliceBetween. rewrite length_take, length_drop. lia.
Qed.

Lemma chunkLoop_full fuel n i content k c :
  chunkLoop fuel n i content !! k = Some c ->
  is_Some (chunkLoop fuel n i content !! S k) ->
  length c = n.
Proof.
  revert i k. induction fuel as [|fuel IH]; intros i k; simpl; [done|].
  destruct (i <? length content)%nat eqn:Hi; [|done].
  destruct k as [|k]; simpl.
  - intros [= <-]. destruct fuel as [|fuel]; simpl; [by intros [? ?]|].
    destruct (i + n <? length content)%nat eqn:Hin; [|by intros [? ?]].
    apply Nat.ltb_lt in Hin. intros _.
    unfold sliceBetween. rewrite length_take, length_drop. lia.
  - apply IH.
Qed.

Lemma stamped_snd clocks k cs : map snd (stamped clocks k cs) = cs.
Proof.
  revert k. induction cs as [|c cs IH]; intros k; simpl; [done|].
  by rewrite IH.
Qed.

Lemma appended_streamCalls clocks content :
  appended (streamCalls clocks content) = content.
Proof.
  unfold streamCalls. cbn zeta.
  rewrite StreamFacts.appended_session, stamped_snd.
  unfold chunks. rewrite chunkLoop_concat by lia. done.
Qed.

(** *** The watcher beside code that renders only *)

Section Watch.

Variable marked_parse : jsstring -> outcome jsstring.
Variable sanitize : jsstring -> jsstring.

Lemma appendDuringA_accounted during clock chunk s s' inp :
  rendersOnlyA during ->
  StreamA.appendDuring marked_parse sanitize during clock chunk s
    = Returned s' ->
  accounted s inp -> accounted s' (inp ++ chunk).
Proof.
  intros Hd. unfold StreamA.appendDuring, StreamA.appendBegin, accounted.
  pose proof (StreamAFacts.extractCompleteBlocks_ok
                (StreamA.buffer s ++ chunk)) as (He & _ & _).
  destruct (StreamA.extractCompleteBlocks (StreamA.buffer s ++ chunk))
    as [spans rest].
  simpl in He. destruct (nonEmpty spans) eqn:Hne.
  - destruct (parseBlocks _ _ _ _) as [bs|e] eqn:Hp; simpl; [|done].
    intros [= <-] Hi. simpl. destruct (Hd (StreamA.mkState rest
      (StreamA.processedBlocks s) (StreamA.renderer s))) as [-> ->].
    simpl. apply parseBlocks_text in Hp. rewrite textOf_app, Hp.
    exact (StreamAFacts.accounted_step _ _ _ _ _ _ He Hi).
  - intros [= <-] Hi. simpl. apply nonEmpty_false in Hne. subst spans.
    pose proof (StreamAFacts.accounted_step _ [] _ _ _ _ He Hi) as H.
    simpl in H. by rewrite app_nil_r in H.
Qed.

Lemma finishDuringA_accounted during clock s s' inp :
  rendersOnlyA during ->
  StreamA.finishDuring marked_parse sanitize during clock s = Returned s' ->
  accounted s inp -> accounted s' inp /\ blank (StreamA.buffer s').
Proof.
  intros Hd. unfold StreamA.finishDuring, accounted.
  destruct (nonEmpty (trim (StreamA.buffer s))) eqn:Hb.
  - pose proof (splitIntoBlocks_erase (StreamA.buffer s)) as He.
    assert (He' : erase_ws (concat (splitIntoBlocks (StreamA.buffer s)) ++ [])
                           (StreamA.buffer s ++ []))
      by (by rewrite !app_nil_r).
    destruct (nonEmpty (splitIntoBlocks (StreamA.buffer s))) eqn:Hne.
    + destruct (parseBlocks _ _ _ _) as [bs|e] eqn:Hp; simpl; [|done].
      intros [= <-] Hi. simpl. split; [|done].
      destruct (Hd s) as [_ ->].
      apply parseBlocks_text in Hp. rewrite textOf_app, Hp.
      pose proof (StreamAFacts.accounted_step _ _ _ _ _ _ He' Hi) as H.
      by rewrite (app_nil_r inp) in H.
    + simpl. intros [= <-] Hi. simpl. split; [|done].
      apply nonEmpty_false in Hne. rewrite Hne in He'.
      pose proof (StreamAFacts.accounted_step _ _ _ _ _ _ He' Hi) as H.
      simpl in H. by rewrite (app_nil_r inp), app_nil_r in H.
  - intros [= <-] Hi. split; [done|]. apply trim_blank.
    by destruct (trim (StreamA.buffer s)).
Qed.

Lemma watchLoopA_accounted others clocks k cs s s' inp :
  (forall n, rendersOnlyA (others n)) ->
  watchLoopA marked_parse sanitize others clocks k cs s = Returned s' ->
  accounted s inp ->
  accounted s' (inp ++ concat cs) /\ blank (StreamA.buffer s').
Proof.
  intros Hd. revert k s inp.
  induction cs as [|c cs IH]; intros k s inp; cbn [watchLoopA concat].
  - rewrite app_nil_r. by apply finishDuringA_accounted.
  - destruct (StreamA.appendDuring _ _ _ _ c s) as [s1|e] eqn:Ha; simpl;
      [|done].
    intros Hr Hi. rewrite app_assoc. eapply IH; [exact Hr|].
    apply (appendDuringA_accounted _ _ _ _ _ inp) in Ha; [|done|done].
    unfold accounted in *.
    match goal with
    | |- context [others ?n s1] => by destruct (Hd n s1) as [-> ->]
    end.
Qed.

Lemma appendDuringB_accounted during clock chunk s s' inp :
  rendersOnlyB during ->
  StreamB.appendDuring marked_parse sanitize during clock chunk s
    = Returned s' ->
  accountedB s inp -> accountedB s' (inp ++ chunk).
Proof.
  intros Hd. unfold StreamB.appendDuring, StreamB.appendBegin, accountedB.
  destruct (StreamB.extractCompleteBlocks (StreamB.buffer s ++ chunk))
    as [[spans rest]|e] eqn:Hx; simpl; [|done].
  apply StreamBFacts.extractCompleteBlocks_okB in Hx as [He _].
  simpl in He. destruct (nonEmpty spans) eqn:Hne.
  - destruct (parseBlocks _ _ _ _) as [bs|e] eqn:Hp; simpl; [|done].
    intros [= <-] Hi. simpl. destruct (Hd (StreamB.mkState rest
      (StreamB.lastProcessedIndex s) (StreamB.processedBlocks s)
      (StreamB.renderer s))) as [-> ->].
    simpl. apply parseBlocks_text in Hp. rewrite textOf_app, Hp.
    exact (StreamAFacts.accounted_step _ _ _ _ _ _ He Hi).
  - intros [= <-] Hi. simpl. apply nonEmpty_false in Hne. subst spans.
    pose proof (StreamAFacts.accounted_step _ [] _ _ _ _ He Hi) as H.
    simpl in H. by rewrite app_nil_r in H.
Qed.

Lemma finishDuringB_accounted during clock s s' inp :
  rendersOnlyB during ->
  StreamB.finishDuring marked_parse sanitize during clock s = Returned s' ->
  accountedB s inp -> accountedB s' inp /\ blank (StreamB.buffer s').
Proof.
  intros Hd. unfold StreamB.finishDuring, accountedB.
  destruct (nonEmpty (trim (StreamB.buffer s))) eqn:Hb.
  - pose proof (splitIntoBlocks_erase (StreamB.buffer s)) as He.
    assert (He' : erase_ws (concat (splitIntoBlocks (StreamB.buffer s)) ++ [])
                           (StreamB.buffer s ++ []))
      by (by rewrite !app_nil_r).
    destruct (nonEmpty (splitIntoBlocks (StreamB.buffer s))) eqn:Hne.
    + destruct (parseBlocks _ _ _ _) as [bs|e] eqn:Hp; simpl; [|done].
      intros [= <-] Hi. simpl. split; [|done].
      destruct (Hd s) as [_ ->].
      apply parseBlocks_text in Hp. rewrite textOf_app, Hp.
      pose proof (StreamAFacts.accounted_step _ _ _ _ _ _ He' Hi) as H.
      by rewrite (app_nil_r inp) in H.
    + simpl. intros [= <-] Hi. simpl. split; [|done].
      apply nonEmpty_false in Hne. rewrite Hne in He'.
      pose proof (StreamAFacts.accounted_step _ _ _ _ _ _ He' Hi) as H.
      simpl in H. by rewrite (app_nil_r inp), app_nil_r in H.
  - intros [= <-] Hi. split; [done|]. apply trim_blank.
    by destruct (trim (StreamB.buffer s)).
Qed.

Lemma watchLoopB_accounted others clocks k cs s s' inp :
  (forall n, rendersOnlyB (others n)) ->
  watchLoopB marked_parse sanitize others clocks k cs s = Returned s' ->
  accountedB s inp ->
  accountedB s' (inp ++ concat cs) /\ blank (StreamB.buffer s').
Proof.
  intros Hd. revert k s inp.
  induction cs as [|c cs IH]; intros k s inp; cbn [watchLoopB concat].
  - rewrite app_nil_r. by apply finishDuringB_accounted.
  - destruct (StreamB.appendDuring _ _ _ _ c s) as [s1|e] eqn:Ha; simpl;
      [|done].
    intros Hr Hi. rewrite app_assoc. eapply IH; [exact Hr|].
    apply (appendDuringB_accounted _ _ _ _ _ inp) in Ha; [|done|done].
    unfold accountedB in *.
    match goal with
    | |- context [others ?n s1] => by destruct (Hd n s1) as [-> ->]
    end.
Qed.

End Watch.

End ComponentLaws.

Module ConversionLaws.
Import JS Parser Spec JSFacts ParserFacts ParserLaws.

(** *** The parser and the worker convert alike *)

Lemma parser_worker_agree mp sz wsz clock i (blocks : list Block) :
  (forall h, wsz h = Worker.Done (sz h)) ->
  match parseBlocksFrom mp sz clock i (map content blocks),
        Worker.convertAll (fun c => Worker.ofOutcome (mp c)) wsz blocks with
  | Returned parsed, Worker.Done results =>
      map html parsed = map html results
      /\ map content parsed = map content results
  | Thrown e, Worker.Raise r => Worker.errorMessage r = e
  | _, _ => False
  end.
Proof.
  intros Hs. revert i. induction blocks as [|b blocks IH]; intros i; simpl;
    [done|].
  unfold parseBlock, Worker.convert.
  destruct (mp (content b)) as [h|e]; simpl; [|done]. rewrite Hs.
  specialize (IH (S i)).
  destruct (parseBlocksFrom mp sz clock (S i) (map content blocks)),
           (Worker.convertAll _ wsz blocks); simpl; try done.
  destruct IH as [-> ->]. done.
Qed.

(** With no sanitizer to call, the worker fails on the first entry of a
    batch that the page converts. *)
Lemma worker_without_sanitizer mp sz wsz clock i (blocks : list Block)
    parsed r :
  (forall h, wsz h = Worker.Raise r) ->
  blocks <> [] ->
  parseBlocksFrom mp sz clock i (map content blocks) = Returned parsed ->
  Worker.convertAll (fun c => Worker.ofOutcome (mp c)) wsz blocks
  = Worker.Raise r.
Proof.
  intros Hs Hne. destruct blocks as [|b blocks]; [done|]. simpl.
  unfold parseBlock, Worker.convert.
  destruct (mp (content b)) as [h|e]; simpl; [|done]. by rewrite Hs.
Qed.

(** *** [escapeHtml] loses nothing *)

Lemma escapeChar_prefix_free c d x y :
  escapeChar c ++ x = escapeChar d ++ y -> c = d /\ x = y.
Proof.
  unfold escapeChar.
  destruct (c =? 38) eqn:Hc1; [|destruct (c =? 60) eqn:Hc2;
    [|destruct (c =? 62) eqn:Hc3; [|destruct (c =? 34) eqn:Hc4;
      [|destruct (c =? 39) eqn:Hc5]]]];
  (destruct (d =? 38) eqn:Hd1; [|destruct (d =? 60) eqn:Hd2;
    [|destruct (d =? 62) eqn:Hd3; [|destruct (d =? 34) eqn:Hd4;
      [|destruct (d =? 39) eqn:Hd5]]]]);
  repeat match goal with
         | H : (_ =? _) = true |- _ => apply N.eqb_eq in H; subst
         | H : (_ =? _) = false |- _ => apply N.eqb_neq in H
         end;
  cbn; intros [= ]; subst; try done.
Qed.

Lemma escapeHtml_inj a b : escapeHtml a = escapeHtml b -> a = b.
Proof.
  unfold escapeHtml. revert b.
  induction a as [|c a IH]; intros b; simpl.
  - destruct b as [|d b]; [done|]. simpl. unfold escapeChar.
    by repeat match goal with |- context [if ?c then _ else _] =>
                destruct c end.
  - destruct b as [|d b]; simpl.
    + unfold escapeChar.
      by repeat match goal with |- context [if ?c then _ else _] =>
                  destruct c end.
    + intros [-> H]%escapeChar_prefix_free. f_equal. by apply IH.
Qed.

Lemma escapeHtml_app a b : escapeHtml (a ++ b) = escapeHtml a ++ escapeHtml b.
Proof. apply flat_map_app. Qed.

Lemma escapeChar_id c :
  c <> 38 -> c <> 60 -> c <> 62 -> c <> 34 -> c <> 39 -> escapeChar c = [c].
Proof.
  intros H1 H2 H3 H4 H5. unfold escapeChar.
  by rewrite !(proj2 (N.eqb_neq _ _)).
Qed.

End ConversionLaws.

Module Renderer0Laws.
Import JS Parser Spec Laws JSFacts Renderer RendererFacts RendererLaws
       RendererOrder.

Lemma renderOne_final p block :
  isTemp (id block) = false -> renderOne p block = Renderer0.renderOne p block.
Proof. intros H. unfold renderOne, Renderer0.renderOne. by rewrite H. Qed.

Lemma fold_renderOne_plain chunk p :
  allFinal chunk ->
  fold_left renderOne chunk p = fold_left Renderer0.renderOne chunk p.
Proof.
  unfold allFinal. revert p.
  induction chunk as [|b chunk IH]; intros p H; simpl; [done|].
  simpl in H. apply andb_prop in H as [Hb%negb_true_iff H].
  by rewrite renderOne_final, IH.
Qed.

Lemma nextDelay_capped cfg t :
  nextDelay cfg t = Qmin (Renderer0.nextDelay cfg t) 8.
Proof.
  unfold nextDelay, Renderer0.nextDelay. by destruct (Qlt_le_dec 16 t).
Qed.

Lemma same_scheduleRender s s0 :
  same_but_delays s s0 ->
  same_but_delays (scheduleRender s) (scheduleRender s0).
Proof.
  intros Hsame.
  pose proof Hsame as (Hc & Hm & Hr & Hp & Hi & Hl & Hn & Hh & Ht).
  unfold scheduleRender. rewrite Hr.
  destruct (rafId s0); [done|].
  unfold same_but_delays. simpl. by rewrite Hc, Hm, Hp, Hi, Hl, Hn, Hh.
Qed.

Lemma plain_clear s : plain s -> plain (clear s).
Proof. by intros (? & ? & ?). Qed.

Lemma same_fire cfg s s0 ev :
  plainEvent ev = true -> plain s -> same_but_delays s s0 ->
  plain (fire cfg s ev) /\ same_but_delays (fire cfg s ev) (fire0 cfg s0 ev).
Proof.
  intros Hev Hs Hsame.
  pose proof Hs as (Hrend & Hlast & Hpf).
  pose proof Hsame as (Hc & Hm & Hr & Hp & Hi & Hl & Hn & Hh & Ht).
  assert (Hplain : plain (fire cfg s ev)).
  { destruct ev; try (by apply fire_plain). by apply plain_clear. }
  split; [done|]. clear Hplain.
  destruct ev as [blocks|t|k|i h|]; simpl.
  - unfold appendBlocks, Renderer0.appendBlocks. rewrite Hlast.
    apply same_scheduleRender.
    unfold same_but_delays. simpl. by rewrite Hc, Hm, Hr, Hp, Hi, Hl, Hn, Hh.
  - rewrite <- Hr. destruct (rafId s); [|done].
    unfold onFrame, Renderer0.onFrame, renderPendingBlocks,
      Renderer0.renderPendingBlocks. simpl.
    rewrite <- Hi, <- Hp, <- Hc, <- Hm, <- Hl, <- Hn, <- Hh.
    destruct (isRendering s || negb (nonEmpty (pendingBlocks s))).
    + unfold same_but_delays. simpl. done.
    + rewrite fold_renderOne_plain by (by apply allFinal_take_drop).
      unfold same_but_delays. simpl. repeat (split; [done|]).
      destruct (nonEmpty (drop (chunkSize cfg) (pendingBlocks s))); [|done].
      apply Forall2_app; [done|]. constructor; [|constructor].
      apply nextDelay_capped.
  - unfold onTimeout.
    destruct (timers s !! k) as [d|] eqn:Hd.
    + destruct (Forall2_lookup_l _ _ _ _ _ Ht Hd) as (d0 & Hd0 & _).
      rewrite Hd0. apply same_scheduleRender.
      unfold same_but_delays. simpl. repeat (split; [done|]).
      by apply Forall2_delete.
    + destruct (timers s0 !! k) as [d0|] eqn:Hd0; [|done].
      destruct (Forall2_lookup_r _ _ _ _ _ Ht Hd0) as (d & Hd' & _).
      congruence.
  - destruct (updateBlock_rest i h s) as (Hm' & Hp' & Hr' & Ht' & Hi' & Hl').
    destruct (updateBlock_rest i h s0)
      as (Hm0 & Hp0 & Hr0 & Ht0 & Hi0 & Hl0).
    unfold same_but_delays.
    rewrite Hm', Hp', Hr', Ht', Hi', Hl', Hm0, Hp0, Hr0, Ht0, Hi0, Hl0.
    rewrite !updateBlock_container, Hm, Hc.
    repeat (split; [done|]).
    unfold updateBlock. rewrite Hm.
    by destruct (renderedBlocks s0 !! i).
  - unfold same_but_delays. simpl. by rewrite Hi, Hl, Hn, Hh.
Qed.

Lemma same_fold_fire cfg evs s s0 :
  forallb plainEvent evs = true -> plain s -> same_but_delays s s0 ->
  same_but_delays (fold_left (fire cfg) evs s) (fold_left (fire0 cfg) evs s0).
Proof.
  revert s s0. induction evs as [|ev evs IH]; intros s s0 Hevs Hs Hsame;
    simpl; [done|].
  simpl in Hevs. apply andb_prop in Hevs as [Hev Hevs].
  destruct (same_fire cfg s s0 ev Hev Hs Hsame) as [Hs' Hsame'].
  by apply IH.
Qed.

End Renderer0Laws.

Module PlayLaws.
Import JS Parser Spec Laws JSFacts ParserFacts Renderer RendererFacts
       RendererLaws RendererOrder.

Section Play.

Variable marked_parse : jsstring -> outcome jsstring.
Variable sanitize : jsstring -> jsstring.
Variable cfg : Renderer.Config.

Lemma in_step_deliver produced r parsed :
  in_step produced r -> allFinal parsed ->
  in_step (produced ++ parsed) (appendBlocks parsed r).
Proof.
  intros (Hp & Hids & Hnone) Hf.
  destruct (fire_plain cfg r (AppendBlocks parsed) Hf Hp) as [Hp' Hids'].
  pose proof (fire_plain_final cfg r (AppendBlocks parsed) Hf Hp Hnone)
    as Hnone'.
  simpl in Hp', Hids', Hnone'. split; [done|]. split; [|done].
  by rewrite Hids', Hids, app_nil_r, map_app.
Qed.

Lemma in_step_callback produced r cb :
  in_step produced r -> in_step produced (fire cfg r (callback cb)).
Proof.
  intros (Hp & Hids & Hnone).
  assert (Hf : finalEvent (callback cb) = true) by (by destruct cb).
  destruct (fire_plain cfg r (callback cb) Hf Hp) as [Hp' Hids'].
  split; [done|]. split; [|by apply fire_plain_final].
  rewrite Hids', Hids.
  destruct cb; simpl; by rewrite app_nil_r.
Qed.

Lemma callA_in_step c s s' :
  StreamA.call marked_parse sanitize c s = Returned s' ->
  in_step (StreamA.processedBlocks s) (StreamA.renderer s) ->
  in_step (StreamA.processedBlocks s') (StreamA.renderer s').
Proof.
  intros Hc H. destruct c as [clock chunk|clock]; simpl in Hc.
  - unfold StreamA.append, StreamA.appendBegin in Hc.
    destruct (StreamA.extractCompleteBlocks _) as [spans rest].
    destruct (nonEmpty spans); [|by injection Hc as <-].
    destruct (parseBlocks _ _ _ _) as [bs|e] eqn:Hp; simpl in Hc; [|done].
    injection Hc as <-. simpl. apply in_step_deliver; [done|].
    by eapply parseBlocksFrom_final.
  - unfold StreamA.finish in Hc.
    destruct (nonEmpty (trim (StreamA.buffer s))); [|by injection Hc as <-].
    destruct (nonEmpty (splitIntoBlocks (StreamA.buffer s)));
      [|simpl in Hc; by injection Hc as <-].
    destruct (parseBlocks _ _ _ _) as [bs|e] eqn:Hp; simpl in Hc; [|done].
    injection Hc as <-. simpl. apply in_step_deliver; [done|].
    by eapply parseBlocksFrom_final.
Qed.

Lemma callB_in_step c s s' :
  StreamB.call marked_parse sanitize c s = Returned s' ->
  in_step (StreamB.processedBlocks s) (StreamB.renderer s) ->
  in_step (StreamB.processedBlocks s') (StreamB.renderer s').
Proof.
  intros Hc H. destruct c as [clock chunk|clock]; simpl in Hc.
  - unfold StreamB.append, StreamB.appendBegin in Hc.
    destruct (StreamB.extractCompleteBlocks _) as [[spans rest]|e];
      simpl in Hc; [|done].
    destruct (nonEmpty spans); [|by injection Hc as <-].
    destruct (parseBlocks _ _ _ _) as [bs|e] eqn:Hp; simpl in Hc; [|done].
    injection Hc as <-. simpl. apply in_step_deliver; [done|].
    by eapply parseBlocksFrom_final.
  - unfold StreamB.finish in Hc.
    destruct (nonEmpty (trim (StreamB.buffer s))); [|by injection Hc as <-].
    destruct (nonEmpty (splitIntoBlocks (StreamB.buffer s)));
      [|simpl in Hc; by injection Hc as <-].
    destruct (parseBlocks _ _ _ _) as [bs|e] eqn:Hp; simpl in Hc; [|done].
    injection Hc as <-. simpl. apply in_step_deliver; [done|].
    by eapply parseBlocksFrom_final.
Qed.

Lemma playA_in_step ticks s s' inp :
  playA marked_parse sanitize cfg ticks s = Returned s' ->
  in_step (StreamA.processedBlocks s) (StreamA.renderer s) ->
  accounted s inp ->
  in_step (StreamA.processedBlocks s') (StreamA.renderer s')
  /\ accounted s' (inp ++ appended (callsOf ticks)).
Proof.
  revert s inp. induction ticks as [|t ticks IH]; intros s inp; simpl.
  - intros [= <-]. by rewrite app_nil_r.
  - destruct (tickA marked_parse sanitize cfg t s) as [s1|e] eqn:Ht; simpl;
      [|done].
    intros Hr Hs Ha. destruct t as [c|cb]; simpl in Ht.
    + rewrite StreamFacts.appended_app, app_assoc.
      apply (IH s1); [done|by eapply callA_in_step|].
      apply (StreamAFacts.run_accounted marked_parse sanitize [c] s s1);
        [|done].
      simpl. by rewrite Ht.
    + injection Ht as <-. simpl.
      apply (IH _ inp) in Hr; [done|by apply in_step_callback|done].
Qed.

Lemma playB_in_step ticks s s' inp :
  playB marked_parse sanitize cfg ticks s = Returned s' ->
  in_step (StreamB.processedBlocks s) (StreamB.renderer s) ->
  accountedB s inp ->
  in_step (StreamB.processedBlocks s') (StreamB.renderer s')
  /\ accountedB s' (inp ++ appended (callsOf ticks)).
Proof.
  revert s inp. induction ticks as [|t ticks IH]; intros s inp; simpl.
  - intros [= <-]. by rewrite app_nil_r.
  - destruct (tickB marked_parse sanitize cfg t s) as [s1|e] eqn:Ht; simpl;
      [|done].
    intros Hr Hs Ha. destruct t as [c|cb]; simpl in Ht.
    + rewrite StreamFacts.appended_app, app_assoc.
      apply (IH s1); [done|by eapply callB_in_step|].
      apply (StreamBFacts.run_accountedB marked_parse sanitize [c] s s1);
        [|done].
      simpl. by rewrite Ht.
    + injection Ht as <-. simpl.
      apply (IH _ inp) in Hr; [done|by apply in_step_callback|done].
Qed.

End Play.

End PlayLaws.

(** ** What a call leaves, returned or rejected *)

Module LeavesFacts.
Import JS Parser Spec JSFacts ParserFacts ParserLaws.

Section Calls.

Variable marked_parse : jsstring -> outcome jsstring.
Variable sanitize : jsstring -> jsstring.

(** *** The calls and what they leave *)






(** *** Characters are deleted, never added or moved *)







(** *** When a call rejects *)







End Calls.

End LeavesFacts.

(** * The claims *)

Import JS Parser Spec Fixtures.







(** A call that rejects loses characters that are not white space: the
    converter fails on the span "a" of "a\n\nb", which [append] has cut
    from the buffer already. *)
Remark rejected_append_loses_its_span :
  Stream.rejections failing keep Stream.SentenceBoundary
    [Append noon twoParagraphs] = [str "conversion failed"]
  /\ Stream.produced (Stream.leaves failing keep Stream.SentenceBoundary
                        [Append noon twoParagraphs]) = []
  /\ Stream.buffered (Stream.leaves failing keep Stream.SentenceBoundary
                        [Append noon twoParagraphs]) = str "b".
Proof. by repeat split. Qed.


(** C10. In the first variant an extraction step returns at most one span,
    whatever the buffer holds; so an [append] adds at most one block, and
    the rest of the text, complete or not, stays in the buffer (up to the
    white space the step deletes). *)
Theorem one_span_per_extraction marked_parse sanitize clock chunk s s' :
  StreamA.append marked_parse sanitize clock chunk s = Returned s' ->
  (forall b, (length (fst (StreamA.extractCompleteBlocks b)) <= 1)%nat)
  /\ exists new,
       StreamA.processedBlocks s' = StreamA.processedBlocks s ++ new
       /\ (length new <= 1)%nat
       /\ map content new
          = fst (StreamA.extractCompleteBlocks (StreamA.buffer s ++ chunk))
       /\ StreamA.buffer s'
          = snd (StreamA.extractCompleteBlocks (StreamA.buffer s ++ chunk))
       /\ erase_ws (textOf new ++ StreamA.buffer s')
                   (StreamA.buffer s ++ chunk).
Proof.
  intros H. split.
  { intros b.
    by destruct (StreamAFacts.extractCompleteBlocks_ok b) as (_ & _ & ?). }
  unfold StreamA.append, StreamA.appendBegin in H.
  destruct (StreamAFacts.extractCompleteBlocks_ok (StreamA.buffer s ++ chunk))
    as (He & _ & Hl).
  destruct (StreamA.extractCompleteBlocks (StreamA.buffer s ++ chunk))
    as [spans rest]. simpl in *.
  destruct (nonEmpty spans) eqn:Hne.
  - destruct (parseBlocks _ _ _ _) as [bs|e] eqn:Hp; simpl in H; [|done].
    injection H as <-. exists bs. simpl.
    pose proof (ParserFacts.parseBlocksFrom_content _ _ _ _ _ _ Hp) as Hc.
    split; [done|]. split; [by rewrite <- (length_map content), Hc|].
    split; [done|]. split; [done|]. unfold textOf. by rewrite Hc.
  - injection H as <-. exists []. simpl. rewrite app_nil_r.
    apply JSFacts.nonEmpty_false in Hne. subst spans.
    split; [done|]. split; [lia|]. by repeat split.
Qed.

Lemma one_span_per_extraction_witness :
  exists s',
    StreamA.append echo keep noon threeParagraphs StreamA.init
      = Returned s'
    /\ map content (StreamA.processedBlocks s') = [str "a"]
    /\ StreamA.buffer s' = str "b" ++ [NL; NL] ++ str "c".
Proof.
  destruct (StreamA.append echo keep noon threeParagraphs
              StreamA.init) as [s'|e] eqn:H;
    [|vm_compute in H; discriminate].
  exists s'. split; [reflexivity|].
  destruct (one_span_per_extraction echo keep noon
              threeParagraphs StreamA.init s' H)
    as (_ & new & H1 & _ & H3 & H4 & _).
  rewrite H1, H4. simpl. rewrite H3. by vm_compute.
Defined.

(** C9. [clear] is idempotent on the processor of either variant and on
    the renderer: a second [clear] changes no field (buffer, processed
    blocks, pending queue, rendered map, container, pending frame,
    pending timeouts). *)
Theorem clear_idempotent (a : StreamA.State) (b : StreamB.State)
    (r : Renderer.State) :
  StreamA.clear (StreamA.clear a) = StreamA.clear a
  /\ StreamB.clear (StreamB.clear b) = StreamB.clear b
  /\ Renderer.clear (Renderer.clear r) = Renderer.clear r.
Proof. by repeat split. Qed.

(** C4. After any history of [appendBlocks] calls, frames, timeouts,
    [updateBlock] calls and [clear]s, at most one provisional element is
    attached. [appendBlocks], a render pass, a timeout and [clear] never
    change an element that stays attached: they detach elements and attach
    new DOM objects at the end. *)
Theorem at_most_one_provisional cfg evs :
  (provisionalCount (Renderer.container (exec cfg evs)) <= 1)%nat
  /\ forall ev,
       match ev with
       | UpdateBlock _ _ => True
       | _ => replaced_wholesale
                (Renderer.container (exec cfg evs))
                (Renderer.container (fire cfg (exec cfg evs) ev))
                (Renderer.nextNode (exec cfg evs))
       end
       /\ Forall (fun e =>
                    (Renderer.node e < Renderer.nextNode (exec cfg evs))%nat)
                 (Renderer.container (exec cfg evs)).
Proof.
  pose proof (RendererFacts.exec_ok cfg evs) as Hok. split.
  - by eapply RendererFacts.dom_ok_at_most_one.
  - intros ev. split; [apply RendererFacts.fire_wholesale|].
    by destruct Hok as (_ & _ & ?).
Qed.

(** C8. A render pass on an idle renderer with a non-empty queue takes
    the first [chunkSize] blocks (or all, if fewer) off the head of the
    queue in order and attaches their elements after the elements already
    there, in one step; if blocks remain it sets one timeout that calls
    [scheduleRender], after [min(debounceMs, 8)] when the pass took more
    than 16 ms and after 0 otherwise, and that timeout leaves a frame
    requested. A pass on a renderer that is rendering, and a
    [scheduleRender] while a frame is requested, change nothing. *)
Theorem drain_pass cfg renderTime s :
  Renderer.isRendering s = false ->
  Renderer.pendingBlocks s <> [] ->
  let chunk := take (Renderer.chunkSize cfg) (Renderer.pendingBlocks s) in
  let s' := Renderer.renderPendingBlocks cfg renderTime s in
  (forall s0, Renderer.isRendering s0 = true ->
              Renderer.renderPendingBlocks cfg renderTime s0 = s0)
  /\ (forall s0, is_Some (Renderer.rafId s0) ->
                 Renderer.scheduleRender s0 = s0)
  /\ (length chunk <= Renderer.chunkSize cfg)%nat
  /\ Renderer.pendingBlocks s = chunk ++ Renderer.pendingBlocks s'
  /\ replaced_wholesale (Renderer.container s) (Renderer.container s')
                        (Renderer.nextNode s)
  /\ (allFinal chunk ->
      Renderer.container s'
      = Renderer.container s ++ renderBatch (Renderer.nextNode s) chunk)
  /\ Renderer.isRendering s' = false
  /\ Renderer.timers s'
     = (if nonEmpty (Renderer.pendingBlocks s')
        then Renderer.timers s ++ [Renderer.nextDelay cfg renderTime]
        else Renderer.timers s)
  /\ ((16 < renderTime)%Q ->
      Renderer.nextDelay cfg renderTime = Qmin (Renderer.debounceMs cfg) 8)
  /\ ((renderTime <= 16)%Q -> Renderer.nextDelay cfg renderTime = 0%Q)
  /\ (forall k, is_Some (Renderer.timers s' !! k) ->
                is_Some (Renderer.rafId (Renderer.onTimeout k s'))).
Proof.
  intros Hidle Hpend chunk s'.
  split; [|split].
  { intros s0 H0. unfold Renderer.renderPendingBlocks. by rewrite H0. }
  { intros s0 [h Hh]. unfold Renderer.scheduleRender. by rewrite Hh. }
  assert (Hs' := RendererFacts.renderPendingBlocks_active cfg renderTime s
                   Hidle Hpend).
  fold s' in Hs'. cbv zeta in Hs'.
  split; [unfold chunk; rewrite length_take; lia|].
  split; [rewrite Hs'; unfold chunk; simpl; by rewrite take_drop|].
  split; [apply RendererFacts.renderPendingBlocks_wholesale|].
  split.
  { intros Hfinal. rewrite Hs'. simpl.
    destruct (RendererFacts.fold_renderOne_final chunk
                (Renderer.mkPass (Renderer.container s) []
                   (Renderer.renderedBlocks s) (Renderer.lastTempBlockId s)
                   (Renderer.nextNode s)) Hfinal) as (H1 & H2 & _).
    unfold chunk in H1, H2. by rewrite H1, H2. }
  split; [by rewrite Hs'|]. split; [by rewrite Hs'|].
  split; [|split].
  - intros Hlt. unfold Renderer.nextDelay.
    destruct (Qlt_le_dec 16 renderTime) as [_|Hle]; [done|].
    by apply Qle_not_lt in Hle.
  - intros Hle. unfold Renderer.nextDelay.
    destruct (Qlt_le_dec 16 renderTime) as [Hlt|_]; [|done].
    by apply Qle_not_lt in Hle.
  - intros k [d Hd]. unfold Renderer.onTimeout. rewrite Hd.
    unfold Renderer.scheduleRender. simpl.
    destruct (Renderer.rafId s'); simpl; eauto.
Qed.

Lemma drain_pass_witness :
  let cfg := Renderer.mkConfig 2 16 in
  let s := Renderer.appendBlocks
             [entry (str "a"); entry (str "b"); entry (str "c")]
             Renderer.init in
  Renderer.isRendering s = false
  /\ Renderer.pendingBlocks s <> []
  /\ Renderer.pendingBlocks s
     = [entry (str "a"); entry (str "b")]
         ++ Renderer.pendingBlocks (Renderer.renderPendingBlocks cfg 1 s)
  /\ Renderer.timers (Renderer.renderPendingBlocks cfg 1 s) = [0%Q].
Proof.
  intros cfg s.
  assert (Hidle : Renderer.isRendering s = false) by reflexivity.
  assert (Hpend : Renderer.pendingBlocks s <> []) by discriminate.
  destruct (drain_pass cfg 1 s Hidle Hpend)
    as (_ & _ & _ & H4 & _ & _ & _ & H8 & _ & H10 & _).
  split; [exact Hidle|]. split; [exact Hpend|]. split; [exact H4|].
  rewrite H8. rewrite H10; [reflexivity|]. by vm_compute.
Defined.

(** An awaited [append] is [append] with nothing running in between. *)
Remark append_uninterrupted marked_parse sanitize clock chunk a b :
  StreamA.append marked_parse sanitize clock chunk a
  = StreamA.appendDuring marked_parse sanitize (fun s => s) clock chunk a
  /\ StreamB.append marked_parse sanitize clock chunk b
     = StreamB.appendDuring marked_parse sanitize (fun s => s) clock chunk b.
Proof. by split. Qed.

(** C5 (amended). [clear()] does not cancel a conversion in flight. When
    [clear] runs while [append] awaits the conversion of the spans it
    extracted, the continuation still runs when the conversion completes:
    the converted blocks become the processed-block list, they are queued
    at the renderer, and a frame is requested for them. *)
Theorem stale_conversion_is_delivered marked_parse sanitize clock chunk s r
    parsed :
  StreamB.appendBegin chunk s = Returned r ->
  snd r <> [] ->
  parseBlocks marked_parse sanitize clock (snd r) = Returned parsed ->
  exists s',
    StreamB.appendDuring marked_parse sanitize StreamB.clear clock chunk s
      = Returned s'
    /\ StreamB.processedBlocks s' = parsed
    /\ Renderer.pendingBlocks (StreamB.renderer s') = parsed
    /\ is_Some (Renderer.rafId (StreamB.renderer s'))
    /\ map content parsed = snd r.
Proof.
  intros Hb Hne Hp. unfold StreamB.appendDuring. rewrite Hb. simpl.
  destruct (snd r) as [|x spans] eqn:Hr; [done|]. simpl nonEmpty. cbv iota.
  rewrite Hp. simpl. eexists. split; [reflexivity|]. simpl.
  split; [done|]. rewrite StreamFacts.pendingBlocks_appendBlocks. simpl.
  split; [done|]. split.
  - unfold Renderer.appendBlocks, Renderer.scheduleRender.
    repeat case_match; simpl in *; eauto; congruence.
  - by apply ParserFacts.parseBlocksFrom_content in Hp.
Qed.

Lemma stale_conversion_is_delivered_witness :
  exists r parsed s',
    StreamB.appendBegin (str "# T") StreamB.init = Returned r
    /\ snd r <> []
    /\ parseBlocks echo keep noon (snd r) = Returned parsed
    /\ StreamB.appendDuring echo keep StreamB.clear noon (str "# T")
         StreamB.init = Returned s'
    /\ StreamB.processedBlocks s' = parsed.
Proof.
  destruct (StreamB.appendBegin (str "# T") StreamB.init) as [r|e] eqn:Hb;
    [|vm_compute in Hb; discriminate].
  assert (Hne : snd r <> []).
  { vm_compute in Hb. injection Hb as <-. discriminate. }
  destruct (parseBlocks echo keep noon (snd r)) as [parsed|e] eqn:Hp.
  2:{ vm_compute in Hb. injection Hb as <-. vm_compute in Hp. discriminate. }
  destruct (stale_conversion_is_delivered echo keep noon (str "# T")
              StreamB.init r parsed Hb Hne Hp) as (s' & H1 & H2 & _).
  exists r, parsed, s'. by repeat split.
Defined.

(** C5 as stated fails: [append("# T")] on a fresh processor, [clear()]
    while the conversion is awaited, then the conversion completes; the
    block of the conversion is in the processed-block list and in the
    renderer's queue. *)
Lemma stale_conversion_not_discarded :
  exists s',
    StreamB.appendDuring echo keep StreamB.clear noon (str "# T") StreamB.init
      = Returned s'
    /\ map content (StreamB.processedBlocks s') = [str "# T"]
    /\ map content (Renderer.pendingBlocks (StreamB.renderer s'))
       = [str "# T"].
Proof. eexists. split; [vm_compute; reflexivity|]. by split. Qed.

(** C6 (amended). The conversion of a batch is all or nothing. The
    service replies with the results exactly when every entry converts:
    one result per entry, in order, each the entry with its sanitized
    markup. When [marked.parse] or the call of the sanitizer throws for
    any entry, the loop stops at the first such entry and the service
    replies with a single error message (the message of what was thrown,
    or 'Unknown error') and no results. [parseBlocks] does the same: it
    returns, with one block per span in order, when the converter returns
    on every span, and it rejects with the converter's error on the first
    span that fails when the converter fails on any; the other entries are
    dropped with it. Only a failure of the syntax highlighter inside a
    code entry is absorbed: the code is rendered as escaped text, which
    holds no markup character. *)
Theorem conversion_is_all_or_nothing worker_parse worker_sanitize
    marked_parse sanitize blocks clock spans getLanguage highlight code
    lang e :
  highlight code lang = Thrown e ->
  (forall results,
     Worker.onMessage worker_parse worker_sanitize (Worker.PARSE blocks)
       = Some (Worker.PARSE_RESULT results)
     <-> Forall2 (fun block r =>
                    exists rawHtml html,
                      worker_parse (content block) = Worker.Done rawHtml
                      /\ worker_sanitize rawHtml = Worker.Done html
                      /\ r = Worker.withHtml block html)
                 blocks results)
  /\ (forall block r,
        In block blocks ->
        worker_parse (content block) = Worker.Raise r
        \/ (exists rawHtml,
              worker_parse (content block) = Worker.Done rawHtml
              /\ worker_sanitize rawHtml = Worker.Raise r) ->
        exists pre first post r',
          blocks = pre ++ first :: post
          /\ Forall (fun b =>
                       exists result,
                         Worker.convert worker_parse worker_sanitize b
                         = Worker.Done result) pre
          /\ Worker.convert worker_parse worker_sanitize first
             = Worker.Raise r'
          /\ Worker.onMessage worker_parse worker_sanitize
               (Worker.PARSE blocks)
             = Some (Worker.ERROR (Worker.errorMessage r')))
  /\ (forall parsed,
        parseBlocks marked_parse sanitize clock spans = Returned parsed ->
        Forall2 (fun c b =>
                   exists rawHtml,
                     marked_parse c = Returned rawHtml
                     /\ content b = c /\ html b = sanitize rawHtml)
                spans parsed)
  /\ (Forall (fun c => returns (marked_parse c) = true) spans ->
      returns (parseBlocks marked_parse sanitize clock spans) = true)
  /\ (forall c m,
        In c spans -> marked_parse c = Thrown m ->
        exists pre first post m',
          spans = pre ++ first :: post
          /\ Forall (fun x => returns (marked_parse x) = true) pre
          /\ marked_parse first = Thrown m'
          /\ parseBlocks marked_parse sanitize clock spans = Thrown m')
  /\ renderer_code getLanguage highlight code (Some lang) = plainCode code
  /\ (forall c, In c (escapeHtml code) ->
                c <> 60 /\ c <> 62 /\ c <> 34 /\ c <> 39).
Proof.
  intros Hh. split; [|split; [|split; [|split; [|split; [|split]]]]].
  - intros results. unfold Worker.onMessage.
    destruct (Worker.convertAll worker_parse worker_sanitize blocks)
      as [rs|r] eqn:Hc.
    + split.
      * intros [= <-]. apply WorkerFacts.convertAll_Done in Hc.
        eapply Forall2_impl; [exact Hc|].
        intros b r Hb. by apply WorkerFacts.convert_Done in Hb.
      * intros Hall. do 2 f_equal.
        assert (Hd : Worker.convertAll worker_parse worker_sanitize blocks
                     = Worker.Done results).
        { apply WorkerFacts.convertAll_Done.
          eapply Forall2_impl; [exact Hall|].
          intros b r Hb. by apply WorkerFacts.convert_Done. }
        congruence.
    + split; [done|]. intros Hall.
      assert (Hd : Worker.convertAll worker_parse worker_sanitize blocks
                   = Worker.Done results).
      { apply WorkerFacts.convertAll_Done.
        eapply Forall2_impl; [exact Hall|].
        intros b r' Hb. by apply WorkerFacts.convert_Done. }
      congruence.
  - intros block r Hin Hf. apply WorkerFacts.convert_Raise in Hf.
    destruct (WorkerFacts.convertAll_any_failure _ _ _ _ _ Hin Hf)
      as [r' Hr].
    destruct (WorkerFacts.convertAll_Raise _ _ _ _ Hr)
      as (pre & first & post & Hb & Hpre & Hfirst).
    exists pre, first, post, r'. repeat (split; [done|]).
    unfold Worker.onMessage. by rewrite Hr.
  - intros parsed. apply ParserFacts.parseBlocksFrom_converted.
  - intros Hall. apply ParserFacts.parseBlocksFrom_returns_iff.
    by apply ParserFacts.firstFailure_None.
  - intros c m Hin Hc.
    destruct (ParserFacts.firstFailure_In _ _ _ _ Hin Hc) as [m' Hm'].
    destruct (ParserFacts.firstFailure_Some _ _ _ Hm')
      as (pre & first & post & Hs & Hpre & Hfirst).
    exists pre, first, post, m'. repeat (split; [done|]).
    by apply ParserFacts.parseBlocksFrom_Thrown_iff.
  - unfold renderer_code. destruct lang as [|l lang]; [done|].
    destruct (getLanguage (l :: lang)); [|done]. by rewrite Hh.
  - intros c. apply ParserFacts.escapeHtml_safe.
Qed.

Lemma conversion_is_all_or_nothing_witness :
  brokenHighlight (str "<") (str "js") = Thrown (str "highlight failed")
  /\ Worker.onMessage (inWorker (rejecting (str "bad"))) keeps
       (Worker.PARSE [entry (str "good"); entry (str "bad")])
     = Some (Worker.ERROR (str "conversion failed"))
  /\ parseBlocks (rejecting (str "bad")) keep noon [str "good"; str "bad"]
     = Thrown (str "conversion failed")
  /\ renderer_code anyLanguage brokenHighlight (str "<") (Some (str "js"))
     = str "<pre><code>&lt;</code></pre>".
Proof.
  split; [reflexivity|].
  destruct (conversion_is_all_or_nothing
              (inWorker (rejecting (str "bad"))) keeps
              (rejecting (str "bad")) keep
              [entry (str "good"); entry (str "bad")] noon
              [str "good"; str "bad"]
              anyLanguage brokenHighlight (str "<") (str "js")
              (str "highlight failed") eq_refl)
    as (_ & Hw & _ & _ & Hp & Hc & _).
  split; [|split].
  - destruct (Hw (entry (str "bad"))
                 (Worker.ErrorObject (str "conversion failed")))
      as (pre & first & post & r' & Hb & Hpre & Hfirst & ->).
    { right. by left. }
    { by left. }
    destruct pre as [|b0 [|b1 pre]].
    + injection Hb as <- _. vm_compute in Hfirst. discriminate.
    + injection Hb as _ <- _. vm_compute in Hfirst.
      by injection Hfirst as <-.
    + exfalso. injection Hb as _ _ Hb. by destruct pre.
  - destruct (Hp (str "bad") (str "conversion failed"))
      as (pre & first & post & m' & Hb & Hpre & Hfirst & ->).
    { right. by left. }
    { reflexivity. }
    destruct pre as [|b0 [|b1 pre]].
    + injection Hb as <- _. vm_compute in Hfirst. discriminate.
    + injection Hb as _ <- _. vm_compute in Hfirst.
      by injection Hfirst as <-.
    + exfalso. injection Hb as _ _ Hb. by destruct pre.
  - rewrite Hc. reflexivity.
Defined.

(** C6 as stated fails: in a batch of two entries where the converter
    fails on the second, the reply is one error and the first entry's
    result is lost; [parseBlocks] rejects the same way. *)
Lemma failed_entry_fails_the_batch :
  Worker.onMessage (inWorker (rejecting (str "bad"))) keeps
    (Worker.PARSE [entry (str "good"); entry (str "bad")])
  = Some (Worker.ERROR (str "conversion failed"))
  /\ parseBlocks (rejecting (str "bad")) keep noon [str "good"; str "bad"]
     = Thrown (str "conversion failed").
Proof. split; by vm_compute. Qed.

(** Where the worker has no sanitizer to call, a batch that the converter
    accepts is answered by an error as well. *)
Remark no_sanitizer_fails_the_batch :
  Worker.onMessage (inWorker echo) noSanitizer
    (Worker.PARSE [entry (str "good")])
  = Some (Worker.ERROR (str "sanitize is not a function")).
Proof. by vm_compute. Qed.




(** The second variant's [append] throws by itself when the buffer holds
    no block at all. *)
Remark appendB_without_block_throws :
  StreamB.append echo keep noon [] StreamB.init
  = Thrown StreamB.trimOfUndefined.
Proof. reflexivity. Qed.

(** After [append] has rejected on a fresh processor, the stats are those
    of a fresh processor. *)
Remark rejection_leaves_no_trace :
  StreamA.getStats (fun _ => 0%nat)
    (fst (StreamA.appendLeaves failing keep noon (str "# T" ++ [NL])
            StreamA.init))
  = StreamA.getStats (fun _ => 0%nat) StreamA.init.
Proof. reflexivity. Qed.

(** C3: the code at the failing inputs. In the first variant a complete
    fenced block appended in one call comes out as three blocks: the
    opening fence line is cut off as a span of its own. In the second
    variant the same happens when a call boundary falls inside the opening
    fence. Appended whole to the second variant, or given to
    [splitIntoBlocks], the fence is one block. *)
Theorem fence_is_split :
  (exists snap,
     Stream.after echo keep Stream.SentenceBoundary
       (Stream.session [(noon, fenced)] noon) = Returned snap
     /\ map content (Stream.produced snap)
        = [str "```js"; str "code"; str "```"])
  /\ (exists snap,
        Stream.after echo keep Stream.LastBlockComplete
          (Stream.session [(noon, take 2 fenced); (noon, drop 2 fenced)] noon)
          = Returned snap
        /\ map content (Stream.produced snap)
           = [str "``"; join_nl [str "`js"; str "code"]; str "```"])
  /\ (exists snap,
        Stream.after echo keep Stream.LastBlockComplete
          (Stream.session [(noon, fenced)] noon) = Returned snap
        /\ map content (Stream.produced snap) = [fenced])
  /\ splitIntoBlocks fenced = [fenced].
Proof.
  split; [|split; [|split]].
  - eexists. split; [vm_compute; reflexivity | reflexivity].
  - eexists. split; [vm_compute; reflexivity | reflexivity].
  - eexists. split; [vm_compute; reflexivity | reflexivity].
  - reflexivity.
Qed.

(** * Further properties of the code *)

Import Laws.

(** ** [MarkdownParser] *)

(** X1 ([splitIntoBlocks]): the blocks returned lie in the text in order
    and without overlap; what is left out between and around them is white
    space only; no block is white space only; and no block at all comes
    out exactly when the text is white space only. *)
Theorem splitIntoBlocks_layout markdown :
  segmented (splitIntoBlocks markdown) markdown
  /\ Forall (fun b => ~ blank b) (splitIntoBlocks markdown)
  /\ (splitIntoBlocks markdown = [] <-> blank markdown).
Proof.
  split; [apply ParserFacts.splitIntoBlocks_segmented|]. split.
  - apply Forall_forall. intros b Hb%list_elem_of_In.
    apply ParserLaws.splitIntoBlocks_notBlank in Hb.
    intros Hbl%JSFacts.notBlank_false. congruence.
  - split; [|apply ParserLaws.splitIntoBlocks_blank].
    intros H. pose proof (ParserFacts.splitIntoBlocks_segmented markdown) as Hs.
    rewrite H in Hs. by apply ParserLaws.segmented_nil_blank.
Qed.

(** X2 ([splitIntoBlocks]): a fenced block is kept in one block, closed
    or not: an opening fence line, then lines that are not fence lines
    (blank lines, headings and table lines among them), then a closing
    fence line or the end of the text. *)
Theorem fenced_text_is_one_block opening body closing :
  isFence opening ->
  Forall (fun l => ~ isFence l) body ->
  Forall isFence closing ->
  (length closing <= 1)%nat ->
  Forall oneLine (opening :: body ++ closing) ->
  splitIntoBlocks (join_nl (opening :: body ++ closing))
  = [join_nl (opening :: body ++ closing)].
Proof.
  intros Ho Hbody Hclosing Hlen Hone.
  destruct closing as [|c [|? ?]]; [| |simpl in Hlen; lia].
  - rewrite app_nil_r in *. by apply ParserLaws.splitIntoBlocks_open_fence.
  - apply Forall_cons in Hclosing as [Hc _].
    by apply ParserFacts.splitIntoBlocks_keeps_fence.
Qed.

Lemma fenced_text_is_one_block_witness :
  splitIntoBlocks (join_nl [str "```js"; str ""; str "# not a heading"])
  = [join_nl [str "```js"; str ""; str "# not a heading"]].
Proof.
  apply (fenced_text_is_one_block (str "```js")
           [str ""; str "# not a heading"] []).
  - reflexivity.
  - repeat constructor; by vm_compute.
  - constructor.
  - simpl. lia.
  - repeat constructor; vm_compute; intuition discriminate.
Defined.

(** X3 ([splitIntoBlocks]): every block returned is a fenced block, a
    table, a heading or rule on a line of its own, or a run of text lines;
    split again it gives itself, so splitting the blocks again changes
    nothing. *)
Theorem blocks_are_stable markdown :
  Forall (fun b => wellFormed b /\ splitIntoBlocks b = [b])
         (splitIntoBlocks markdown)
  /\ flat_map splitIntoBlocks (splitIntoBlocks markdown)
     = splitIntoBlocks markdown.
Proof.
  pose proof (ParserLaws.splitIntoBlocks_wellFormed markdown) as H.
  split.
  - eapply Forall_impl; [exact H|]. intros b Hb.
    split; [done|by apply ParserLaws.wellFormed_stable].
  - induction H as [|b bs Hb _ IH]; simpl; [done|].
    by rewrite (ParserLaws.wellFormed_stable b Hb), IH.
Qed.



(** X5 ([parseBlocks], [parseBlock]): a batch that converts gives one
    block per span, in order; the block at position [k] holds span [k], has
    [k] as its start and end index and the id [block-k-t] for the time [t]
    read in its iteration, and its markup is the sanitized conversion of
    the span. The ids of a batch are pairwise distinct whatever the clock
    reads, and none is in the provisional namespace. *)
Theorem parseBlocks_numbers_its_blocks marked_parse sanitize clock spans bs :
  parseBlocks marked_parse sanitize clock spans = Returned bs ->
  length bs = length spans
  /\ (forall k b, bs !! k = Some b ->
        id b = str "block-" ++ decimal (N.of_nat k) ++ str "-"
                 ++ decimal (clock k)
        /\ startIndex b = k /\ endIndex b = k
        /\ spans !! k = Some (content b)
        /\ exists rawHtml,
             marked_parse (content b) = Returned rawHtml
             /\ html b = sanitize rawHtml)
  /\ NoDup (map id bs)
  /\ allFinal bs.
Proof.
  unfold parseBlocks. intros H. split; [|split; [|split]].
  - by eapply ParserLaws.parseBlocksFrom_length.
  - intros k b Hb.
    destruct (ParserLaws.parseBlocksFrom_lookup _ _ _ _ _ _ _ _ H Hb)
      as (? & ? & ? & ? & _ & _ & _ & ?).
    done.
  - by eapply ParserLaws.parseBlocksFrom_NoDup.
  - by eapply ParserFacts.parseBlocksFrom_final.
Qed.

Lemma parseBlocks_numbers_its_blocks_witness :
  exists bs,
    parseBlocks echo keep noon [str "a"; str "b"] = Returned bs
    /\ length bs = 2%nat
    /\ NoDup (map id bs).
Proof.
  destruct (parseBlocks echo keep noon [str "a"; str "b"]) as [bs|e] eqn:H;
    [|vm_compute in H; discriminate].
  exists bs. split; [done|].
  destruct (parseBlocks_numbers_its_blocks _ _ _ _ _ H) as (? & _ & ? & _).
  done.
Defined.

(** X6 ([parseBlocks] and the worker's handler): the handler of the
    worker runs the conversion of the page's parser, and agrees with it
    only where it has a sanitizer to call. With the same converter, and a
    sanitizer that returns in the worker what it returns on the page, both
    succeed or both fail on the contents of the same blocks; when they
    succeed they give the same markup for the same contents in the same
    order, and when they fail the worker's error message is the message of
    the error [parseBlocks] throws. Where the call of the sanitizer throws
    in the worker (DOMPurify has no [sanitize] function without a
    [window], and a worker has none), every batch with an entry that the
    page converts is answered by an error, with the message of what the
    call threw. *)
Theorem worker_agrees_where_it_can_sanitize marked_parse sanitize
    worker_sanitize clock (blocks : list Block) :
  let worker_parse c := Worker.ofOutcome (marked_parse c) in
  ((forall markup, worker_sanitize markup = Worker.Done (sanitize markup)) ->
   match parseBlocks marked_parse sanitize clock (map content blocks),
         Worker.onMessage worker_parse worker_sanitize (Worker.PARSE blocks)
   with
   | Returned parsed, Some (Worker.PARSE_RESULT results) =>
       map html parsed = map html results
       /\ map content parsed = map content results
   | Thrown e, Some (Worker.ERROR e') => e = e'
   | _, _ => False
   end)
  /\ (forall r parsed,
        (forall markup, worker_sanitize markup = Worker.Raise r) ->
        blocks <> [] ->
        parseBlocks marked_parse sanitize clock (map content blocks)
          = Returned parsed ->
        Worker.onMessage worker_parse worker_sanitize (Worker.PARSE blocks)
        = Some (Worker.ERROR (Worker.errorMessage r))).
Proof.
  intros worker_parse. split.
  - intros Hs. unfold parseBlocks. simpl.
    pose proof (ConversionLaws.parser_worker_agree marked_parse sanitize
                  worker_sanitize clock 0 blocks Hs) as H.
    fold worker_parse in H.
    by destruct (parseBlocksFrom _ _ _ _ _),
                (Worker.convertAll worker_parse worker_sanitize blocks).
  - intros r parsed Hs Hne Hp. unfold Worker.onMessage, worker_parse.
    by rewrite (ConversionLaws.worker_without_sanitizer _ _ _ _ _ _ _ _
                  Hs Hne Hp).
Qed.

Lemma worker_agrees_where_it_can_sanitize_witness :
  (forall markup, keeps markup = Worker.Done (keep markup))
  /\ (forall markup,
        noSanitizer markup
        = Worker.Raise (Worker.ErrorObject (str "sanitize is not a function")))
  /\ map html
       (default []
          (match Worker.onMessage (inWorker echo) keeps
                   (Worker.PARSE [entry (str "# T")]) with
           | Some (Worker.PARSE_RESULT results) => Some results
           | _ => None
           end))
     = [str "# T"]
  /\ Worker.onMessage (inWorker echo) noSanitizer
       (Worker.PARSE [entry (str "# T")])
     = Some (Worker.ERROR (str "sanitize is not a function")).
Proof.
  assert (Hk : forall markup, keeps markup = Worker.Done (keep markup))
    by reflexivity.
  assert (Hn : forall markup,
             noSanitizer markup
             = Worker.Raise
                 (Worker.ErrorObject (str "sanitize is not a function")))
    by reflexivity.
  split; [exact Hk|]. split; [exact Hn|]. split.
  - pose proof (proj1 (worker_agrees_where_it_can_sanitize echo keep keeps
                         noon [entry (str "# T")]) Hk) as H.
    fold (inWorker echo) in H.
    destruct (parseBlocks echo keep noon (map content [entry (str "# T")]))
      as [parsed|e] eqn:Hp; [|vm_compute in Hp; discriminate].
    destruct (Worker.onMessage (inWorker echo) keeps
                (Worker.PARSE [entry (str "# T")]))
      as [[| results | |]|]; try done.
    destruct H as [H _]. simpl. rewrite <- H.
    vm_compute in Hp. by injection Hp as <-.
  - destruct (parseBlocks echo keep noon (map content [entry (str "# T")]))
      as [parsed|e] eqn:Hp; [|vm_compute in Hp; discriminate].
    assert (Hne : [entry (str "# T")] <> []) by discriminate.
    exact (proj2 (worker_agrees_where_it_can_sanitize echo keep noSanitizer
                    noon [entry (str "# T")]) _ parsed Hn Hne Hp).
Defined.

(** X7 ([escapeHtml]): escaping loses nothing and works character by
    character: two texts with the same escaped form are the same text,
    the escaped form of a concatenation is the concatenation of the escaped
    forms, and a text without [&], [<], [>], the double and the single
    quote is left as it is. *)
Theorem escapeHtml_loses_nothing a b :
  (escapeHtml a = escapeHtml b -> a = b)
  /\ escapeHtml (a ++ b) = escapeHtml a ++ escapeHtml b
  /\ ((forall c, In c a ->
         c <> 38 /\ c <> 60 /\ c <> 62 /\ c <> 34 /\ c <> 39) ->
      escapeHtml a = a).
Proof.
  split; [apply ConversionLaws.escapeHtml_inj|].
  split; [apply ConversionLaws.escapeHtml_app|].
  unfold escapeHtml. induction a as [|c a IH]; simpl; [done|].
  intros H. destruct (H c (or_introl eq_refl)) as (? & ? & ? & ? & ?).
  rewrite ConversionLaws.escapeChar_id by done. simpl. f_equal.
  apply IH. intros d Hd. apply H. by right.
Qed.

(** ** [IncrementalRenderer] *)

(** X8 ([renderPendingBlocks], [appendBlocks], [clear], [getStats]):
    after any history of calls and callbacks the rendered-block map and
    the container agree. An id has an entry exactly if an attached element
    carries it, and the entry points to such an element; so
    [renderedCount] counts the distinct ids among the attached elements:
    it never exceeds their number, and equals it when no id occurs
    twice. *)
Theorem rendered_count_counts_ids cfg evs :
  let s := exec cfg evs in
  (forall k, is_Some (Renderer.renderedBlocks s !! k)
             <-> In k (map Renderer.blockId (Renderer.container s)))
  /\ (forall k n, Renderer.renderedBlocks s !! k = Some n ->
        exists e, In e (Renderer.container s)
                  /\ Renderer.node e = n /\ Renderer.blockId e = k)
  /\ (Renderer.renderedCount s <= length (Renderer.container s))%nat
  /\ (NoDup (map Renderer.blockId (Renderer.container s)) ->
      Renderer.renderedCount s = length (Renderer.container s)).
Proof.
  intros s. destruct (RendererLaws.exec_book cfg evs) as (_ & Hreg & _).
  fold s in Hreg. split; [|split].
  - intros k. by apply RendererLaws.registered_keys.
  - by destruct Hreg as [Hreg _].
  - by apply RendererLaws.registered_size.
Qed.

(** X9 ([updateBlock]): after any history, [updateBlock(id, html)]
    changes at most one attached element, the one the map holds under
    [id]; that element carries [id] and gets the new markup, and keeps its
    identity, class and id. Every other element, the map, the queue and
    the pending frame and timeouts are untouched. *)
Theorem updateBlock_edits_one_element cfg evs i newHtml :
  let s := exec cfg evs in
  let s' := Renderer.updateBlock i newHtml s in
  map Renderer.node (Renderer.container s')
  = map Renderer.node (Renderer.container s)
  /\ map Renderer.blockId (Renderer.container s')
     = map Renderer.blockId (Renderer.container s)
  /\ map Renderer.className (Renderer.container s')
     = map Renderer.className (Renderer.container s)
  /\ (forall k e e',
        Renderer.container s !! k = Some e ->
        Renderer.container s' !! k = Some e' ->
        e' <> e ->
        Renderer.renderedBlocks s !! i = Some (Renderer.node e)
        /\ Renderer.blockId e = i
        /\ Renderer.innerHTML e' = newHtml
        /\ forall k' x,
             Renderer.container s !! k' = Some x ->
             Renderer.container s' !! k' <> Some x -> k' = k)
  /\ (is_Some (Renderer.renderedBlocks s !! i) ->
      exists e', In e' (Renderer.container s')
                 /\ Renderer.blockId e' = i
                 /\ Renderer.innerHTML e' = newHtml)
  /\ Renderer.renderedBlocks s' = Renderer.renderedBlocks s
  /\ Renderer.pendingBlocks s' = Renderer.pendingBlocks s
  /\ Renderer.rafId s' = Renderer.rafId s
  /\ Renderer.timers s' = Renderer.timers s.
Proof.
  intros s s'.
  destruct (RendererLaws.exec_book cfg evs)
    as ((_ & Hnd & _) & (Hreg & _) & _).
  fold s in Hnd, Hreg.
  destruct (RendererLaws.updateBlock_rest i newHtml s)
    as (Hm & Hp & Hr & Ht & _).
  fold s' in Hm, Hp, Hr, Ht.
  pose proof (RendererLaws.updateBlock_container i newHtml s) as Hc.
  fold s' in Hc.
  destruct (Renderer.renderedBlocks s !! i) as [n|] eqn:Hi.
  - set (f := fun e : Renderer.Element =>
                if (Renderer.node e =? n)%nat
                then Renderer.mkElement (Renderer.node e)
                       (Renderer.className e) (Renderer.blockId e) newHtml
                else e) in Hc.
    assert (Hf : forall e, f e <> e ->
                   Renderer.node e = n
                   /\ Renderer.innerHTML (f e) = newHtml).
    { intros e. unfold f. destruct (Renderer.node e =? n)%nat eqn:He; [|done].
      apply Nat.eqb_eq in He. done. }
    assert (Hlook : forall k e e',
              Renderer.container s !! k = Some e ->
              Renderer.container s' !! k = Some e' -> e' = f e).
    { intros k e e' He He'. rewrite Hc in He'.
      change (map f (Renderer.container s))
        with (f <$> Renderer.container s) in He'.
      rewrite list_lookup_fmap, He in He'. simpl in He'. congruence. }
    rewrite Hc. split; [|split; [|split; [|split; [|split]]]]; try done.
    + rewrite map_map. apply map_ext. intros e. unfold f.
      by destruct (Renderer.node e =? n)%nat.
    + rewrite map_map. apply map_ext. intros e. unfold f.
      by destruct (Renderer.node e =? n)%nat.
    + rewrite map_map. apply map_ext. intros e. unfold f.
      by destruct (Renderer.node e =? n)%nat.
    + intros k e e' He He' Hne.
      rewrite <- Hc in He'.
      rewrite (Hlook _ _ _ He He') in Hne |- *.
      destruct (Hf e Hne) as [Hn Hh].
      destruct (Hreg i n Hi) as (x & Hx & Hxn & Hxi).
      assert (e = x).
      { apply (RendererLaws.same_node_same_element (Renderer.container s));
          [done| |done|congruence].
        apply list_elem_of_In. by eapply list_elem_of_lookup_2. }
      subst x. split; [by rewrite Hn|]. split; [done|]. split; [done|].
      intros k' x Hx' Hx''.
      assert (Hfx : f x <> x).
      { intros Heq. apply Hx''.
        change (map f (Renderer.container s))
          with (f <$> Renderer.container s).
        rewrite list_lookup_fmap, Hx'. simpl. by rewrite Heq. }
      destruct (Hf x Hfx) as [Hxn' _].
      apply (NoDup_lookup (map Renderer.node (Renderer.container s)) k' k n);
        [done| |].
      * change (map Renderer.node (Renderer.container s))
          with (Renderer.node <$> Renderer.container s).
        by rewrite list_lookup_fmap, Hx', <- Hxn'.
      * change (map Renderer.node (Renderer.container s))
          with (Renderer.node <$> Renderer.container s).
        by rewrite list_lookup_fmap, He, <- Hn.
    + intros _. destruct (Hreg i n Hi) as (x & Hx & Hxn & Hxi).
      exists (f x). split; [by apply in_map|].
      unfold f. rewrite Hxn, Nat.eqb_refl. done.
  - rewrite Hc. split; [done|]. split; [done|]. split; [done|].
    split; [|split; [by intros [? ?]|done]].
    intros k e e' He He' Hne. congruence.
Qed.

(** X10 ([scheduleRender], [renderPendingBlocks], [appendBlocks]): after
    any history no render pass is left open, and whenever blocks wait in
    the queue a frame is requested or a timeout is pending, so the queue is
    never stranded. Every timeout the renderer arms has the delay 0 or
    [min(debounceMs, 8)]: never more than 8 ms. *)
Theorem scheduler_never_stalls cfg evs :
  let s := exec cfg evs in
  Renderer.isRendering s = false
  /\ on_its_way s
  /\ Forall (fun d => d = 0%Q \/ d = Qmin (Renderer.debounceMs cfg) 8)
            (Renderer.timers s)
  /\ Forall (fun d => (d <= 8)%Q) (Renderer.timers s).
Proof.
  unfold exec.
  assert (H : forall evs s0,
            Renderer.isRendering s0 = false -> on_its_way s0 ->
            Renderer.isRendering (fold_left (fire cfg) evs s0) = false
            /\ on_its_way (fold_left (fire cfg) evs s0)).
  { clear evs. induction evs as [|ev evs IH]; intros s0 Hr Hw; simpl; [done|].
    apply IH; [by apply RendererLaws.isRendering_fire|].
    by apply RendererLaws.on_its_way_fire. }
  assert (Ht : forall (P : Q -> Prop) evs s0,
             P 0%Q -> P (Qmin (Renderer.debounceMs cfg) 8) ->
             Forall P (Renderer.timers s0) ->
             Forall P (Renderer.timers (fold_left (fire cfg) evs s0))).
  { clear. intros P evs. induction evs as [|ev evs IH]; intros s0 H0 H8 Hs;
      simpl; [done|].
    apply IH; [done|done|]. by apply RendererLaws.timers_fire. }
  destruct (H evs Renderer.init eq_refl) as [Hr Hw]; [by intros []|].
  split; [done|]. split; [done|]. split.
  - apply Ht; [by left|by right|constructor].
  - apply Ht; [done|apply Q.le_min_r|constructor].
Qed.

(** X11 ([appendBlocks], [renderPendingBlocks], [updateBlock]): as long
    as no block is provisional and the renderer is not cleared, no block is
    lost, doubled or reordered, however the calls, frames and timeouts
    interleave: the ids of the attached elements, followed by those of the
    blocks that wait, are the ids of the blocks appended, in the order
    appended. *)
Theorem blocks_keep_their_order cfg evs :
  forallb finalEvent evs = true ->
  idsOf (exec cfg evs) = map id (appendedBlocks evs)
  /\ Renderer.lastTempBlockId (exec cfg evs) = None
  /\ allFinal (Renderer.pendingBlocks (exec cfg evs))
  /\ no_provisional (Renderer.container (exec cfg evs)).
Proof.
  intros H.
  destruct (RendererOrder.fold_fire_plain cfg evs Renderer.init H)
    as [(_ & Hl & Hp) Hids]; [by repeat split|].
  repeat (split; [done|]).
  apply RendererOrder.fold_fire_plain_final; [done|by repeat split|].
  by intros e [].
Qed.

Lemma blocks_keep_their_order_witness :
  let evs := [AppendBlocks [entry (str "a"); entry (str "b")];
              Frame 1; AppendBlocks [entry (str "c")]; Timeout 0] in
  forallb finalEvent evs = true
  /\ idsOf (exec (Renderer.mkConfig 1 16) evs)
     = map id (appendedBlocks evs).
Proof.
  split; [reflexivity|].
  apply (blocks_keep_their_order (Renderer.mkConfig 1 16)). reflexivity.
Defined.


(** X13 ([appendBlocks]): a batch whose first block is not provisional
    retires the provisional element at once, before any frame: after any
    history, right after such an [appendBlocks] no provisional element is
    attached, and every other element is still attached. *)
Theorem final_batch_retires_the_provisional cfg evs first rest :
  Renderer.isTemp (id first) = false ->
  let s := exec cfg evs in
  let s' := Renderer.appendBlocks (first :: rest) s in
  no_provisional (Renderer.container s')
  /\ provisionalCount (Renderer.container s') = 0%nat
  /\ (forall e, In e (Renderer.container s) -> provisional e = false ->
        In e (Renderer.container s'))
  /\ Renderer.container s' `sublist_of` Renderer.container s.
Proof.
  intros Hfirst s s'.
  destruct (RendererLaws.appendBlocks_retires first rest s
              (RendererLaws.exec_book cfg evs) Hfirst)
    as (Hnone & Hkeep & Hsub).
  fold s' in Hnone, Hkeep, Hsub. split; [done|]. split; [|done].
  unfold provisionalCount.
  destruct (List.filter provisional (Renderer.container s')) as [|e l]
    eqn:Hf; [done|].
  assert (He : In e (List.filter provisional (Renderer.container s')))
    by (rewrite Hf; by left).
  apply filter_In in He as [He Hp]. by rewrite (Hnone e He) in Hp.
Qed.

Lemma final_batch_retires_the_provisional_witness :
  let temp := mkBlock (str "__temp__1") PARAGRAPH (str "t") (str "<p>t</p>")
                      0 0 None None in
  let evs := [AppendBlocks [entry (str "a"); temp]; Frame 1] in
  provisionalCount (Renderer.container (exec defaults evs)) = 1%nat
  /\ provisionalCount
       (Renderer.container
          (Renderer.appendBlocks [entry (str "b")] (exec defaults evs)))
     = 0%nat.
Proof.
  split; [reflexivity|].
  by destruct (final_batch_retires_the_provisional defaults
                 [AppendBlocks
                    [entry (str "a");
                     mkBlock (str "__temp__1") PARAGRAPH (str "t")
                             (str "<p>t</p>") 0 0 None None];
                  Frame 1]
                 (entry (str "b")) [] eq_refl) as (_ & ? & _).
Defined.

(** ** [StreamProcessor] *)

(** X14 ([finish], both variants): [finish] hands over the blocks of
    [splitIntoBlocks] on the buffer, converted as one batch and appended to
    the blocks produced before, and leaves a buffer of white space only; a
    second [finish] changes nothing. *)
Theorem finish_hands_over_the_rest marked_parse sanitize v calls c c' snap0
    snap :
  Stream.after marked_parse sanitize v calls = Returned snap0 ->
  Stream.after marked_parse sanitize v (calls ++ [Finish c]) = Returned snap ->
  blank (Stream.buffered snap)
  /\ (exists new,
        parseBlocks marked_parse sanitize c
          (splitIntoBlocks (Stream.buffered snap0)) = Returned new
        /\ Stream.produced snap = Stream.produced snap0 ++ new)
  /\ map content (Stream.produced snap)
     = map content (Stream.produced snap0)
       ++ splitIntoBlocks (Stream.buffered snap0)
  /\ Stream.after marked_parse sanitize v (calls ++ [Finish c; Finish c'])
     = Returned snap.
Proof.
  change [Finish c; Finish c'] with ([Finish c] ++ [Finish c']).
  rewrite (app_assoc calls). destruct v; simpl.
  - rewrite !StreamFacts.runA_app.
    destruct (StreamA.run _ _ calls StreamA.init) as [s|e]; simpl; [|done].
    intros [= <-]. simpl.
    destruct (StreamA.finish _ _ c s) as [s'|e] eqn:Hf; simpl; [|done].
    intros [= <-]. simpl.
    destruct (StreamLaws.finishA_blocks _ _ _ _ _ Hf)
      as (Hb & new & Hp & Hnew).
    split; [done|]. split; [by exists new|]. split.
    + rewrite Hnew, map_app. f_equal.
      by eapply ParserFacts.parseBlocksFrom_content.
    + by rewrite StreamLaws.finishA_blank.
  - rewrite !StreamFacts.runB_app.
    destruct (StreamB.run _ _ calls StreamB.init) as [s|e]; simpl; [|done].
    intros [= <-]. simpl.
    destruct (StreamB.finish _ _ c s) as [s'|e] eqn:Hf; simpl; [|done].
    intros [= <-]. simpl.
    destruct (StreamLaws.finishB_blocks _ _ _ _ _ Hf)
      as (Hb & new & Hp & Hnew).
    split; [done|]. split; [by exists new|]. split.
    + rewrite Hnew, map_app. f_equal.
      by eapply ParserFacts.parseBlocksFrom_content.
    + by rewrite StreamLaws.finishB_blank.
Qed.

Lemma finish_hands_over_the_rest_witness :
  exists snap0 snap,
    Stream.after echo keep Stream.LastBlockComplete [Append noon openFence]
      = Returned snap0
    /\ Stream.after echo keep Stream.LastBlockComplete
         ([Append noon openFence] ++ [Finish noon]) = Returned snap
    /\ map content (Stream.produced snap)
       = [str "a"; str "```" ++ [NL] ++ str "b"]
    /\ Stream.after echo keep Stream.LastBlockComplete
         ([Append noon openFence] ++ [Finish noon; Finish noon])
       = Returned snap.
Proof.
  destruct (Stream.after echo keep Stream.LastBlockComplete
              [Append noon openFence]) as [snap0|e] eqn:H0;
    [|vm_compute in H0; discriminate].
  destruct (Stream.after echo keep Stream.LastBlockComplete
              ([Append noon openFence] ++ [Finish noon])) as [snap|e] eqn:H1;
    [|vm_compute in H1; discriminate].
  exists snap0, snap. split; [done|]. split; [done|].
  destruct (finish_hands_over_the_rest _ _ _ _ noon noon _ _ H0 H1)
    as (_ & _ & Hc & Hagain).
  split; [|done]. rewrite Hc.
  vm_compute in H0. injection H0 as <-. reflexivity.
Defined.

(** X15 (second variant, [append], [extractCompleteBlocks],
    [isBlockComplete]): [append] throws the TypeError of [block.trim()] on
    an undefined block exactly when the buffer with the new chunk is white
    space only (an empty chunk on a fresh processor, a chunk of blank
    lines); any other failure of [append] is a failure of the converter,
    and with a converter that never fails [append] returns whenever the
    buffer holds a visible character. *)
Theorem appendB_needs_visible_text marked_parse sanitize clock chunk s :
  (blank (StreamB.buffer s ++ chunk) ->
   StreamB.append marked_parse sanitize clock chunk s
   = Thrown StreamB.trimOfUndefined)
  /\ (forall e,
        StreamB.append marked_parse sanitize clock chunk s = Thrown e ->
        (blank (StreamB.buffer s ++ chunk) /\ e = StreamB.trimOfUndefined)
        \/ exists c, marked_parse c = Thrown e)
  /\ ((forall c, returns (marked_parse c) = true) ->
      ~ blank (StreamB.buffer s ++ chunk) ->
      returns (StreamB.append marked_parse sanitize clock chunk s) = true).
Proof.
  split; [apply StreamLaws.appendB_blank|].
  split; [apply StreamLaws.appendB_thrown|].
  intros Hmp Hnb.
  destruct (StreamB.append marked_parse sanitize clock chunk s) as [s'|e]
    eqn:Ha; [done|].
  apply StreamLaws.appendB_thrown in Ha as [[Hb _]|[c Hc]]; [done|].
  specialize (Hmp c). by rewrite Hc in Hmp.
Qed.

(** X16 (second variant, [extractCompleteBlocks], [isBlockComplete]):
    an extraction either hands over every block of [splitIntoBlocks] and
    empties the buffer, or holds back the last block only and keeps exactly
    that block as the buffer. The block it holds back is a fenced block
    that is not closed: it starts with a fence, holds fewer than two fence
    marks, runs to the end of the old buffer, and is one block for
    [splitIntoBlocks]. The table test of [isBlockComplete] never holds a
    block back: on the last block it always passes, because what follows
    that block is white space. Any text but an open fence is handed over
    by the call that brings it. *)
Theorem only_open_fences_wait b r :
  StreamB.extractCompleteBlocks b = Returned r ->
  (fst r = splitIntoBlocks b /\ snd r = [])
  \/ exists lb,
       last (splitIntoBlocks b) = Some lb
       /\ fst r = removelast (splitIntoBlocks b)
       /\ snd r = lb
       /\ lb `suffix_of` b
       /\ startsWith FENCE (trim lb) = true
       /\ (StreamB.countFences 0 (trim lb) < 2)%nat
       /\ splitIntoBlocks lb = [lb].
Proof. apply HeldBackLaws.held_back_is_one_block. Qed.

Lemma only_open_fences_wait_witness :
  exists r,
    StreamB.extractCompleteBlocks openFence = Returned r
    /\ fst r = [str "a"]
    /\ snd r = str "```" ++ [NL] ++ str "b".
Proof.
  destruct (StreamB.extractCompleteBlocks openFence) as [r|e] eqn:H;
    [|vm_compute in H; discriminate].
  exists r. split; [done|].
  destruct (only_open_fences_wait _ _ H)
    as [[_ Hs]|(lb & _ & _ & _ & _ & _ & _ & _)].
  - vm_compute in H. injection H as <-. discriminate Hs.
  - vm_compute in H. by injection H as <-.
Defined.

(** X17 (second variant, [append], [isBlockComplete]): an opening fence
    whose closing line has not come stays in the buffer: for a text that
    is an opening fence line followed by lines without backticks, given to
    a processor with an empty buffer, [append] hands nothing over and keeps
    the whole text, while [splitIntoBlocks] takes it for one block. *)
Theorem open_fence_stays_buffered marked_parse sanitize clock indent info
    body s :
  blank indent ->
  ~ In 96 info ->
  Forall (fun l => ~ In 96 l) body ->
  Forall oneLine ((indent ++ FENCE ++ info) :: body) ->
  StreamB.buffer s = [] ->
  let text := join_nl ((indent ++ FENCE ++ info) :: body) in
  splitIntoBlocks text = [text]
  /\ StreamB.extractCompleteBlocks text = Returned ([], text)
  /\ StreamB.append marked_parse sanitize clock text s
     = Returned (StreamB.mkState text (StreamB.lastProcessedIndex s)
                   (StreamB.processedBlocks s) (StreamB.renderer s)).
Proof.
  intros Hi Hinfo Hbody Hone Hbuf text.
  destruct (StreamLaws.open_fence_is_held indent info body Hi Hinfo Hbody Hone)
    as (Hs & _ & Hx).
  fold text in Hs, Hx. split; [done|]. split; [done|].
  unfold StreamB.append, StreamB.appendBegin. rewrite Hbuf. simpl app.
  by rewrite Hx.
Qed.

Lemma open_fence_stays_buffered_witness :
  StreamB.append echo keep noon
    (join_nl [str "  ```js"; str "let x = 1"; str ""]) StreamB.init
  = Returned (StreamB.mkState
                (join_nl [str "  ```js"; str "let x = 1"; str ""]) 0 []
                Renderer.init).
Proof.
  apply (open_fence_stays_buffered echo keep noon (str "  ") (str "js")
           [str "let x = 1"; str ""] StreamB.init).
  - reflexivity.
  - vm_compute. intuition discriminate.
  - repeat constructor; vm_compute; intuition discriminate.
  - repeat constructor; vm_compute; intuition discriminate.
  - reflexivity.
Defined.

(** X18 (second variant, [append] then [finish], as in the component's
    immediate watcher): appended in one piece and finished, a text gives
    exactly the blocks of [splitIntoBlocks] on it, in order, whether the
    last block was held back by [append] or not; the buffer is empty
    afterwards. *)
Theorem one_piece_gives_the_blocks marked_parse sanitize c c' text snap :
  Stream.after marked_parse sanitize Stream.LastBlockComplete
    [Append c text; Finish c'] = Returned snap ->
  map content (Stream.produced snap) = splitIntoBlocks text
  /\ Stream.buffered snap = [].
Proof.
  simpl. unfold StreamB.append, StreamB.appendBegin. simpl.
  destruct (StreamB.extractCompleteBlocks text) as [r|e] eqn:Hx; simpl;
    [|done].
  apply HeldBackLaws.held_back_is_one_block in Hx
    as [[Hf Hs]|(lb & Hlast & Hf & Hs & _ & Hfence & _ & Hstable)].
  - rewrite Hf, Hs.
    destruct (nonEmpty (splitIntoBlocks text)) eqn:Hne.
    + destruct (parseBlocks _ _ c _) as [bs|e] eqn:Hp; simpl; [|done].
      intros [= <-]. simpl. split; [|done].
      by eapply ParserFacts.parseBlocksFrom_content.
    + simpl. intros [= <-]. simpl.
      by apply JSFacts.nonEmpty_false in Hne.
  - rewrite Hf, Hs.
    apply last_Some in Hlast as [front Hfront].
    rewrite Hfront, removelast_last.
    assert (Hnb : nonEmpty (trim lb) = true).
    { apply JSFacts.startsWith_spec in Hfence as [k ->]. done. }
    destruct (nonEmpty front) eqn:Hne.
    + destruct (parseBlocks _ _ c front) as [bs|e] eqn:Hp; simpl; [|done].
      unfold StreamB.finish. simpl. rewrite Hnb, Hstable. simpl.
      destruct (parseBlocks _ _ c' [lb]) as [bs'|e] eqn:Hp'; simpl; [|done].
      intros [= <-]. simpl. split; [|done].
      rewrite map_app.
      rewrite (ParserFacts.parseBlocksFrom_content _ _ _ _ _ _ Hp).
      by rewrite (ParserFacts.parseBlocksFrom_content _ _ _ _ _ _ Hp').
    + apply JSFacts.nonEmpty_false in Hne. subst front. simpl.
      unfold StreamB.finish. simpl. rewrite Hnb, Hstable. simpl.
      destruct (parseBlocks _ _ c' [lb]) as [bs'|e] eqn:Hp'; simpl; [|done].
      intros [= <-]. simpl. split; [|done].
      by rewrite (ParserFacts.parseBlocksFrom_content _ _ _ _ _ _ Hp').
Qed.

Lemma one_piece_gives_the_blocks_witness :
  exists snap,
    Stream.after echo keep Stream.LastBlockComplete
      [Append noon openFence; Finish noon] = Returned snap
    /\ map content (Stream.produced snap)
       = [str "a"; str "```" ++ [NL] ++ str "b"].
Proof.
  destruct (Stream.after echo keep Stream.LastBlockComplete
              [Append noon openFence; Finish noon]) as [snap|e] eqn:H;
    [|vm_compute in H; discriminate].
  exists snap. split; [done|].
  by destruct (one_piece_gives_the_blocks _ _ _ _ _ _ H) as [-> _].
Defined.

(** X19 (first variant, [append], [extractCompleteBlocks], [finish]): a
    text without line break and without a sentence end followed by white
    space is never cut, however it is chunked: the appends hand nothing
    over and keep it in the buffer, and [finish] gives it as one block (or
    as none, if it is white space only). *)
Theorem unbroken_line_is_one_block marked_parse sanitize chunks clock snap :
  unbroken (concat (map snd chunks)) = true ->
  Stream.after marked_parse sanitize Stream.SentenceBoundary
    (Stream.session chunks clock) = Returned snap ->
  Stream.after marked_parse sanitize Stream.SentenceBoundary
    (map (fun c => Append (fst c) (snd c)) chunks)
  = Returned (Stream.mkSnapshot [] (concat (map snd chunks)) Renderer.init)
  /\ map content (Stream.produced snap)
     = (if notBlank (concat (map snd chunks))
        then [concat (map snd chunks)] else []).
Proof.
  intros Hu. unfold Stream.session. simpl.
  rewrite StreamFacts.runA_app.
  rewrite (StreamLaws.unbroken_run marked_parse sanitize chunks StreamA.init)
    by done.
  simpl. split; [done|].
  destruct (StreamA.finish _ _ _ _) as [s'|e] eqn:Hf; simpl in H; [|done].
  injection H as <-. simpl.
  apply StreamLaws.finishA_blocks in Hf as (_ & new & Hp & ->).
  simpl in *. apply ParserFacts.parseBlocksFrom_content in Hp. rewrite Hp.
  destruct (notBlank (concat (map snd chunks))) eqn:Hnb.
  - apply StreamLaws.one_line_is_one_block.
    + by apply StreamLaws.unbroken_oneLine.
    + intros Hb%JSFacts.notBlank_false. congruence.
  - by apply ParserLaws.splitIntoBlocks_blank, JSFacts.notBlank_false.
Qed.

Lemma unbroken_line_is_one_block_witness :
  exists snap,
    Stream.after echo keep Stream.SentenceBoundary
      (Stream.session [(noon, str "v1.2 is "); (noon, str "out")] noon)
    = Returned snap
    /\ map content (Stream.produced snap) = [str "v1.2 is out"].
Proof.
  destruct (Stream.after echo keep Stream.SentenceBoundary
              (Stream.session [(noon, str "v1.2 is "); (noon, str "out")]
                 noon)) as [snap|e] eqn:H;
    [|vm_compute in H; discriminate].
  exists snap. split; [done|].
  by destruct (unbroken_line_is_one_block echo keep
                 [(noon, str "v1.2 is "); (noon, str "out")] noon snap
                 eq_refl H) as [_ ->].
Defined.

(** X20 (first variant, [append], [parseBlock]): a block handed over by
    [append] always has index 0, since an extraction gives at most one
    span and every batch numbers from 0: its id is [block-0-t] for the time
    [t] read at the conversion, so two blocks of different appends differ
    in their ids only if the clock has moved. *)
Theorem append_ids_rest_on_the_clock marked_parse sanitize clock chunk s s' :
  StreamA.append marked_parse sanitize clock chunk s = Returned s' ->
  exists new,
    StreamA.processedBlocks s' = StreamA.processedBlocks s ++ new
    /\ (length new <= 1)%nat
    /\ Forall (fun b => id b = str "block-0-" ++ decimal (clock 0%nat)
                        /\ startIndex b = 0%nat /\ endIndex b = 0%nat)
              new.
Proof.
  unfold StreamA.append, StreamA.appendBegin.
  pose proof (StreamAFacts.extractCompleteBlocks_ok (StreamA.buffer s ++ chunk))
    as (_ & _ & Hlen).
  destruct (StreamA.extractCompleteBlocks _) as [spans rest].
  simpl in Hlen. destruct (nonEmpty spans).
  - destruct (parseBlocks _ _ _ _) as [bs|e] eqn:Hp; simpl; [|done].
    intros [= <-]. simpl. exists bs. split; [done|].
    pose proof (ParserLaws.parseBlocksFrom_length _ _ _ _ _ _ Hp) as Hl.
    split; [lia|].
    apply Forall_forall. intros b Hb.
    apply list_elem_of_lookup in Hb as [k Hk].
    assert (k = 0)%nat as ->.
    { apply lookup_lt_Some in Hk. lia. }
    by destruct (ParserLaws.parseBlocksFrom_lookup _ _ _ _ _ _ _ _ Hp Hk)
      as (? & ? & ? & _).
  - intros [= <-]. exists []. rewrite app_nil_r. split; [done|].
    split; [simpl; lia|constructor].
Qed.

Lemma append_ids_rest_on_the_clock_witness :
  exists s1 s2,
    StreamA.append echo keep noon (str "a" ++ [NL; NL]) StreamA.init
    = Returned s1
    /\ StreamA.append echo keep noon (str "b" ++ [NL; NL]) s1 = Returned s2
    /\ map id (StreamA.processedBlocks s2)
       = [str "block-0-0"; str "block-0-0"].
Proof.
  destruct (StreamA.append echo keep noon (str "a" ++ [NL; NL]) StreamA.init)
    as [s1|e] eqn:H1; [|vm_compute in H1; discriminate].
  destruct (StreamA.append echo keep noon (str "b" ++ [NL; NL]) s1)
    as [s2|e] eqn:H2;
    [|vm_compute in H1; injection H1 as <-; vm_compute in H2; discriminate].
  exists s1, s2. split; [done|]. split; [done|].
  destruct (append_ids_rest_on_the_clock _ _ _ _ _ _ H2)
    as (new & Hnew & _ & _).
  vm_compute in H1. injection H1 as <-.
  vm_compute in H2. by injection H2 as <-.
Defined.

(** ** The component and the demo pages *)

(** X21 (the streaming loops of the component's watcher and of the demo
    pages): with a positive chunk size the chunks [content.slice(i, i +
    chunkSize)] of the loop, put together, are the content; no chunk is
    empty or longer than the chunk size, and every chunk but the last has
    exactly that size. So what the watcher appends is the content. *)
Theorem chunks_cover_content chunkSize content clocks :
  (1 <= chunkSize)%nat ->
  concat (Component.chunks chunkSize content) = content
  /\ Forall (fun c => (1 <= length c <= chunkSize)%nat)
            (Component.chunks chunkSize content)
  /\ (forall k c,
        Component.chunks chunkSize content !! k = Some c ->
        is_Some (Component.chunks chunkSize content !! S k) ->
        length c = chunkSize)
  /\ appended (Component.streamCalls clocks content) = content.
Proof.
  intros Hn. unfold Component.chunks. split; [|split; [|split]].
  - rewrite ComponentLaws.chunkLoop_concat by lia. done.
  - by apply ComponentLaws.chunkLoop_sizes.
  - apply ComponentLaws.chunkLoop_full.
  - apply ComponentLaws.appended_streamCalls.
Qed.

Lemma chunks_cover_content_witness :
  concat (Component.chunks 2 (str "abcde")) = str "abcde"
  /\ Component.chunks 2 (str "abcde") = [str "ab"; str "cd"; str "e"].
Proof.
  split; [|reflexivity].
  apply (chunks_cover_content 2 (str "abcde") (fun _ => noon)). lia.
Defined.

(** X22 (the watcher of [props.content], with either processor): as
    long as the code that runs while the watcher is suspended touches the
    renderer only (frames and timeouts) and leaves the buffer and the
    processed blocks alone, which is so when no other watcher and no call
    of the parent works on the processor meanwhile, and the watcher's calls
    all return, the blocks of the processor hold the new content and
    nothing of what was there before [clear()]: their text is the content
    with white space deleted and nothing else changed, and the buffer
    holds white space only. *)
Theorem watcher_renders_the_content marked_parse sanitize clocks content :
  content <> [] ->
  (forall others a a',
     (forall n, rendersOnlyA (others n)) ->
     Component.watchA marked_parse sanitize others clocks content a
       = Returned a' ->
     erase_ws (textOf (StreamA.processedBlocks a')) content
     /\ visible (textOf (StreamA.processedBlocks a')) = visible content
     /\ blank (StreamA.buffer a'))
  /\ (forall others b b',
        (forall n, rendersOnlyB (others n)) ->
        Component.watchB marked_parse sanitize others clocks content b
          = Returned b' ->
        erase_ws (textOf (StreamB.processedBlocks b')) content
        /\ visible (textOf (StreamB.processedBlocks b')) = visible content
        /\ blank (StreamB.buffer b')).
Proof.
  intros Hne. unfold Component.watchA, Component.watchB.
  destruct content as [|x content]; [done|]. cbn [nonEmpty].
  set (text := x :: content).
  assert (Hcs : concat (Component.chunks 100 text) = text).
  { unfold Component.chunks.
    rewrite ComponentLaws.chunkLoop_concat by lia. done. }
  split.
  - intros others a a' Hd Hr.
    destruct (ComponentLaws.watchLoopA_accounted _ _ _ _ _ _ _ _ [] Hd Hr)
      as [Hacc Hb]; [constructor|].
    rewrite app_nil_l, Hcs in Hacc. unfold accounted in Hacc.
    apply StreamFacts.erase_trailing_blank in Hacc; [|done].
    split; [done|]. split; [by apply JSFacts.erase_visible|done].
  - intros others b b' Hd Hr.
    destruct (ComponentLaws.watchLoopB_accounted _ _ _ _ _ _ _ _ [] Hd Hr)
      as [Hacc Hb]; [constructor|].
    rewrite app_nil_l, Hcs in Hacc. unfold accountedB in Hacc.
    apply StreamFacts.erase_trailing_blank in Hacc; [|done].
    split; [done|]. split; [by apply JSFacts.erase_visible|done].
Qed.

Lemma watcher_renders_the_content_witness :
  exists a',
    Component.watchA echo keep (fun _ s => s) (fun _ => noon) twoParagraphs
      (StreamA.mkState (str "old") [entry (str "old")] Renderer.init)
    = Returned a'
    /\ visible (textOf (StreamA.processedBlocks a')) = str "ab".
Proof.
  destruct (Component.watchA echo keep (fun _ s => s) (fun _ => noon)
              twoParagraphs
              (StreamA.mkState (str "old") [entry (str "old")] Renderer.init))
    as [a'|e] eqn:H; [|vm_compute in H; discriminate].
  exists a'. split; [done|].
  destruct (watcher_renders_the_content echo keep (fun _ => noon)
              twoParagraphs) as [HA _]; [done|].
  assert (Hd : forall n : nat, rendersOnlyA (fun s => s)) by (by intros n s).
  by destruct (HA _ _ _ Hd H) as (_ & -> & _).
Defined.

(** With the second watcher at work on the same processor the blocks are
    not those of the content: for a component mounted with content, a
    change of [content] to "a\n\nb" gives the blocks "a", "ba" and
    "b". *)
Remark second_watcher_comes_between :
  exists a',
    Component.watchA echo keep secondWatcher (fun _ => noon) twoParagraphs
      StreamA.init = Returned a'
    /\ map content (StreamA.processedBlocks a')
       = [str "a"; str "ba"; str "b"].
Proof. eexists. split; [vm_compute; reflexivity | reflexivity]. Qed.

(** ** [WorkerParser] *)

(** X23 ([WorkerParser.parseBlocks], [WorkerParser.handleMessage] and the
    worker's handler): the worker's replies carry no [id] (the payload is
    the array of results, or [{ message }]), so [handleMessage] finds no
    request for them and leaves the wrapper as it is. After any number of
    calls of [parseBlocks], each answered by the worker, no promise has
    been settled and every request is still pending. *)
Theorem worker_replies_settle_nothing marked_parse sanitize batches :
  let s := fold_left (WorkerParser.exchange marked_parse sanitize) batches
                     WorkerParser.init in
  WorkerParser.settled s = []
  /\ WorkerParser.requestId s = length batches
  /\ (forall id, id ∈ WorkerParser.pendingRequests s
                 <-> (id < length batches)%nat)
  /\ (forall request reply s0,
        WorkerParser.answer marked_parse sanitize request = Some reply ->
        WorkerParser.handleMessage reply s0 = s0).
Proof.
  intros s.
  destruct (WorkerParserLaws.exchanges_pending marked_parse sanitize batches
              WorkerParser.init) as (Hs & Hr & Hp).
  fold s in Hs, Hr, Hp. simpl in Hs, Hr, Hp.
  split; [done|]. split; [done|]. split.
  - intros id. rewrite Hp. split.
    + intros [Hid|?]; [by apply elem_of_empty in Hid|lia].
    + intros ?. right. lia.
  - intros request reply s0 Ha.
    apply WorkerParserLaws.handleMessage_no_id.
    by eapply WorkerParserLaws.answer_has_no_id.
Qed.

(** X24 ([WorkerParser.handleMessage], [parseBlocks], [terminate]):
    whatever messages arrive, a promise is settled at most once, and only
    the promise of a request that was made and still waited; a settled
    request no longer waits. A message that names a waiting request settles
    it and removes it; [terminate] drops the waiting requests without
    settling them. *)
Theorem promises_settle_at_most_once steps :
  let s := fold_left WorkerParser.step steps WorkerParser.init in
  client_ok s
  /\ (forall id results,
        id ∈ WorkerParser.pendingRequests s ->
        let s' := WorkerParser.handleMessage
                    (WorkerParser.mkEnvelope (Worker.PARSE_RESULT results)
                                             (Some id)) s in
        WorkerParser.settled s'
        = WorkerParser.settled s ++ [(id, WorkerParser.Resolved results)]
        /\ id ∉ WorkerParser.pendingRequests s')
  /\ WorkerParser.settled (WorkerParser.terminate s) = WorkerParser.settled s
  /\ WorkerParser.pendingRequests (WorkerParser.terminate s) = ∅.
Proof.
  intros s. split; [apply WorkerParserLaws.steps_ok,
                      WorkerParserLaws.init_client_ok|].
  split; [|done].
  intros id results Hid. unfold WorkerParser.handleMessage. simpl.
  unfold WorkerParser.settle. rewrite bool_decide_eq_true_2 by done.
  simpl. split; [done|].
  intros [_ Hn]%elem_of_difference. apply Hn. by apply elem_of_singleton.
Qed.

(** ** Across the modules *)

(** X25 (the older [IncrementalRenderer] against the present one): the
    handling of provisional blocks is a conservative extension. On any
    history without provisional blocks the present renderer is in the
    state the older one is in (same attached elements, same map, same
    queue, same requested frame) except that the delays of its pending
    timeouts are those of the older one capped at 8 ms. *)
Theorem provisional_handling_is_conservative cfg evs :
  forallb plainEvent evs = true ->
  same_but_delays (exec cfg evs) (exec0 cfg evs).
Proof.
  intros H. apply Renderer0Laws.same_fold_fire; [done|by repeat split|].
  unfold same_but_delays. by repeat split.
Qed.

Lemma provisional_handling_is_conservative_witness :
  let evs := [AppendBlocks [entry (str "a"); entry (str "b")]; Frame 20;
              Clear; AppendBlocks [entry (str "c")]; Timeout 0; Frame 1] in
  forallb plainEvent evs = true
  /\ Renderer.container (exec (Renderer.mkConfig 1 16) evs)
     = Renderer.container (exec0 (Renderer.mkConfig 1 16) evs).
Proof.
  split; [reflexivity|].
  by destruct (provisional_handling_is_conservative
                 (Renderer.mkConfig 1 16)
                 [AppendBlocks [entry (str "a"); entry (str "b")]; Frame 20;
                  Clear; AppendBlocks [entry (str "c")]; Timeout 0; Frame 1]
                 eq_refl) as (? & _).
Defined.

(** X26 ([splitIntoBlocks] and [detectBlockType]): the type of a block
    fits the way it was cut in two cases. A block that begins with a fence
    line (every fenced block of [splitIntoBlocks]) has the type code, and a
    line that [splitIntoBlocks] pushes as a block of its own (it starts
    with a hash or is a rule) has the type heading or rule. *)
Theorem cut_and_type_agree :
  (forall opening rest,
     isFence opening -> detectBlockType (join_nl (opening :: rest)) = CODE)
  /\ (forall line,
        lineKind line = SingleLine ->
        detectBlockType line = HEADING \/ detectBlockType line = HR).
Proof.
  split; [apply TypeLaws.fenced_block_type|apply TypeLaws.single_line_type].
Qed.

(** X27 ([StreamProcessor] with [IncrementalRenderer], both variants):
    however the frames and timeouts of the host fall between the awaited
    calls of the producer, the page and the queue together hold the blocks
    produced, in the order produced: the ids of the attached elements
    followed by those of the waiting blocks are the ids of the blocks
    produced. The processors never bring a provisional block: none waits,
    none is attached, none is remembered. And the text appended is in the
    blocks produced or in the buffer, up to deleted white space. *)
Theorem blocks_reach_the_page_in_order marked_parse sanitize cfg v ticks snap :
  play marked_parse sanitize cfg v ticks = Returned snap ->
  idsOf (Stream.rendering snap) = map id (Stream.produced snap)
  /\ allFinal (Renderer.pendingBlocks (Stream.rendering snap))
  /\ no_provisional (Renderer.container (Stream.rendering snap))
  /\ Renderer.lastTempBlockId (Stream.rendering snap) = None
  /\ erase_ws (textOf (Stream.produced snap) ++ Stream.buffered snap)
              (appended (callsOf ticks)).
Proof.
  assert (Hinit : forall r, r = Renderer.init ->
            in_step [] r).
  { intros r ->. split; [by repeat split|]. split; [done|by intros e []]. }
  destruct v; simpl.
  - destruct (playA _ _ _ ticks StreamA.init) as [s|e] eqn:Hp; simpl; [|done].
    intros [= <-]. simpl.
    destruct (PlayLaws.playA_in_step _ _ _ _ _ _ [] Hp)
      as [((Hr & Hl & Hf) & Hids & Hnone) Hacc];
      [by apply Hinit|constructor|].
    done.
  - destruct (playB _ _ _ ticks StreamB.init) as [s|e] eqn:Hp; simpl; [|done].
    intros [= <-]. simpl.
    destruct (PlayLaws.playB_in_step _ _ _ _ _ _ [] Hp)
      as [((Hr & Hl & Hf) & Hids & Hnone) Hacc];
      [by apply Hinit|constructor|].
    done.
Qed.

Lemma blocks_reach_the_page_in_order_witness :
  exists snap,
    play echo keep (Renderer.mkConfig 1 16) Stream.LastBlockComplete
      [Do (Append noon threeParagraphs); Host (inl 20%Q); Host (inr 0%nat);
       Do (Append noon (str "d")); Host (inl 1%Q); Do (Finish noon)]
    = Returned snap
    /\ idsOf (Stream.rendering snap) = map id (Stream.produced snap)
    /\ length (Renderer.container (Stream.rendering snap)) = 2%nat.
Proof.
  destruct (play echo keep (Renderer.mkConfig 1 16) Stream.LastBlockComplete
      [Do (Append noon threeParagraphs); Host (inl 20%Q); Host (inr 0%nat);
       Do (Append noon (str "d")); Host (inl 1%Q); Do (Finish noon)])
    as [snap|e] eqn:H; [|vm_compute in H; discriminate].
  exists snap. split; [done|].
  destruct (blocks_reach_the_page_in_order _ _ _ _ _ _ H) as (Hids & _).
  split; [done|]. vm_compute in H. by injection H as <-.
Defined.
